(** * lxc-manager: the step execution engine (backend/src/ve-execution.mts)

    A shallow embedding of [VeExecution] (retry loop, output parsing,
    host discovery, the [run] loop with its restart information) and of
    [OutputProcessor.parseAndUpdateOutputs], followed by the properties
    the specification states about them. Two callers are embedded as
    well: the command line that starts a run (backend/src/lxc-manager.mts)
    and the process monitor that collects its messages
    (process-monitor.ts).

    Conventions of the embedding:
    - a JS [Map] or plain object used as a dictionary is a [gmap string _];
      the order in which [entries()] enumerates it is the map's, not the
      insertion order (no property below depends on it);
    - a number computed by the engine is a double ([JsNumber.t]: NaN, the
      infinities and every finite double, rounded as IEEE 754 rounds); a
      number inside a JSON value is a whole number ([JNum z]), a JSON number
      with a fraction is not represented;
    - [undefined] is [None];
    - what the engine does to the outside (spawned processes, sleeps,
      emitted events) is appended to a trace, oldest first;
    - [console.error] lines are not part of the trace. *)

From stdpp Require Import gmap strings list fin_maps.
From Stdlib Require Import ZArith Ascii DecimalString.
From Stdlib Require DecimalPos.

Set Warnings "-register-all".
Local Open Scope Z_scope.

(** ** JavaScript numbers *)
Module JsNumber.

(** A Number: NaN, an infinity, or a finite double. A finite double is a
    whole number, [Int z], or [Frac m e], which is m / 2^e with m odd and
    0 < e. The sign of zero is not kept. The functions below return every
    value in this one form, so that two numbers returned are the same
    value exactly when they are the same term. *)
Inductive t : Type :=
| NaN
| Infinity (negative : bool)
| Int (z : Z)
| Frac (m : Z) (e : Z).

#[global] Instance eq_dec : EqDecision t.
Proof. solve_decision. Defined.

(** n / d rounded to a whole number, a tie to the even one; 0 <= n and
    0 < d. *)
Definition div_nearest_even (n d : Z) : Z :=
  let q := n / d in
  match 2 * (n mod d) ?= d with
  | Lt => q
  | Gt => q + 1
  | Eq => if Z.even q then q else q + 1
  end.

(** n / (d * 2^e) as a fraction of whole numbers. *)
Definition scaled (n d e : Z) : Z * Z :=
  if 0 <=? e then (n, d * 2 ^ e) else (n * 2 ^ (- e), d).

(** The double nearest to n / d, for 0 < n and 0 < d, as (m, e) for
    m * 2^e: 53 significant bits, the exponent not below -1074, a tie to
    the even significand. [None] is the overflow, from 2^1024 on. *)
Definition nearest (n d : Z) : option (Z * Z) :=
  let l := Z.log2 n - Z.log2 d in
  let e0 :=
    let '(a, b) := scaled n d (l - 52) in
    if b * 2 ^ 52 <=? a then l - 52 else l - 53 in
  let e := Z.max e0 (-1074) in
  let '(a, b) := scaled n d e in
  let m := div_nearest_even a b in
  if 2 ^ 1024 <=? m * 2 ^ e then None else Some (m, e).

(** m / 2^e in the one form, for 0 <= e. *)
Fixpoint reduce (fuel : nat) (m e : Z) : t :=
  if e <=? 0 then Int m
  else if Z.even m then
    match fuel with
    | S fuel' => reduce fuel' (m / 2) (e - 1)
    | O => Frac m e
    end
  else Frac m e.

(** The Number value of n / d with the sign given; 0 <= n, 0 < d. *)
Definition of_ratio (negative : bool) (n d : Z) : t :=
  if n =? 0 then Int 0
  else
    match nearest n d with
    | None => Infinity negative
    | Some (m, e) =>
        let s := if negative then - m else m in
        if 0 <=? e then Int (s * 2 ^ e) else reduce (Z.to_nat (- e)) s (- e)
    end.

(** The Number value of a whole number: itself up to 2^53, the nearest
    double beyond. *)
Definition of_Z (z : Z) : t :=
  if Z.abs z <=? 2 ^ 53 then Int z else of_ratio (z <? 0) (Z.abs z) 1.

Definition isNaN (x : t) : bool :=
  match x with NaN => true | _ => false end.

(** [x > 0] *)
Definition above_zero (x : t) : bool :=
  match x with
  | NaN => false
  | Infinity negative => negb negative
  | Int z => 0 <? z
  | Frac m _ => 0 <? m
  end.

(** [x < 0] *)
Definition below_zero (x : t) : bool :=
  match x with
  | NaN => false
  | Infinity negative => negative
  | Int z => z <? 0
  | Frac m _ => m <? 0
  end.

(** A finite number as a fraction of whole numbers. *)
Definition ratio (x : t) : option (Z * Z) :=
  match x with
  | Int z => Some (z, 1)
  | Frac m e => Some (m, 2 ^ e)
  | _ => None
  end.

(** [a * b]: the exact product, rounded; an infinity times zero is
    NaN. *)
Definition mul (a b : t) : t :=
  match a, b with
  | NaN, _ | _, NaN => NaN
  | Int x, Int y => of_Z (x * y)
  | _, _ =>
      match ratio a, ratio b with
      | Some (n1, d1), Some (n2, d2) =>
          of_ratio (xorb (n1 <? 0) (n2 <? 0)) (Z.abs n1 * Z.abs n2) (d1 * d2)
      | _, _ =>
          if (above_zero a || below_zero a) && (above_zero b || below_zero b)
          then Infinity (xorb (below_zero a) (below_zero b))
          else NaN
      end
  end.

(** [a === b] on two numbers. *)
Definition strict_eq (a b : t) : bool :=
  negb (isNaN a) && bool_decide (a = b).

End JsNumber.

(** A whole number written where a Number is expected is that Number. *)
Coercion JsNumber.Int : Z >-> JsNumber.t.

(** ** JavaScript text primitives *)
Module JsText.

Definition dq : string := String (ascii_of_nat 34) "".
Definition nl : string := String (ascii_of_nat 10) "".

Fixpoint trimStart (s : string) : string :=
  match s with
  | String a r => if Ascii.is_space a then trimStart r else s
  | EmptyString => EmptyString
  end.

Definition trimEnd (s : string) : string :=
  String.rev (trimStart (String.rev s)).

(** [String.prototype.trim], for the ASCII white space characters. *)
Definition trim (s : string) : string := trimEnd (trimStart s).

Fixpoint drop (n : nat) (s : string) : string :=
  match n, s with
  | O, _ => s
  | S n', String _ r => drop n' r
  | S _, EmptyString => EmptyString
  end.

(** [s.slice(n)] for [0 <= n]. *)
Definition slice (n : nat) (s : string) : string := drop n s.

(** [hay.indexOf(needle)]; [None] stands for -1. *)
Definition indexOf (needle hay : string) : option nat :=
  String.index 0 needle hay.

Definition includes (needle hay : string) : bool :=
  match indexOf needle hay with Some _ => true | None => false end.

Definition startsWith (p s : string) : bool := String.prefix p s.

(** No character of [s] is [c]. *)
Fixpoint free_of (c : ascii) (s : string) : bool :=
  match s with
  | EmptyString => true
  | String a r => negb (Ascii.eqb a c) && free_of c r
  end.

Definition isEmpty (s : string) : bool :=
  match s with EmptyString => true | _ => false end.

(** [s.split(colon)[1]], or the empty text: the text between the first and the second
    colon. *)
Fixpoint upto_colon (s : string) : string :=
  match s with
  | EmptyString => EmptyString
  | String a r => if Ascii.eqb a ":" then EmptyString else String a (upto_colon r)
  end.

Fixpoint after_colon (s : string) : option string :=
  match s with
  | EmptyString => None
  | String a r => if Ascii.eqb a ":" then Some r else after_colon r
  end.

Definition split_colon_1 (s : string) : string :=
  match after_colon s with
  | Some r => upto_colon r
  | None => EmptyString
  end.

(** [s.replace(/^echo\s+/, empty)]: a leading echo and the white space
    after it are removed. *)
Definition strip_echo (s : string) : string :=
  if startsWith "echo" s then
    match drop 4 s with
    | String a r => if Ascii.is_space a then trimStart r else s
    | EmptyString => s
    end
  else s.

(** [s.replace] of one leading double quote by nothing. *)
Definition strip_leading_quote (s : string) : string :=
  match s with
  | String a r => if Ascii.eqb a (ascii_of_nat 34) then r else s
  | EmptyString => s
  end.

(** [s.replace] of one trailing double quote by nothing. *)
Definition strip_trailing_quote (s : string) : string :=
  String.rev (strip_leading_quote (String.rev s)).

(** The decimal digits of a whole number, with its sign. *)
Definition decimal (n : Z) : string := NilZero.string_of_int (Z.to_int n).

Fixpoint drop_zeros (s : string) : string :=
  match s with
  | String a r => if Ascii.eqb a "0" then drop_zeros r else s
  | EmptyString => EmptyString
  end.

(** [s] without the zeros at its end. *)
Definition strip_zeros (s : string) : string :=
  String.rev (drop_zeros (String.rev s)).

(** The whole number with the fewest significant digits that is read
    back as the double [a] (0 < a, of [len] decimal digits), the nearest to
    [a] among those, the one with the even last digit at a tie: a
    candidate with [k] digits is [a] cut after [k] digits, or that plus
    one at the last digit kept. *)
Fixpoint shortest (fuel : nat) (k : Z) (a len : Z) : Z :=
  match fuel with
  | O => a
  | S fuel' =>
      let p := 10 ^ (len - k) in
      let lo := a / p * p in
      let hi := lo + p in
      let back (c : Z) := bool_decide (JsNumber.of_Z c = JsNumber.Int a) in
      match back lo, back hi with
      | true, true =>
          if a - lo <? hi - a then lo
          else if hi - a <? a - lo then hi
          else if Z.even (lo / p) then lo else hi
      | true, false => lo
      | false, true => hi
      | false, false => shortest fuel' (k + 1) a len
      end
  end.

(** [String(x)] for a whole double above 2^53: the digits of [shortest]
    followed by zeros below 10^21, and in exponent form from there on. *)
Definition large_text (a : Z) : string :=
  let c := shortest 17 1 a (Z.of_nat (String.length (decimal a))) in
  if c <? 10 ^ 21 then decimal c
  else
    let exponent := decimal (Z.of_nat (String.length (decimal c)) - 1) in
    match strip_zeros (decimal c) with
    | String d EmptyString => String d ("e+" +:+ exponent)
    | String d more => String d ("." +:+ more +:+ "e+" +:+ exponent)
    | EmptyString => EmptyString
    end.

(** [String(n)] of the Number whose value is the whole number [n] (the
    nearest double where [n] is none). *)
Definition of_Z (n : Z) : string :=
  match JsNumber.of_Z n with
  | JsNumber.Int x =>
      if Z.abs x <=? 2 ^ 53 then decimal x
      else if x <? 0 then "-" +:+ large_text (- x)
      else large_text x
  | JsNumber.Infinity negative => if negative then "-Infinity" else "Infinity"
  | _ => "NaN"
  end.

Definition digit (a : ascii) : option Z :=
  match Ascii.is_nat a with Some d => Some (Z.of_nat d) | None => None end.

(** The longest prefix of decimal digits, read as a number; [None] when
    there is no digit. The rest of the text is returned too. *)
Fixpoint digits (acc : option Z) (s : string) : option Z * string :=
  match s with
  | String a r =>
      match digit a with
      | Some d => digits (Some (10 * default 0 acc + d)) r
      | None => (acc, s)
      end
  | EmptyString => (acc, s)
  end.

Definition signed (s : string) : Z * string :=
  match s with
  | String a r =>
      if Ascii.eqb a "-" then (-1, r)
      else if Ascii.eqb a "+" then (1, r)
      else (1, s)
  | EmptyString => (1, s)
  end.

(** [Number.parseInt(s, 10)]: the sign and the leading digits, read as a
    whole number and rounded to a double; NaN without a digit. (Beyond 20
    significant digits the language lets an implementation round from an
    approximation.) *)
Definition parseInt10 (s : string) : JsNumber.t :=
  let '(sg, r) := signed (trimStart s) in
  match digits None r with
  | (Some n, _) => JsNumber.of_Z (sg * n)
  | (None, _) => JsNumber.NaN
  end.

(** The value of a digit in a radix up to 16. *)
Definition radix_digit (radix : Z) (a : ascii) : option Z :=
  let n := Z.of_nat (nat_of_ascii a) in
  let v :=
    if (48 <=? n) && (n <=? 57) then Some (n - 48)
    else if (97 <=? n) && (n <=? 102) then Some (n - 87)
    else if (65 <=? n) && (n <=? 70) then Some (n - 55)
    else None in
  match v with
  | Some d => if d <? radix then Some d else None
  | None => None
  end.

(** A text of digits of the radix, one at least, read as a number. *)
Fixpoint radix_digits (radix : Z) (acc : option Z) (s : string) : option Z :=
  match s with
  | String a r =>
      match radix_digit radix a with
      | Some d => radix_digits radix (Some (radix * default 0 acc + d)) r
      | None => None
      end
  | EmptyString => acc
  end.

(** The radix a literal without sign announces: 0x, 0o or 0b, in either
    case of the letter. *)
Definition radix_prefix (s : string) : option (Z * string) :=
  match s with
  | String "0" (String c r) =>
      if Ascii.eqb c "x" || Ascii.eqb c "X" then Some (16, r)
      else if Ascii.eqb c "o" || Ascii.eqb c "O" then Some (8, r)
      else if Ascii.eqb c "b" || Ascii.eqb c "B" then Some (2, r)
      else None
  | _ => None
  end.

(** The exponent after the letter e: a sign and digits to the end of the
    text. *)
Definition exponent_part (s : string) : option Z :=
  let '(sg, r) := signed s in
  match digits None r with
  | (Some n, EmptyString) => Some (sg * n)
  | _ => None
  end.

(** A decimal literal without its sign: Infinity, or digits with a point
    and more digits, one digit at least before or after the point, and an
    exponent. *)
Definition decimal_literal (negative : bool) (s : string) : JsNumber.t :=
  if String.eqb s "Infinity" then JsNumber.Infinity negative
  else
    let '(whole, r1) := digits None s in
    let '(fraction, places, r2) :=
      match r1 with
      | String "." r =>
          let '(f, r') := digits None r in
          (f, Z.of_nat (String.length r - String.length r'), r')
      | _ => (None, 0, r1)
      end in
    match whole, fraction with
    | None, None => JsNumber.NaN
    | _, _ =>
        let exponent :=
          match r2 with
          | EmptyString => Some 0
          | String c r =>
              if Ascii.eqb c "e" || Ascii.eqb c "E" then exponent_part r else None
          end in
        match exponent with
        | None => JsNumber.NaN
        | Some x =>
            let significand := default 0 whole * 10 ^ places + default 0 fraction in
            if 0 <=? x - places
            then JsNumber.of_ratio negative (significand * 10 ^ (x - places)) 1
            else JsNumber.of_ratio negative significand (10 ^ (places - x))
        end
    end.

(** [Number(s)] on a text: white space around a numeric literal; the
    empty text is 0, a text that is no literal is NaN. *)
Definition toNumber (s : string) : JsNumber.t :=
  let t := trim s in
  if isEmpty t then JsNumber.Int 0
  else
    match radix_prefix t with
    | Some (radix, r) =>
        match radix_digits radix None r with
        | Some n => JsNumber.of_Z n
        | None => JsNumber.NaN
        end
    | None =>
        let '(sg, r) := signed t in
        decimal_literal (sg <? 0) r
    end.

End JsText.

(** ** JSON values, as [JSON.parse] returns them *)
Module Json.

Inductive t : Type :=
| JNull
| JBool (b : bool)
| JNum (n : Z)
| JStr (s : string)
| JArr (l : list t)
| JObj (l : list (string * t)).

Fixpoint assoc {A} (k : string) (l : list (string * A)) : option A :=
  match l with
  | [] => None
  | (k', v) :: r => if String.eqb k k' then Some v else assoc k r
  end.

(** [x.k] on a value that is not null; [None] is [undefined]. An object
    returned by the parser has each key once. *)
Definition prop (k : string) (x : t) : option t :=
  match x with
  | JObj l => assoc k l
  | _ => None
  end.

(** [k in x] for an object. *)
Definition has (k : string) (x : t) : bool :=
  match prop k x with Some _ => true | None => false end.

Definition is_primitive (x : t) : bool :=
  match x with
  | JStr _ | JNum _ | JBool _ => true
  | _ => false
  end.

(** [typeof x === "string" || typeof x === "number"] *)
Definition is_string_or_number (x : t) : bool :=
  match x with
  | JStr _ | JNum _ => true
  | _ => false
  end.

(** JS truthiness. *)
Definition truthy (x : t) : bool :=
  match x with
  | JNull => false
  | JBool b => b
  | JNum n => negb (n =? 0)
  | JStr s => negb (JsText.isEmpty s)
  | JArr _ | JObj _ => true
  end.

(** [String(x)] *)
Fixpoint toString (x : t) : string :=
  match x with
  | JNull => "null"
  | JBool true => "true"
  | JBool false => "false"
  | JNum n => JsText.of_Z n
  | JStr s => s
  | JArr l =>
      (fix join (l : list t) : string :=
         match l with
         | [] => ""
         | [e] => match e with JNull => "" | _ => toString e end
         | e :: r =>
             (match e with JNull => "" | _ => toString e end)
               +:+ "," +:+ join r
         end) l
  | JObj _ => "[object Object]"
  end.

(** [String(x)] where [x] may be [undefined]. *)
Definition toString_opt (x : option t) : string :=
  match x with Some v => toString v | None => "undefined" end.

(** [Number(x)] where [x] may be [undefined]. *)
Definition toNumber (x : option t) : JsNumber.t :=
  match x with
  | None => JsNumber.NaN
  | Some JNull => JsNumber.Int 0
  | Some (JBool b) => JsNumber.Int (if b then 1 else 0)
  | Some (JNum n) => JsNumber.of_Z n
  | Some (JStr s) => JsText.toNumber s
  | Some (JArr l) => JsText.toNumber (toString (JArr l))
  | Some (JObj _) => JsNumber.NaN
  end.

(** [a === b] where [b] may be [undefined]: primitives by value, two
    distinct arrays or objects are never the same reference. *)
Definition strict_eq (a : t) (b : option t) : bool :=
  match a, b with
  | JNull, Some JNull => true
  | JBool x, Some (JBool y) => Bool.eqb x y
  | JNum x, Some (JNum y) => JsNumber.strict_eq (JsNumber.of_Z x) (JsNumber.of_Z y)
  | JStr x, Some (JStr y) => String.eqb x y
  | _, _ => false
  end.

Fixpoint index_entries (i : nat) (l : list t) : list (string * t) :=
  match l with
  | [] => []
  | e :: r => (JsText.of_Z (Z.of_nat i), e) :: index_entries (S i) r
  end.

Fixpoint char_entries (i : nat) (s : string) : list (string * t) :=
  match s with
  | EmptyString => []
  | String a r =>
      (JsText.of_Z (Z.of_nat i), JStr (String a "")) :: char_entries (S i) r
  end.

(** [Object.entries(x)]; [None] is the TypeError on null. *)
Definition entries (x : t) : option (list (string * t)) :=
  match x with
  | JNull => None
  | JBool _ | JNum _ => Some []
  | JStr s => Some (char_entries 0 s)
  | JArr l => Some (index_entries 0 l)
  | JObj l => Some l
  end.

End Json.

Abbreviation Json := Json.t.
Import Json.

(** ** Variable substitution *)
Module VariableResolver.

Definition NOT_DEFINED : string := "NOT_DEFINED".

(** Modelled from the spec: backend/src/variable-resolver.mts (the class
    [VariableResolver] with [replaceVars] and [replaceVarsWithContext]) is
    not among the sources. Section 4.1: every [{{name}}] token is replaced
    by the string form of the first defined value in the order override
    context, outputs, inputs, defaults; a name defined nowhere becomes the
    marker NOT_DEFINED; resolution is one pass and raises nothing. The
    scripts of the repository write the token with blanks inside the
    braces, so the name is what stands between the braces, trimmed. *)
Definition resolve (ctx outputs inputs defaults : gmap string Json)
    (name : string) : string :=
  match ctx !! name with
  | Some v => toString v
  | None =>
      match outputs !! name with
      | Some v => toString v
      | None =>
          match inputs !! name with
          | Some v => toString v
          | None =>
              match defaults !! name with
              | Some v => toString v
              | None => NOT_DEFINED
              end
          end
      end
  end.

Definition is_open (a b : ascii) : bool := Ascii.eqb a "{" && Ascii.eqb b "{".
Definition is_close (a b : ascii) : bool := Ascii.eqb a "}" && Ascii.eqb b "}".

(** A text that holds no opening pair of braces and does not end with an
    opening brace: a token that follows it begins where its own braces
    stand. *)
Fixpoint no_open (s : string) : bool :=
  match s with
  | EmptyString => true
  | String a r =>
      match r with
      | EmptyString => negb (Ascii.eqb a "{")
      | String b _ => negb (is_open a b) && no_open r
      end
  end.

Section Scan.
Variable value : string -> string.

(** Modelled from the spec: the single pass of the resolver over the
    text (section 4.1, no recursive re-substitution). [tok] is [None]
    outside a token and holds the characters read since the opening braces,
    last one first, inside one. A token that is never closed is left as it
    stands. *)
Fixpoint scan (tok : option string) (s : string) : string :=
  match s with
  | EmptyString =>
      match tok with
      | None => EmptyString
      | Some acc => "{{" +:+ String.rev acc
      end
  | String a r =>
      match tok with
      | None =>
          match r with
          | String b r' =>
              if is_open a b then scan (Some EmptyString) r'
              else String a (scan None r)
          | EmptyString => String a EmptyString
          end
      | Some acc =>
          match r with
          | String b r' =>
              if is_close a b
              then value (JsText.trim (String.rev acc)) +:+ scan None r'
              else scan (Some (String a acc)) r
          | EmptyString => "{{" +:+ String.rev (String a acc)
          end
      end
  end.
End Scan.

(** Modelled from the spec: [replaceVarsWithContext(str, ctx)], the entry
    point with an explicit override map (section 4.1). *)
Definition replaceVarsWithContext (outputs inputs defaults : gmap string Json)
    (str : string) (ctx : gmap string Json) : string :=
  scan (resolve ctx outputs inputs defaults) None str.

(** Modelled from the spec: [replaceVars(str)], substitution against the
    three scopes alone (section 4.1). *)
Definition replaceVars (outputs inputs defaults : gmap string Json)
    (str : string) : string :=
  replaceVarsWithContext outputs inputs defaults str ∅.

End VariableResolver.

(** ** Data of the engine *)

(** One entry of a [properties] payload. *)
Record IProperty := {
  p_id : option string;
  p_value : option Json;
}.

(** [properties] is one entry or an array of entries. *)
Inductive Properties :=
| PropObject (e : IProperty)
| PropArray (l : list IProperty).

Record ICommand := {
  c_name : option string;
  c_description : option string;
  c_execute_on : option string;
  c_properties : option Properties;
  c_script : option string;
  c_command : option string;
}.

Record IVEContext := {
  ve_host : string;
  ve_port : option Z;
  (** the result of [getKey()] where the context has that method *)
  ve_getKey : option string;
}.

(** What [new VMContext(data)] receives, and what the host registry
    returns. *)
Record VMContext := {
  vmid : option Json;
  vekey : option string;
  data : option (gmap string Json);
}.

Record IRestartInfo := {
  (** [None] is undefined *)
  r_vm_id : option JsNumber.t;
  lastSuccessfull : Z;
  r_inputs : list (string * Json);
  r_outputs : list (string * Json);
  r_defaults : list (string * Json);
}.

(** The [result] field of a message. *)
Inductive MsgResult :=
| ResNull
| ResText (s : string)
| ResStringified (p : Properties).

Record IVeExecuteMessage := {
  m_command : option string;
  m_commandtext : option string;
  m_stderr : string;
  m_result : MsgResult;
  m_exitCode : Z;
  m_execute_on : option string;
  m_index : option nat;
  m_partial : bool;
  (** the text handed to [new JsonError] *)
  m_error : option string;
  m_finished : bool;
  m_host : option string;
}.

(** A chunk handed to [onStdout] or [onStderr] while a process runs. *)
Inductive Chunk :=
| StdoutChunk (s : string)
| StderrChunk (s : string).

(** What [spawnAsync] resolves to, with the chunks it streamed. *)
Record ProcResult := {
  p_stdout : string;
  p_stderr : string;
  p_exitCode : Z;
  p_chunks : list Chunk;
}.

Inductive Effect :=
| ESpawn (cmd : string) (args : list string) (timeout : JsNumber.t) (input : string)
| ESleep (ms : Z)
| EMessage (m : IVeExecuteMessage)
| EFinished (ctx : VMContext).

(** The fields of a [VeExecution] object; [outputsRawResult] is the field
    its [OutputProcessor] keeps. *)
Record VeExecution := {
  commands : list ICommand;
  inputs : gmap string Json;
  outputs : gmap string Json;
  outputsRaw : option (list (string * Json));
  defaults : gmap string Json;
  veContext : option IVEContext;
  sshCommand : string;
  scriptTimeoutMs : JsNumber.t;
  outputsRawResult : option (list (string * Json));
}.

(** The module-level counter [index] and the trace of effects. *)
Record Ambient := {
  index : nat;
  trace : list Effect;
}.

(** A call returns or throws an [Error] with a message. *)
Inductive Outcome (A : Type) :=
| Return (a : A)
| Throw (message : string).
Arguments Return {A} a.
Arguments Throw {A} message.

Inductive Flow := Continue | Break.

Definition with_outputs (o : gmap string Json) (this : VeExecution) : VeExecution :=
  {| commands := commands this; inputs := inputs this; outputs := o;
     outputsRaw := outputsRaw this; defaults := defaults this;
     veContext := veContext this; sshCommand := sshCommand this;
     scriptTimeoutMs := scriptTimeoutMs this;
     outputsRawResult := outputsRawResult this |}.

Definition with_defaults (d : gmap string Json) (this : VeExecution) : VeExecution :=
  {| commands := commands this; inputs := inputs this; outputs := outputs this;
     outputsRaw := outputsRaw this; defaults := d;
     veContext := veContext this; sshCommand := sshCommand this;
     scriptTimeoutMs := scriptTimeoutMs this;
     outputsRawResult := outputsRawResult this |}.

Definition with_inputs (i : gmap string Json) (this : VeExecution) : VeExecution :=
  {| commands := commands this; inputs := i; outputs := outputs this;
     outputsRaw := outputsRaw this; defaults := defaults this;
     veContext := veContext this; sshCommand := sshCommand this;
     scriptTimeoutMs := scriptTimeoutMs this;
     outputsRawResult := outputsRawResult this |}.

Definition with_outputsRaw (r : option (list (string * Json))) (this : VeExecution)
    : VeExecution :=
  {| commands := commands this; inputs := inputs this; outputs := outputs this;
     outputsRaw := r; defaults := defaults this;
     veContext := veContext this; sshCommand := sshCommand this;
     scriptTimeoutMs := scriptTimeoutMs this;
     outputsRawResult := outputsRawResult this |}.

Definition with_outputsRawResult (r : option (list (string * Json)))
    (this : VeExecution) : VeExecution :=
  {| commands := commands this; inputs := inputs this; outputs := outputs this;
     outputsRaw := outputsRaw this; defaults := defaults this;
     veContext := veContext this; sshCommand := sshCommand this;
     scriptTimeoutMs := scriptTimeoutMs this;
     outputsRawResult := r |}.

(** [this.emit("message", m)] and the other effects. *)
Definition log (e : Effect) (amb : Ambient) : Ambient :=
  {| index := index amb; trace := trace amb ++ [e] |}.

Definition emit (m : IVeExecuteMessage) (amb : Ambient) : Ambient :=
  log (EMessage m) amb.

(** [index++] *)
Definition next_index (amb : Ambient) : Ambient :=
  {| index := S (index amb); trace := trace amb |}.

(** Text interpolation of a value that may be undefined. *)
Definition interp (s : option string) : string :=
  match s with Some x => x | None => "undefined" end.

(** [new Map()], filled from an array of pairs in order: a later pair of
    the same name wins. *)
Definition fill (l : list (string * Json)) (m : gmap string Json) : gmap string Json :=
  foldl (fun acc '(k, v) => <[k := v]> acc) m l.

(** ** The output protocol *)

(** Modelled from the spec: schemas/outputs.schema.json is not among the
    sources. Section 4.2(3): the parsed text is a single
    [{id, value[, default]}] record, an array of such records, or an array
    of [{name, value}] records (key name without id); values are strings,
    numbers or booleans. *)
Definition is_id_record (j : Json) : bool :=
  match prop "id" j, prop "value" j with
  | Some (JStr _), Some v =>
      is_primitive v &&
      match prop "default" j with Some d => is_primitive d | None => true end
  | _, _ => false
  end.

Definition is_name_record (j : Json) : bool :=
  match prop "name" j, prop "value" j with
  | Some (JStr _), Some v => is_primitive v && negb (has "id" j)
  | _, _ => false
  end.

Definition outputs_schema (j : Json) : bool :=
  is_id_record j ||
  match j with
  | JArr l => forallb is_id_record l || forallb is_name_record l
  | _ => false
  end.

(** [validator.serializeJsonWithSchema(parsed, "outputs", ...)]: returns its
    argument or throws a [JsonError] (message as in jsonvalidator.mts). *)
Definition serializeJsonWithSchema (parsed : Json) : Outcome Json :=
  if outputs_schema parsed then Return parsed
  else Throw "Json file 'outputs' has errors. Details available".

(** *** The collaborators of the engine

    The state of everything outside the process is a [World]; spawning a
    process and drawing the marker (clock and random source) advance it.
    [spawnAsync] (spawn-utils.mjs) always resolves: a process that timed
    out is a result with the exit code it was given. *)
Class Collaborators := {
  World : Type;
  spawnAsync : World -> string -> list string -> JsNumber.t -> string -> ProcResult * World;
  uniqueMarker : World -> string * World;
  (** [fs.readFileSync(path, "utf-8")]: the text, or the message of the error *)
  readFileSync : string -> string + string;
  (** [path.join(localPath, filePath)] and the base64 text of that file *)
  localFullPath : string -> string;
  readLocalBase64 : string -> string + string;
  (** [JSON.parse]: the value, or the message of the SyntaxError *)
  JSON_parse : string -> Json + string;
  (** [StorageContext.getInstance().getVMContextByHostname] *)
  getVMContextByHostname : string -> option VMContext;
  (** [require(id)] as this module finds it: it returns, or throws with
      the message given. The module is an ES module (it reads
      import.meta.url); Node defines no [require] in one, so that the call
      throws the ReferenceError require is not defined, while a runtime that
      wraps the module in a function with a [require] argument lets it
      return. *)
  require : string -> Outcome unit;
  (** the resolved path of json/shared/scripts/write-vmids-json.sh *)
  probeScriptPath : string;
}.

Section Engine.

Context `{Collaborators}.

(** *** OutputProcessor *)

Definition processLocalFileValue (ssh : string) (value : Json) : Outcome Json :=
  match value with
  | JStr s =>
      if JsText.startsWith "local:" s then
        if String.eqb ssh "ssh" then Return value
        else
          let filePath := JsText.drop 6 s in
          match readLocalBase64 filePath with
          | inl content => Return (JStr content)
          | inr err =>
              Throw ("Failed to read file " +:+ localFullPath filePath
                       +:+ ": " +:+ err)
          end
      else Return value
  | _ => Return value
  end.

(** The loop over a name/value array. The map is mutated entry by entry,
    so what was set before a throw stays set. Entries the schema excludes
    (no text under name, no value) are passed over. *)
Fixpoint name_value_loop (l : list Json) (raw : list (string * Json))
    (this : VeExecution) : Outcome (list (string * Json)) * VeExecution :=
  match l with
  | [] => (Return raw, this)
  | nv :: rest =>
      match prop "name" nv, prop "value" nv with
      | Some (JStr n), Some v =>
          match processLocalFileValue (sshCommand this) v with
          | Return processedValue =>
              name_value_loop rest (raw ++ [(n, processedValue)])
                (with_outputs (<[n := processedValue]> (outputs this)) this)
          | Throw e => (Throw e, this)
          end
      | _, _ => name_value_loop rest raw this
      end
  end.

(** One [IOutput] entry: value into outputs, default into defaults. *)
Definition output_entry (entry : Json) (this : VeExecution)
    : Outcome unit * VeExecution :=
  match prop "id" entry with
  | Some (JStr id) =>
      let after_value :=
        match prop "value" entry with
        | Some v =>
            match processLocalFileValue (sshCommand this) v with
            | Return processedValue =>
                (Return tt,
                 with_outputs (<[id := processedValue]> (outputs this)) this)
            | Throw e => (Throw e, this)
            end
        | None => (Return tt, this)
        end in
      match after_value with
      | (Return _, this1) =>
          match prop "default" entry with
          | Some d => (Return tt, with_defaults (<[id := d]> (defaults this1)) this1)
          | None => (Return tt, this1)
          end
      | thrown => thrown
      end
  | _ => (Return tt, this)
  end.

Fixpoint output_loop (l : list Json) (this : VeExecution)
    : Outcome unit * VeExecution :=
  match l with
  | [] => (Return tt, this)
  | entry :: rest =>
      match output_entry entry this with
      | (Return _, this1) => output_loop rest this1
      | thrown => thrown
      end
  end.

(** [cleaned]: the trimmed text after the marker, or the whole trimmed
    text when there is no marker in it. *)
Definition cleaned_stdout (stdout : string) (uniqueMarker : option string) : string :=
  let cleaned := JsText.trim stdout in
  match uniqueMarker with
  | Some marker =>
      if JsText.isEmpty marker then cleaned
      else
        match JsText.indexOf marker cleaned with
        | Some markerIndex =>
            JsText.trim (JsText.slice (markerIndex + String.length marker) cleaned)
        | None => cleaned
        end
  | None => cleaned
  end.

Definition parseAndUpdateOutputs (stdout : string) (tmplCommand : ICommand)
    (uniqueMarker : option string) (this : VeExecution)
    : Outcome unit * VeExecution :=
  if JsText.isEmpty (JsText.trim stdout) then (Return tt, this)
  else
    let cleaned := cleaned_stdout stdout uniqueMarker in
    if JsText.isEmpty cleaned then (Return tt, this)
    else
      match JSON_parse cleaned with
      | inr e => (Throw e, this)
      | inl parsed =>
          match serializeJsonWithSchema parsed with
          | Throw e => (Throw e, this)
          | Return outputsJson =>
              match outputsJson with
              | JArr l =>
                  let name_value :=
                    match l with
                    | first :: _ =>
                        match first with
                        | JObj _ => has "name" first && negb (has "id" first)
                        | _ => false
                        end
                    | [] => false
                    end in
                  if name_value then
                    match name_value_loop l [] this with
                    | (Return raw, this1) =>
                        (Return tt, with_outputsRawResult (Some raw) this1)
                    | (Throw e, this1) => (Throw e, this1)
                    end
                  else output_loop l this
              | JObj _ => output_entry outputsJson this
              | _ => (Return tt, this)
              end
          end
      end.

Definition getOutputsRawResult (this : VeExecution) : option (list (string * Json)) :=
  outputsRawResult this.

(** *** VeExecution: the constructor *)

(** [scriptTimeoutMs] from the environment variable
    LXC_MANAGER_SCRIPT_TIMEOUT (seconds), two minutes by default. *)
Definition timeout_from_env (envTimeout : option string) : JsNumber.t :=
  match envTimeout with
  | Some t =>
      if JsText.isEmpty t then 120000
      else
        let parsed := JsText.parseInt10 t in
        if negb (JsNumber.isNaN parsed) && JsNumber.above_zero parsed
        then JsNumber.mul parsed 1000
        else 120000
  | None => 120000
  end.

Definition new_VeExecution (cmds : list ICommand) (inps : list (string * Json))
    (ve : option IVEContext) (defs : gmap string Json) (ssh : string)
    (envTimeout : option string) : VeExecution :=
  {| commands := cmds;
     inputs := fill inps ∅;
     outputs := ∅;
     outputsRaw := None;
     defaults := defs;
     veContext := ve;
     sshCommand := ssh;
     scriptTimeoutMs := timeout_from_env envTimeout;
     outputsRawResult := None |}.

Definition replaceVars (this : VeExecution) (str : string) : string :=
  VariableResolver.replaceVars (outputs this) (inputs this) (defaults this) str.

Definition replaceVarsWithContext (this : VeExecution) (str : string)
    (ctx : gmap string Json) : string :=
  VariableResolver.replaceVarsWithContext
    (outputs this) (inputs this) (defaults this) str ctx.

(** *** runOnVeHost *)

Definition maxRetries : nat := 3.

Definition ssh_args (this : VeExecution) : Outcome (list string) :=
  if String.eqb (sshCommand this) "ssh" then
    match veContext this with
    | None => Throw "SSH parameters not set"
    | Some ve =>
        let host :=
          if JsText.includes "@" (ve_host ve) then ve_host ve
          else "root@" +:+ ve_host ve in
        let port :=
          match ve_port ve with
          | Some p => if p =? 0 then 22 else p
          | None => 22
          end in
        Return
          [ "-o"; "StrictHostKeyChecking=no";
            "-o"; "BatchMode=yes";
            "-o"; "PasswordAuthentication=no";
            "-o"; "PreferredAuthentications=publickey";
            "-o"; "LogLevel=ERROR";
            "-o"; "ServerAliveInterval=30";
            "-o"; "ServerAliveCountMax=3";
            "-T"; "-q"; "-p"; JsText.of_Z port; host ]
    end
  else Return [].

(** [tmplCommand.name || "streaming"] *)
Definition streaming_name (tmplCommand : ICommand) : string :=
  match c_name tmplCommand with
  | Some n => if JsText.isEmpty n then "streaming" else n
  | None => "streaming"
  end.

(** The message [onStdout] or [onStderr] emits for a chunk. *)
Definition partial_message (input : string) (tmplCommand : ICommand) (ch : Chunk)
    : IVeExecuteMessage :=
  {| m_command := Some (streaming_name tmplCommand);
     m_commandtext := Some input;
     m_stderr := match ch with StderrChunk s => s | StdoutChunk _ => "" end;
     m_result := match ch with StdoutChunk s => ResText s | StderrChunk _ => ResNull end;
     m_exitCode := -1;
     m_execute_on := c_execute_on tmplCommand;
     m_index := None;
     m_partial := true;
     m_error := None;
     m_finished := false;
     m_host := None |}.

(** One [await spawnAsync(...)], with the chunks streamed meanwhile. *)
Definition spawn_once (ssh : string) (sshArgs : list string) (actualTimeout : JsNumber.t)
    (inputWithMarker input : string) (tmplCommand : ICommand)
    (w : World) (amb : Ambient) : ProcResult * World * Ambient :=
  let '(proc, w1) := spawnAsync w ssh sshArgs actualTimeout inputWithMarker in
  let amb1 := log (ESpawn ssh sshArgs actualTimeout inputWithMarker) amb in
  (proc, w1,
   foldl (fun a ch => emit (partial_message input tmplCommand ch) a)
     amb1 (p_chunks proc)).

(** The retry loop [while (retryCount < maxRetries)]; [remaining] is
    [maxRetries - retryCount]. The result is the last [proc], [None] when
    the body never ran. *)
Fixpoint retry_loop (remaining : nat) (ssh : string) (sshArgs : list string)
    (actualTimeout : JsNumber.t) (inputWithMarker input : string) (tmplCommand : ICommand)
    (w : World) (amb : Ambient) : option ProcResult * World * Ambient :=
  match remaining with
  | O => (None, w, amb)
  | S remaining' =>
      let '(proc, w1, amb1) :=
        spawn_once ssh sshArgs actualTimeout inputWithMarker input tmplCommand w amb in
      if p_exitCode proc =? 255 then
        match remaining' with
        | S _ =>
            retry_loop remaining' ssh sshArgs actualTimeout inputWithMarker
              input tmplCommand w1 (log (ESleep 3000) amb1)
        | O => (Some proc, w1, amb1)
        end
      else (Some proc, w1, amb1)
  end.

Definition failed_text (tmplCommand : ICommand) (exitCode : Z) (stderr : string)
    : string :=
  "Command " +:+ JsText.dq +:+ interp (c_name tmplCommand) +:+ JsText.dq
    +:+ " failed with exit code " +:+ JsText.of_Z exitCode +:+ ": " +:+ stderr.

Definition set_result (r : MsgResult) (m : IVeExecuteMessage) : IVeExecuteMessage :=
  {| m_command := m_command m; m_commandtext := m_commandtext m;
     m_stderr := m_stderr m; m_result := r; m_exitCode := m_exitCode m;
     m_execute_on := m_execute_on m; m_index := m_index m;
     m_partial := m_partial m; m_error := m_error m;
     m_finished := m_finished m; m_host := m_host m |}.

Definition set_index (i : nat) (m : IVeExecuteMessage) : IVeExecuteMessage :=
  {| m_command := m_command m; m_commandtext := m_commandtext m;
     m_stderr := m_stderr m; m_result := m_result m; m_exitCode := m_exitCode m;
     m_execute_on := m_execute_on m; m_index := Some i;
     m_partial := m_partial m; m_error := m_error m;
     m_finished := m_finished m; m_host := m_host m |}.

Definition set_error (e : string) (code : Z) (m : IVeExecuteMessage)
    : IVeExecuteMessage :=
  {| m_command := m_command m; m_commandtext := m_commandtext m;
     m_stderr := m_stderr m; m_result := m_result m; m_exitCode := code;
     m_execute_on := m_execute_on m; m_index := m_index m;
     m_partial := m_partial m; m_error := Some e;
     m_finished := m_finished m; m_host := m_host m |}.

(** [if (outputsRawResult) this.outputsRaw = outputsRawResult] *)
Definition sync_outputsRaw (this : VeExecution) : VeExecution :=
  match getOutputsRawResult this with
  | Some outputsRawResult => with_outputsRaw (Some outputsRawResult) this
  | None => this
  end.

Definition runOnVeHost (input : string) (tmplCommand : ICommand)
    (timeoutMs : option JsNumber.t) (remoteCommand : option (list string))
    (this : VeExecution) (w : World) (amb : Ambient)
    : Outcome IVeExecuteMessage * VeExecution * World * Ambient :=
  let actualTimeout := default (scriptTimeoutMs this) timeoutMs in
  match ssh_args this with
  | Throw e => (Throw e, this, w, amb)
  | Return sshArgs0 =>
      let sshArgs := sshArgs0 ++ default [] remoteCommand in
      let '(UNIQUE_MARKER, w0) := uniqueMarker w in
      let inputWithMarker :=
        "echo " +:+ JsText.dq +:+ UNIQUE_MARKER +:+ JsText.dq
          +:+ JsText.nl +:+ input in
      match retry_loop maxRetries (sshCommand this) sshArgs actualTimeout
              inputWithMarker input tmplCommand w0 amb with
      | (None, w1, amb1) =>
          (Throw "Cannot read properties of undefined", this, w1, amb1)
      | (Some proc, w1, amb1) =>
          let stdout := p_stdout proc in
          let stderr := p_stderr proc in
          let exitCode := p_exitCode proc in
          let msg :=
            {| m_command := c_name tmplCommand;
               m_commandtext := Some input;
               m_stderr := stderr;
               m_result := ResText stdout;
               m_exitCode := exitCode;
               m_execute_on := c_execute_on tmplCommand;
               m_index := None;
               m_partial := false;
               m_error := None;
               m_finished := false;
               m_host := None |} in
          if JsText.isEmpty (JsText.trim stdout) then
            if exitCode =? 0 then
              let msg1 := set_index (index amb1) (set_result (ResText "OK") msg) in
              (Return msg1, this, w1, emit msg1 (next_index amb1))
            else
              let msg1 :=
                set_error (failed_text tmplCommand exitCode stderr) exitCode
                  (set_index (index amb1) (set_result (ResText "ERROR") msg)) in
              (Throw (failed_text tmplCommand exitCode stderr),
               this, w1, emit msg1 amb1)
          else
            match parseAndUpdateOutputs stdout tmplCommand (Some UNIQUE_MARKER) this with
            | (Throw e, this1) =>
                let msg1 := set_error e (-1) (set_index (index amb1) msg) in
                (Throw "An error occurred during command execution.",
                 this1, w1, emit msg1 amb1)
            | (Return _, this1) =>
                let this2 := sync_outputsRaw this1 in
                if exitCode =? 0 then
                  let msg1 := set_index (index amb1) msg in
                  (Return msg1, this2, w1, emit msg1 (next_index amb1))
                else
                  (Throw (failed_text tmplCommand exitCode stderr), this2, w1, amb1)
            end
      end
  end.

(** *** runOnLxc *)

Definition runOnLxc (vm_id : option Json) (command : string) (tmplCommand : ICommand)
    (timeoutMs : option JsNumber.t) (this : VeExecution) (w : World) (amb : Ambient)
    : Outcome IVeExecuteMessage * VeExecution * World * Ambient :=
  let lxcCmd :=
    if String.eqb (sshCommand this) "ssh"
    then Some ["lxc-attach"; "-n"; toString_opt vm_id]
    else None in
  runOnVeHost command tmplCommand timeoutMs lxcCmd this w amb.

(** *** executeOnHost *)

Definition with_name (n : string) (c : ICommand) : ICommand :=
  {| c_name := Some n; c_description := c_description c;
     c_execute_on := c_execute_on c; c_properties := c_properties c;
     c_script := c_script c; c_command := c_command c |}.

(** The text the probe array is read from: the output [used_vm_ids] when
    there is one, else the text result of the probe message. *)
Definition used_vm_ids_text (this : VeExecution) (probeMsg : IVeExecuteMessage)
    : option string :=
  let usedStr :=
    match outputs this !! "used_vm_ids" with
    | Some v => Some (toString v)
    | None => None
    end in
  let usedStr :=
    match usedStr with
    | Some s =>
        if JsText.isEmpty s
        then match m_result probeMsg with ResText r => Some r | _ => usedStr end
        else usedStr
    | None => match m_result probeMsg with ResText r => Some r | _ => None end
    end in
  match usedStr with
  | Some s => if JsText.isEmpty s then None else Some s
  | None => None
  end.

Definition hostname_is (hostname : string) (x : Json) : bool :=
  match prop "hostname" x with
  | Some (JStr h) => String.eqb h hostname
  | _ => false
  end.

Definition pveOk (vmctx : VMContext) (found : Json) : bool :=
  match data vmctx with
  | Some d =>
      match d !! "pve" with
      | Some pve => strict_eq pve (prop "pve" found)
      | None => false
      end
  | None => false
  end.

Definition vmidOk (vmctx : VMContext) (found : Json) : bool :=
  JsNumber.strict_eq (toNumber (vmid vmctx)) (toNumber (prop "vmid" found)).

(** What stands between the probe and the execution in the container:
    the registry entry when every check passes, else the message of the
    error thrown. *)
Definition verify_host (hostname : string) (usedStr : option string)
    : Outcome VMContext :=
  match usedStr with
  | None => Throw "No used_vm_ids result received from host probe"
  | Some s =>
      match JSON_parse s with
      | inr _ => Throw "Invalid used_vm_ids JSON"
      | inl (JArr arr) =>
          match List.find (hostname_is hostname) arr with
          | None => Throw ("Hostname " +:+ hostname +:+ " not found in used_vm_ids")
          | Some found =>
              match getVMContextByHostname hostname with
              | None => Throw ("VMContext for " +:+ hostname +:+ " not found")
              | Some vmctx =>
                  if negb (pveOk vmctx found) || negb (vmidOk vmctx found)
                  then Throw "PVE or VMID mismatch between host data and VMContext"
                  else Return vmctx
              end
          end
      | inl _ => Throw "used_vm_ids is not an array"
      end
  end.

(** The command for the container: variables replaced with the data of
    the registry entry, then once more with the outputs as context. *)
Definition host_payload (this : VeExecution) (command : string) (vmctx : VMContext)
    : string :=
  let execCmd := replaceVarsWithContext this command (default ∅ (data vmctx)) in
  replaceVarsWithContext this execCmd (outputs this).

(** The two [require] calls the method begins with: the message of the
    first that throws. *)
Definition required_modules : Outcome unit :=
  match require "node:path" with
  | Throw e => Throw e
  | Return _ => require "node:url"
  end.

(** The method after its [require] calls: the probe, the checks, the
    command in the container. *)
Definition discover_and_run (hostname command : string) (tmplCommand : ICommand)
    (this : VeExecution) (w : World) (amb : Ambient)
    : Outcome unit * VeExecution * World * Ambient :=
  match runOnVeHost "" (with_name "write-vmids" tmplCommand) (Some (JsNumber.Int 10000))
          (Some [probeScriptPath]) this w amb with
  | (Throw e, this1, w1, amb1) => (Throw e, this1, w1, amb1)
  | (Return probeMsg, this1, w1, amb1) =>
      match verify_host hostname (used_vm_ids_text this1 probeMsg) with
      | Throw e => (Throw e, this1, w1, amb1)
      | Return vmctx =>
          let execCmd := host_payload this1 command vmctx in
          match runOnLxc (vmid vmctx) execCmd tmplCommand None this1 w1 amb1 with
          | (Return _, this2, w2, amb2) => (Return tt, this2, w2, amb2)
          | (Throw e, this2, w2, amb2) => (Throw e, this2, w2, amb2)
          end
      end
  end.

Definition executeOnHost (hostname command : string) (tmplCommand : ICommand)
    (this : VeExecution) (w : World) (amb : Ambient)
    : Outcome unit * VeExecution * World * Ambient :=
  match required_modules with
  | Throw e => (Throw e, this, w, amb)
  | Return _ => discover_and_run hostname command tmplCommand this w amb
  end.

(** *** run *)

(** The restart information built after a step, for [lastSuccessfull]
    equal to [ls]. *)
Definition restart_info (ls : Z) (this : VeExecution) : IRestartInfo :=
  {| r_vm_id :=
       match outputs this !! "vm_id" with
       | Some vm_id => Some (JsText.parseInt10 (toString vm_id))
       | None => None
       end;
     lastSuccessfull := ls;
     r_inputs := map_to_list (inputs this);
     r_outputs :=
       match outputsRaw this with
       | Some raw => raw
       | None => map_to_list (outputs this)
       end;
     r_defaults := map_to_list (defaults this) |}.

(** The messages [run] itself emits. *)
Definition run_message (stderr : string) (result : MsgResult) (exitCode : Z)
    (command : option string) (cmd : ICommand) (host : option string)
    (msgIndex : nat) : IVeExecuteMessage :=
  {| m_command := command;
     m_commandtext := None;
     m_stderr := stderr;
     m_result := result;
     m_exitCode := exitCode;
     m_execute_on := c_execute_on cmd;
     m_index := Some msgIndex;
     m_partial := false;
     m_error := None;
     m_finished := false;
     m_host := host |}.

Definition completed_message : IVeExecuteMessage :=
  {| m_command := Some "Completed";
     m_commandtext := None;
     m_stderr := "";
     m_result := ResText "All commands completed successfully";
     m_exitCode := 0;
     m_execute_on := Some "ve";
     m_index := None;
     m_partial := false;
     m_error := None;
     m_finished := true;
     m_host := None |}.

(** [cmd.name && cmd.name.includes("(skipped)")] *)
Definition is_skipped (cmd : ICommand) : bool :=
  match c_name cmd with
  | Some n => JsText.includes "(skipped)" n
  | None => false
  end.

(** [x || dflt] on texts. *)
Definition or_text (x : option string) (dflt : string) : string :=
  match x with
  | Some s => if JsText.isEmpty s then dflt else s
  | None => dflt
  end.

(** One entry of a properties payload: [None] when the resolved text is
    NOT_DEFINED (the [continue] in the source), else the object after the
    entry was applied. *)
Definition apply_property (entry : IProperty) (this : VeExecution)
    : option VeExecution :=
  match p_id entry, p_value entry with
  | Some id, Some value =>
      if JsText.isEmpty id then Some this
      else
        match value with
        | JStr s =>
            let value := replaceVars this s in
            if String.eqb value VariableResolver.NOT_DEFINED then None
            else Some (with_outputs (<[id := JStr value]> (outputs this)) this)
        | JNum _ | JBool _ =>
            Some (with_outputs (<[id := value]> (outputs this)) this)
        | _ => Some this
        end
  | _, _ => Some this
  end.

(** The array branch: a NOT_DEFINED entry is passed over and the loop
    goes on with the next entry. *)
Fixpoint apply_properties (l : list IProperty) (this : VeExecution) : VeExecution :=
  match l with
  | [] => this
  | entry :: rest =>
      match apply_property entry this with
      | Some this1 => apply_properties rest this1
      | None => apply_properties rest this
      end
  end.

(** The vm_id an lxc step runs in: a text or a number among the inputs,
    else one among the outputs. *)
Definition lxc_vm_id (this : VeExecution) : option Json :=
  match inputs this !! "vm_id" with
  | Some (JStr s) => Some (JStr s)
  | Some (JNum n) => Some (JNum n)
  | _ =>
      match outputs this !! "vm_id" with
      | Some v => if is_string_or_number v then Some v else None
      | None => None
      end
  end.

Definition vm_id_missing_text : string :=
  "vm_id is required for LXC execution but was not found in inputs or outputs.".

(** The fallback after a step: with no output at all and a text result
    of a [ve] step, the result is read as an echoed JSON object. *)
Definition echo_fallback (lastMsg : option IVeExecuteMessage) (this : VeExecution)
    : VeExecution :=
  match lastMsg with
  | Some msg =>
      match m_result msg with
      | ResText result =>
          if decide (size (outputs this) = 0%nat) then
            let m :=
              JsText.strip_trailing_quote
                (JsText.strip_leading_quote (JsText.strip_echo result)) in
            match JSON_parse m with
            | inl obj =>
                match entries obj with
                | Some es =>
                    with_outputsRaw (Some es)
                      (with_outputs (fill es (outputs this)) this)
                | None => with_outputsRaw (Some []) this
                end
            | inr _ => this
            end
          else this
      | _ => this
      end
  | None => this
  end.

Abbreviation StepResult :=
  (Flow * option IRestartInfo * nat * VeExecution * World * Ambient)%type.

(** The [catch (e)] of the loop body: the failure message, the restart
    information for [i - 1], and [break outerloop]. *)
Definition on_catch (e : string) (cmd : ICommand) (i : nat) (msgIndex : nat)
    (this : VeExecution) (w : World) (amb : Ambient) : StepResult :=
  (Break, Some (restart_info (Z.of_nat i - 1) this), S msgIndex, this, w,
   emit (run_message e ResNull (-1) (c_name cmd) cmd None msgIndex) amb).

(** The end of the [try] block after a dispatched step: the fallback and
    the restart information for [i]. *)
Definition after_dispatch (lastMsg : option IVeExecuteMessage) (i : nat)
    (msgIndex : nat) (this : VeExecution) (w : World) (amb : Ambient)
    : StepResult :=
  let this1 := echo_fallback lastMsg this in
  (Continue, Some (restart_info (Z.of_nat i) this1), msgIndex, this1, w, amb).

(** A configuration failure: the message, then [break outerloop]; the
    restart information is left as it was. *)
Definition config_break (stderr : string) (host : option string) (cmd : ICommand)
    (rc : option IRestartInfo) (msgIndex : nat)
    (this : VeExecution) (w : World) (amb : Ambient) : StepResult :=
  (Break, rc, S msgIndex, this, w,
   emit (run_message stderr ResNull (-1) (c_name cmd) cmd host msgIndex) amb).

(** [switch (cmd.execute_on)] *)
Definition dispatch (cmd : ICommand) (rawStr : string) (i : nat)
    (rc : option IRestartInfo) (msgIndex : nat)
    (this : VeExecution) (w : World) (amb : Ambient) : StepResult :=
  let on := c_execute_on cmd in
  if decide (on = Some "lxc") then
    let execStrLxc := replaceVars this rawStr in
    match lxc_vm_id this with
    | Some vm_id =>
        if truthy vm_id then
          match runOnLxc (Some vm_id) execStrLxc cmd None this w amb with
          | (Return _, this1, w1, amb1) => after_dispatch None i msgIndex this1 w1 amb1
          | (Throw e, this1, w1, amb1) => on_catch e cmd i msgIndex this1 w1 amb1
          end
        else config_break vm_id_missing_text None cmd rc msgIndex this w amb
    | None => config_break vm_id_missing_text None cmd rc msgIndex this w amb
    end
  else if decide (on = Some "ve") then
    let execStrVe := replaceVars this rawStr in
    match runOnVeHost execStrVe cmd None None this w amb with
    | (Return lastMsg, this1, w1, amb1) =>
        after_dispatch (Some lastMsg) i msgIndex this1 w1 amb1
    | (Throw e, this1, w1, amb1) => on_catch e cmd i msgIndex this1 w1 amb1
    end
  else
    match on with
    | Some target =>
        if JsText.startsWith "host:" target then
          let hostname := JsText.split_colon_1 target in
          match executeOnHost hostname rawStr cmd this w amb with
          | (Return _, this1, w1, amb1) => after_dispatch None i msgIndex this1 w1 amb1
          | (Throw e, this1, w1, amb1) =>
              config_break e (Some hostname) cmd rc msgIndex this1 w1 amb1
          end
        else
          config_break (interp (c_name cmd) +:+ " is missing the execute_on property")
            None cmd rc msgIndex this w amb
    | None =>
        config_break (interp (c_name cmd) +:+ " is missing the execute_on property")
          None cmd rc msgIndex this w amb
    end.

(** The synthetic success message of a properties step. *)
Definition properties_message (cmd : ICommand) (p : Properties) (msgIndex : nat)
    : IVeExecuteMessage :=
  run_message "" (ResStringified p) 0 (Some (or_text (c_name cmd) "properties"))
    cmd None msgIndex.

Definition skipped_message (cmd : ICommand) (msgIndex : nat) : IVeExecuteMessage :=
  run_message (or_text (c_description cmd) "Skipped: all required parameters missing")
    ResNull 0 (c_name cmd) cmd None msgIndex.

(** The body of the loop for the command at index [i]. *)
Definition step (cmd : ICommand) (i : nat) (rc : option IRestartInfo)
    (msgIndex : nat) (this : VeExecution) (w : World) (amb : Ambient)
    : StepResult :=
  if is_skipped cmd then
    (Continue, rc, S msgIndex, this, w, emit (skipped_message cmd msgIndex) amb)
  else
    match c_properties cmd with
    | Some (PropArray l) =>
        (Continue, rc, S msgIndex, apply_properties l this, w,
         emit (properties_message cmd (PropArray l) msgIndex) amb)
    | Some (PropObject entry) =>
        match apply_property entry this with
        | Some this1 =>
            (Continue, rc, S msgIndex, this1, w,
             emit (properties_message cmd (PropObject entry) msgIndex) amb)
        | None => (Continue, rc, msgIndex, this, w, amb)
        end
    | None =>
        match c_script cmd with
        | Some path =>
            match readFileSync path with
            | inl rawStr => dispatch cmd rawStr i rc msgIndex this w amb
            | inr e => on_catch e cmd i msgIndex this w amb
            end
        | None =>
            match c_command cmd with
            | Some rawStr => dispatch cmd rawStr i rc msgIndex this w amb
            | None => (Continue, rc, msgIndex, this, w, amb)
            end
        end
    end.

(** [for (let i = startIdx; i < this.commands.length; ++i)] over the
    commands from [i] on. *)
Fixpoint run_loop (rest : list ICommand) (i : nat) (rc : option IRestartInfo)
    (msgIndex : nat) (this : VeExecution) (w : World) (amb : Ambient)
    : StepResult :=
  match rest with
  | [] => (Continue, rc, msgIndex, this, w, amb)
  | cmd :: rest' =>
      match step cmd i rc msgIndex this w amb with
      | (Continue, rc1, msgIndex1, this1, w1, amb1) =>
          run_loop rest' (S i) rc1 msgIndex1 this1 w1 amb1
      | broken => broken
      end
  end.

Definition buildVmContext (this : VeExecution) : Outcome VMContext :=
  match veContext this with
  | None => Throw "VE context not set"
  | Some ve =>
      Return
        {| vmid := outputs this !! "vm_id";
           vekey :=
             match ve_getKey ve with
             | Some k => Some k
             | None => Some ("ve_" +:+ ve_host ve)
             end;
           data := Some (outputs this) |}
  end.

(** Loading the previous state at the start of a resumed run. *)
Definition load_state (restartInfo : IRestartInfo) (this : VeExecution)
    : VeExecution :=
  {| commands := commands this;
     inputs := fill (r_inputs restartInfo) ∅;
     outputs := fill (r_outputs restartInfo) ∅;
     outputsRaw := outputsRaw this;
     defaults := fill (r_defaults restartInfo) ∅;
     veContext := veContext this;
     sshCommand := sshCommand this;
     scriptTimeoutMs := scriptTimeoutMs this;
     outputsRawResult := outputsRawResult this |}.

(** [startIdx]; indices below zero hold no command and are passed
    over. *)
Definition start_index (restartInfo : option IRestartInfo) : nat :=
  match restartInfo with
  | Some ri => Z.to_nat (lastSuccessfull ri + 1)
  | None => 0%nat
  end.

Definition allSuccessful (rc : option IRestartInfo) (this : VeExecution) : bool :=
  match rc with
  | Some r => lastSuccessfull r =? Z.of_nat (length (commands this)) - 1
  | None => false
  end.

Definition run (restartInfo : option IRestartInfo)
    (this : VeExecution) (w : World) (amb : Ambient)
    : Outcome (option IRestartInfo) * VeExecution * World * Ambient :=
  let this0 :=
    match restartInfo with
    | Some ri => load_state ri this
    | None => this
    end in
  let startIdx := start_index restartInfo in
  match run_loop (drop startIdx (commands this0)) startIdx None 0 this0 w amb with
  | (_, rcRestartInfo, _, this1, w1, amb1) =>
      if allSuccessful rcRestartInfo this1 then
        let amb2 := emit completed_message amb1 in
        match restartInfo with
        | None =>
            match buildVmContext this1 with
            | Return ctx => (Return rcRestartInfo, this1, w1, log (EFinished ctx) amb2)
            | Throw e => (Throw e, this1, w1, amb2)
            end
        | Some _ => (Return rcRestartInfo, this1, w1, amb2)
        end
      else (Return rcRestartInfo, this1, w1, amb1)
  end.

End Engine.

(** ** A scripted world for concrete runs *)
Module Scripted.

Definition silent : ProcResult :=
  {| p_stdout := ""; p_stderr := ""; p_exitCode := 0; p_chunks := [] |}.

Definition marker : string := "LXC_MANAGER_JSON_START_MARKER_1700000000000_k3x9".

Definition q (s : string) : string := JsText.dq +:+ s +:+ JsText.dq.

(** The JSON text of a record with two text fields, and of an array of
    one such record. *)
Definition object_text (k1 v1 k2 v2 : string) : string :=
  "{" +:+ q k1 +:+ ":" +:+ q v1 +:+ "," +:+ q k2 +:+ ":" +:+ q v2 +:+ "}".

Definition record_text (k1 v1 k2 v2 : string) : string :=
  "[" +:+ object_text k1 v1 k2 v2 +:+ "]".

Definition object_json (k1 v1 k2 v2 : string) : Json :=
  JObj [(k1, JStr v1); (k2, JStr v2)].

Definition record_json (k1 v1 k2 v2 : string) : Json :=
  JArr [object_json k1 v1 k2 v2].

(** What a process prints: the echoed marker, then the text. *)
Definition printed (text : string) : string := marker +:+ JsText.nl +:+ text.

Definition out (text : string) (code : Z) : ProcResult :=
  {| p_stdout := printed text; p_stderr := ""; p_exitCode := code; p_chunks := [] |}.

Definition status_text : string := record_text "id" "status" "value" "installed".
Definition a_text : string := record_text "id" "a" "value" "1".
Definition b_text : string := record_text "name" "b" "value" "2".
Definition c_text : string := record_text "id" "c" "value" "3".
Definition d_text : string := object_text "id" "d" "value" "4".

(** The array the probe reports, [[{hostname:db, pve:pve1, vmid:105}]],
    and the output record that carries it as a text, with its quotes
    escaped. *)
Definition used_text : string :=
  "[{" +:+ q "hostname" +:+ ":" +:+ q "db" +:+ "," +:+ q "pve" +:+ ":" +:+ q "pve1"
    +:+ "," +:+ q "vmid" +:+ ":105}]".

Definition eq_ (s : string) : string := "\" +:+ JsText.dq +:+ s +:+ "\" +:+ JsText.dq.

Definition used_text_escaped : string :=
  "[{" +:+ eq_ "hostname" +:+ ":" +:+ eq_ "db" +:+ "," +:+ eq_ "pve" +:+ ":" +:+ eq_ "pve1"
    +:+ "," +:+ eq_ "vmid" +:+ ":105}]".

Definition probe_text : string :=
  "[{" +:+ q "id" +:+ ":" +:+ q "used_vm_ids" +:+ "," +:+ q "value" +:+ ":"
    +:+ q used_text_escaped +:+ "}]".

Definition used_json : Json :=
  JArr [JObj [("hostname", JStr "db"); ("pve", JStr "pve1"); ("vmid", JNum 105)]].

(** The processes still to be spawned answer in order with the results
    listed; [JSON.parse] is given on the texts used below, every other
    text that occurs (the bare OK, a text that starts with the marker) is
    no JSON; the registry knows the host db; the module runs wrapped, with
    a [require] that returns. *)
#[export] Instance scripted : Collaborators := {|
  World := list ProcResult;
  spawnAsync w _ _ _ _ :=
    match w with
    | r :: w' => (r, w')
    | [] => (silent, [])
    end;
  uniqueMarker w := (marker, w);
  readFileSync path :=
    if String.eqb path "install.sh" then inl "apk add {{ packages }}"
    else inr ("ENOENT: no such file or directory, open '" +:+ path +:+ "'");
  localFullPath p := "/local/" +:+ p;
  readLocalBase64 _ := inr "ENOENT: no such file or directory";
  JSON_parse s :=
    if String.eqb s status_text then inl (record_json "id" "status" "value" "installed")
    else if String.eqb s a_text then inl (record_json "id" "a" "value" "1")
    else if String.eqb s b_text then inl (record_json "name" "b" "value" "2")
    else if String.eqb s c_text then inl (record_json "id" "c" "value" "3")
    else if String.eqb s d_text then inl (object_json "id" "d" "value" "4")
    else if String.eqb s probe_text
         then inl (record_json "id" "used_vm_ids" "value" used_text)
    else if String.eqb s used_text then inl used_json
    else inr "Unexpected token";
  getVMContextByHostname hostname :=
    if String.eqb hostname "db"
    then Some {| vmid := Some (JNum 105); vekey := Some "ve_pve1";
                 data := Some {[ "pve" := JStr "pve1" ]} |}
    else None;
  require _ := Return tt;
  probeScriptPath := "/app/json/shared/scripts/write-vmids-json.sh"
|}.

(** The same world with the module run as Node runs an ES module: there
    is no [require]. *)
Definition es_module : Collaborators := {|
  World := list ProcResult;
  spawnAsync := @spawnAsync scripted;
  uniqueMarker := @uniqueMarker scripted;
  readFileSync := @readFileSync scripted;
  localFullPath := @localFullPath scripted;
  readLocalBase64 := @readLocalBase64 scripted;
  JSON_parse := @JSON_parse scripted;
  getVMContextByHostname := @getVMContextByHostname scripted;
  require _ := Throw "require is not defined";
  probeScriptPath := @probeScriptPath scripted
|}.

Definition fresh (cmds : list ICommand) (inps : list (string * Json)) : VeExecution :=
  new_VeExecution cmds inps (Some {| ve_host := "pve1"; ve_port := None; ve_getKey := None |})
    ∅ "ssh" None.

Definition start : Ambient := {| index := 0; trace := [] |}.

Definition remote (name on text : string) : ICommand :=
  {| c_name := Some name; c_description := None; c_execute_on := Some on;
     c_properties := None; c_script := None; c_command := Some text |}.

Definition props (name : string) (p : Properties) : ICommand :=
  {| c_name := Some name; c_description := None; c_execute_on := Some "ve";
     c_properties := Some p; c_script := None; c_command := None |}.

Definition entry (id value : string) : IProperty :=
  {| p_id := Some id; p_value := Some (JStr value) |}.

(** A restart information with no inputs and no defaults. *)
Definition checkpoint (ls : Z) (outs : list (string * Json)) : IRestartInfo :=
  {| r_vm_id := None; lastSuccessfull := ls; r_inputs := [];
     r_outputs := outs; r_defaults := [] |}.

(** Two steps: a command on the host that prints the record a, then a
    properties step that copies a. *)
Definition copy_cmds : list ICommand :=
  [remote "s0" "ve" "true"; props "p1" (PropArray [entry "copy" "{{a}}"])].
Definition copy_world : list ProcResult := [out a_text 0].


(** Two steps: the name/value record b, then the record c printed by a
    command that exits with 1. *)
Definition shadow_cmds : list ICommand :=
  [remote "s0" "ve" "true"; remote "s1" "ve" "true"].
Definition shadow_world : list ProcResult := [out b_text 0; out c_text 1].

(** One step on the host that prints the record d and exits with 1. *)
Definition failing_cmd : ICommand := remote "s0" "ve" "true".
Definition failing_world : list ProcResult := [out d_text 1].

(** One step in the container of the host db. *)
Definition host_cmd : ICommand := remote "migrate" "host:db" "echo {{ pve }}".
Definition host_world : list ProcResult := [out probe_text 0; silent].

(** The same step where the command in the container prints the record c
    and exits with 1. *)
Definition host_failing_world : list ProcResult := [out probe_text 0; out c_text 1].

End Scripted.

(** ** Observations on a trace *)

Definition is_spawn (e : Effect) : bool :=
  match e with ESpawn _ _ _ _ => true | _ => false end.

Definition is_sleep (e : Effect) : bool :=
  match e with ESleep _ => true | _ => false end.

(** The attempts and the waits of a trace, in order. *)
Definition attempts (tr : list Effect) : list Effect :=
  List.filter (fun e => is_spawn e || is_sleep e) tr.

(** The messages of a trace, in order. *)
Definition messages (tr : list Effect) : list IVeExecuteMessage :=
  omap (fun e => match e with EMessage m => Some m | _ => None end) tr.
(** ** Relations between two states of a [VeExecution] object *)


(** What no method assigns: the commands, the connection and the inputs. *)
Definition frame (a b : VeExecution) : Prop :=
  commands b = commands a /\ veContext b = veContext a
  /\ sshCommand b = sshCommand a /\ scriptTimeoutMs b = scriptTimeoutMs a
  /\ inputs b = inputs a.

(** Only the outputs and the defaults differ. *)
Definition scopes_only (a b : VeExecution) : Prop :=
  frame a b /\ outputsRaw b = outputsRaw a
  /\ outputsRawResult b = outputsRawResult a.

(** The raw array of the object follows the one of its output processor:
    without the first there is none of the second. *)
Definition raw_synced (this : VeExecution) : Prop :=
  outputsRaw this = None -> outputsRawResult this = None.


(** Two results of a call agree but for the index the message got. *)
Definition same_outcome (a b : Outcome IVeExecuteMessage) : Prop :=
  match a, b with
  | Return m1, Return m2 => m_result m1 = m_result m2
  | Throw e1, Throw e2 => e1 = e2
  | _, _ => False
  end.

(** ** Components of the result of a step and of a run *)
Section Results.
Context `{Collaborators}.

Definition step_flow
    (r : Flow * option IRestartInfo * nat * VeExecution * World * Ambient) : Flow :=
  r.1.1.1.1.1.
Definition step_rc
    (r : Flow * option IRestartInfo * nat * VeExecution * World * Ambient)
    : option IRestartInfo := r.1.1.1.1.2.
Definition step_this
    (r : Flow * option IRestartInfo * nat * VeExecution * World * Ambient)
    : VeExecution := r.1.1.2.
Definition step_world
    (r : Flow * option IRestartInfo * nat * VeExecution * World * Ambient) : World :=
  r.1.2.
Definition step_amb
    (r : Flow * option IRestartInfo * nat * VeExecution * World * Ambient) : Ambient :=
  r.2.

Definition call_outcome {A} (r : Outcome A * VeExecution * World * Ambient) : Outcome A :=
  r.1.1.1.
Definition call_this {A} (r : Outcome A * VeExecution * World * Ambient) : VeExecution :=
  r.1.1.2.
Definition call_world {A} (r : Outcome A * VeExecution * World * Ambient) : World :=
  r.1.2.
Definition call_amb {A} (r : Outcome A * VeExecution * World * Ambient) : Ambient :=
  r.2.
End Results.

(** ** What a parsed output writes *)

(** The pairs an array of [{id, value, default}] records writes to the
    outputs and to the defaults, in the order of the array. *)
Definition id_values (l : list Json) : list (string * Json) :=
  omap (fun entry =>
          match prop "id" entry, prop "value" entry with
          | Some (JStr id), Some v => Some (id, v)
          | _, _ => None
          end) l.

Definition id_defaults (l : list Json) : list (string * Json) :=
  omap (fun entry =>
          match prop "id" entry, prop "default" entry with
          | Some (JStr id), Some d => Some (id, d)
          | _, _ => None
          end) l.

(** The pairs of an array of [{name, value}] records. *)
Definition name_values (l : list Json) : list (string * Json) :=
  omap (fun nv =>
          match prop "name" nv, prop "value" nv with
          | Some (JStr n), Some v => Some (n, v)
          | _, _ => None
          end) l.

(** An object after the pairs [vs] were set in its outputs and the pairs
    [ds] in its defaults. *)
Definition apply_updates (vs ds : list (string * Json)) (this : VeExecution)
    : VeExecution :=
  with_defaults (fill ds (defaults this)) (with_outputs (fill vs (outputs this)) this).

(** A step that needs no process: a skipped one, a properties step, or a
    command with neither a script nor a command text. *)
Definition is_local (cmd : ICommand) : bool :=
  is_skipped cmd ||
  match c_properties cmd with
  | Some _ => true
  | None =>
      match c_script cmd, c_command cmd with
      | None, None => true
      | _, _ => false
      end
  end.

(** A message other than the final one of a run. *)
Definition unfinished (e : Effect) : Prop :=
  match e with
  | EMessage m => m_finished m = false
  | EFinished _ => False
  | _ => True
  end.

(** What was added to a trace: effects none of which is the final
    message or the finished signal, at most [n] of them spawns. *)
Definition adds (n : nat) (amb amb' : Ambient) : Prop :=
  exists added,
    trace amb' = trace amb ++ added
    /\ Forall unfinished added
    /\ (length (List.filter is_spawn added) <= n)%nat.


(** ** The process monitor of the web front end (process-monitor.ts) *)
Module ProcessMonitor.

(** One element of an [IVeExecuteMessagesResponse]: the messages of one
    application and task. [g_other] holds the fields [mergeMessages] does
    not look at, which the spread copies. *)
Record MessageGroup := {
  g_application : string;
  g_task : string;
  g_messages : list IVeExecuteMessage;
  g_other : list (string * Json);
}.

Definition with_messages (l : list IVeExecuteMessage) (g : MessageGroup) : MessageGroup :=
  {| g_application := g_application g; g_task := g_task g;
     g_messages := l; g_other := g_other g |}.

(** [g.application === newGroup.application && g.task === newGroup.task] *)
Definition same_key (g newGroup : MessageGroup) : bool :=
  String.eqb (g_application g) (g_application newGroup)
  && String.eqb (g_task g) (g_task newGroup).

(** [existingIndices.has(msg.index)], the set being the indices the group
    had before the loop over the new messages; an index may be
    undefined. *)
Definition has_index (existing : list IVeExecuteMessage) (msg : IVeExecuteMessage) : bool :=
  bool_decide (m_index msg ∈ map m_index existing).

(** The messages of a group after the new ones were pushed. *)
Definition append_new (existing incoming : list IVeExecuteMessage)
    : list IVeExecuteMessage :=
  existing ++ List.filter (fun msg => negb (has_index existing msg)) incoming.

(** One turn of the loop: the first group of the same application and
    task receives the new messages, and without such a group a copy of the
    new group is pushed. *)
Fixpoint merge_group (messages : list MessageGroup) (newGroup : MessageGroup)
    : list MessageGroup :=
  match messages with
  | [] => [newGroup]
  | g :: rest =>
      if same_key g newGroup
      then with_messages (append_new (g_messages g) (g_messages newGroup)) g :: rest
      else g :: merge_group rest newGroup
  end.

(** [this.messages] after [mergeMessages(newMsgs)]; [None] is
    undefined. *)
Definition mergeMessages (messages : option (list MessageGroup))
    (newMsgs : list MessageGroup) : option (list MessageGroup) :=
  match messages with
  | None => Some newMsgs
  | Some ms => Some (foldl merge_group ms newMsgs)
  end.

(** The [next] handler of the poll: an answer that is missing or empty
    is passed over. *)
Definition on_next (messages : option (list MessageGroup))
    (msgs : option (list MessageGroup)) : option (list MessageGroup) :=
  match msgs with
  | Some (g :: l) => mergeMessages messages (g :: l)
  | _ => messages
  end.

(** No two messages of the group carry the same index. *)
Definition distinct_indices (g : MessageGroup) : Prop :=
  NoDup (map m_index (g_messages g)).

End ProcessMonitor.

(** ** The command line (lxc-manager.mts) *)
Module Cli.

Record ParsedArgs := {
  command : option string;
  localPath : option string;
  secretsFilePath : option string;
  parametersFile : option string;
  restartInfoFile : option string;
  application : option string;
  task : option string;
}.

(** [process.cwd()], [path.isAbsolute] and [path.join] with two
    arguments. *)
Record Paths := {
  cwd : string;
  isAbsolute : string -> bool;
  join : string -> string -> string;
}.

(** The parser returns, or the process exits with a code after a line on
    the error stream. *)
Inductive Parsed :=
| Args (args : ParsedArgs)
| Exit (code : Z) (line : string).

Definition no_args : ParsedArgs :=
  {| command := None; localPath := None; secretsFilePath := None;
     parametersFile := None; restartInfoFile := None; application := None;
     task := None |}.

Definition set_command (v : string) (a : ParsedArgs) : ParsedArgs :=
  {| command := Some v; localPath := localPath a;
     secretsFilePath := secretsFilePath a; parametersFile := parametersFile a;
     restartInfoFile := restartInfoFile a; application := application a;
     task := task a |}.

Definition set_localPath (v : string) (a : ParsedArgs) : ParsedArgs :=
  {| command := command a; localPath := Some v;
     secretsFilePath := secretsFilePath a; parametersFile := parametersFile a;
     restartInfoFile := restartInfoFile a; application := application a;
     task := task a |}.

Definition set_secretsFilePath (v : string) (a : ParsedArgs) : ParsedArgs :=
  {| command := command a; localPath := localPath a;
     secretsFilePath := Some v; parametersFile := parametersFile a;
     restartInfoFile := restartInfoFile a; application := application a;
     task := task a |}.

Definition set_parametersFile (v : string) (a : ParsedArgs) : ParsedArgs :=
  {| command := command a; localPath := localPath a;
     secretsFilePath := secretsFilePath a; parametersFile := Some v;
     restartInfoFile := restartInfoFile a; application := application a;
     task := task a |}.

Definition set_restartInfoFile (v : string) (a : ParsedArgs) : ParsedArgs :=
  {| command := command a; localPath := localPath a;
     secretsFilePath := secretsFilePath a; parametersFile := parametersFile a;
     restartInfoFile := Some v; application := application a;
     task := task a |}.

Definition set_application (v : string) (a : ParsedArgs) : ParsedArgs :=
  {| command := command a; localPath := localPath a;
     secretsFilePath := secretsFilePath a; parametersFile := parametersFile a;
     restartInfoFile := restartInfoFile a; application := Some v;
     task := task a |}.

Definition set_task (v : string) (a : ParsedArgs) : ParsedArgs :=
  {| command := command a; localPath := localPath a;
     secretsFilePath := secretsFilePath a; parametersFile := parametersFile a;
     restartInfoFile := restartInfoFile a; application := application a;
     task := Some v |}.

(** [!x] on a text that may be undefined. *)
Definition falsy (x : option string) : bool :=
  match x with
  | Some s => JsText.isEmpty s
  | None => true
  end.

(** [path.isAbsolute(value) ? value : path.join(process.cwd(), value)] *)
Definition resolved (p : Paths) (value : string) : string :=
  if isAbsolute p value then value else join p (cwd p) value.

(** [value && !value.startsWith("--")] for [argv[i + 1]], which is
    undefined past the end. *)
Definition is_value (rest : list string) : bool :=
  match rest with
  | value :: _ => negb (JsText.isEmpty value) && negb (JsText.startsWith "--" value)
  | [] => false
  end.

(** The loop of [parseArgs] over the arguments from position [i] on. *)
Fixpoint parse_loop (p : Paths) (argv : list string) (args : ParsedArgs) : Parsed :=
  match argv with
  | [] => Args args
  | arg :: rest =>
      if JsText.isEmpty arg then parse_loop p rest args
      else if String.eqb arg "--local" then
        match rest with
        | value :: rest' =>
            if is_value rest
            then parse_loop p rest' (set_localPath (resolved p value) args)
            else parse_loop p rest (set_localPath (join p (cwd p) "local") args)
        | [] => parse_loop p rest (set_localPath (join p (cwd p) "local") args)
        end
      else if String.eqb arg "--secretsFilePath" then
        match rest with
        | value :: rest' =>
            if is_value rest
            then parse_loop p rest' (set_secretsFilePath (resolved p value) args)
            else Exit 1 "--secretsFilePath requires a value"
        | [] => Exit 1 "--secretsFilePath requires a value"
        end
      else if String.eqb arg "--restartInfoFile" then
        match rest with
        | value :: rest' =>
            if is_value rest
            then parse_loop p rest' (set_restartInfoFile (resolved p value) args)
            else Exit 1 "--restartInfoFile requires a value"
        | [] => Exit 1 "--restartInfoFile requires a value"
        end
      else if falsy (command args) && negb (JsText.startsWith "--" arg) then
        parse_loop p rest (set_command arg args)
      else if bool_decide (command args = Some "exec") then
        if falsy (application args) then parse_loop p rest (set_application arg args)
        else if falsy (task args) then parse_loop p rest (set_task arg args)
        else if falsy (parametersFile args) && negb (JsText.startsWith "--" arg)
        then parse_loop p rest (set_parametersFile (resolved p arg) args)
        else parse_loop p rest args
      else parse_loop p rest args
  end.

(** [parseArgs()], for [process.argv.slice(2)]. *)
Definition parseArgs (p : Paths) (argv : list string) : Parsed :=
  parse_loop p argv no_args.

Definition VALID_TASK_TYPES : list string :=
  ["installation"; "backup"; "restore"; "uninstall"; "update"; "upgrade"; "webui"].

Definition isValidTaskType (task : string) : bool :=
  bool_decide (task ∈ VALID_TASK_TYPES).

(** What [main] goes on to do. *)
Inductive Action :=
| StartWebApp (localPath : string) (secretsFilePath : option string)
| RunExec (application task parametersFile : string)
    (localPath secretsFilePath restartInfoFile : option string)
| ProcessExit (code : Z) (lines : list string).

Definition usage : string :=
  "Usage: lxc-manager exec <application> <task> <parameters file> [--local <path>] [--secretsFilePath <path>] [--restartInfoFile <path>]".

(** [VALID_TASK_TYPES.join(", ")] *)
Fixpoint join_comma (l : list string) : string :=
  match l with
  | [] => ""
  | [x] => x
  | x :: r => x +:+ ", " +:+ join_comma r
  end.

Definition main (p : Paths) (argv : list string) : Action :=
  match parseArgs p argv with
  | Exit code line => ProcessExit code [line]
  | Args args =>
      if falsy (command args) then
        StartWebApp
          (if falsy (localPath args) then join p (cwd p) "examples"
           else default "" (localPath args))
          (secretsFilePath args)
      else if bool_decide (command args = Some "exec") then
        if falsy (application args) || falsy (task args) || falsy (parametersFile args)
        then ProcessExit 1 [usage]
        else if negb (isValidTaskType (default "" (task args)))
        then ProcessExit 1
               ["Invalid task type: " +:+ default "" (task args)
                  +:+ ". Valid values are: " +:+ join_comma VALID_TASK_TYPES]
        else RunExec (default "" (application args)) (default "" (task args))
               (default "" (parametersFile args))
               (localPath args) (secretsFilePath args) (restartInfoFile args)
      else ProcessExit 1
             ["Unknown command: " +:+ default "" (command args);
              "Available commands: exec"]
  end.





End Cli.

(** ** More concrete inputs *)
Module Samples.

Import Scripted.

(** An object for local execution: no VE context, a shell that is not
    ssh. *)
Definition local_object (cmds : list ICommand) : VeExecution :=
  new_VeExecution cmds [] None ∅ "sh" None.

(** An object for the remote shell that was given no VE context. *)
Definition unconnected (cmds : list ICommand) : VeExecution :=
  new_VeExecution cmds [] None ∅ "ssh" None.

Definition skipped (name : string) : ICommand :=
  {| c_name := Some name; c_description := None; c_execute_on := Some "ve";
     c_properties := None; c_script := None; c_command := Some "true" |}.

(** Three steps none of which needs a process. *)
Definition local_cmds : list ICommand :=
  [props "p0" (PropArray [entry "x" "1"]); skipped "s1 (skipped)";
   props "p2" (PropObject (entry "y" "2"))].

(** A process that prints a text which is no JSON and exits with 0. *)
Definition garbled : ProcResult := out "oops" 0.
Definition garbled_world : list ProcResult := [garbled].

(** A process that prints the name/value record b. *)
Definition b_world : list ProcResult := [out b_text 0].

(** One process that prints nothing, and no process at all. *)
Definition idle_world : list ProcResult := [silent].
Definition no_world : list ProcResult := [].

(** A record whose value names a local file, between two plain ones. *)
Definition key_record : Json := object_json "id" "key" "value" "local:id_rsa".
Definition records_with_key : list Json :=
  [object_json "id" "a" "value" "1"; key_record; object_json "id" "c" "value" "3"].

(** An output with a login banner before the marker. *)
Definition motd : string := "Linux pve1 6.8.12-4-pve" +:+ JsText.nl.
Definition after_marker : string := JsText.nl +:+ a_text.
Definition banner_stdout : string := motd +:+ marker +:+ after_marker.

Definition message (i : nat) : IVeExecuteMessage :=
  run_message "" ResNull 0 (Some "step") (remote "step" "ve" "true") None i.

Definition group (app task : string) (indices : list nat) : ProcessMonitor.MessageGroup :=
  {| ProcessMonitor.g_application := app; ProcessMonitor.g_task := task;
     ProcessMonitor.g_messages := map message indices;
     ProcessMonitor.g_other := [] |}.




End Samples.

(** ** Properties *)

Section Properties.

Context `{Collaborators}.

(** *** What a call adds to the trace *)

Lemma trace_chunks (f : Chunk -> IVeExecuteMessage) (l : list Chunk) (amb : Ambient) :
  trace (foldl (fun a ch => emit (f ch) a) amb l)
    = trace amb ++ map (fun ch => EMessage (f ch)) l
  /\ index (foldl (fun a ch => emit (f ch) a) amb l) = index amb.
Proof.
  revert amb. induction l as [|ch l IH]; intros amb; simpl.
  - by rewrite app_nil_r.
  - destruct (IH (emit (f ch) amb)) as [-> ->]. simpl.
    by rewrite <- app_assoc.
Qed.

Lemma attempts_messages (l : list IVeExecuteMessage) :
  attempts (map EMessage l) = [].
Proof. by induction l. Qed.

Lemma attempts_app (a b : list Effect) : attempts (a ++ b) = attempts a ++ attempts b.
Proof. apply List.filter_app. Qed.

Lemma spawn_once_spec ssh args t inp input cmd (w : World) amb :
  exists msgs,
    spawn_once ssh args t inp input cmd w amb
      = (fst (spawnAsync w ssh args t inp), snd (spawnAsync w ssh args t inp),
         {| index := index amb;
            trace := trace amb ++ ESpawn ssh args t inp :: map EMessage msgs |}).
Proof.
  unfold spawn_once. destruct (spawnAsync w ssh args t inp) as [proc w1]. simpl.
  exists (map (partial_message input cmd) (p_chunks proc)).
  match goal with |- (_, _, ?a) = _ => destruct a as [i tr] eqn:E end.
  pose proof (trace_chunks (partial_message input cmd) (p_chunks proc)
                (log (ESpawn ssh args t inp) amb)) as [Ht Hi].
  rewrite E in Ht, Hi. simpl in Ht, Hi. subst.
  by rewrite <- app_assoc, map_map.
Qed.

Lemma attempts_spawn_messages ssh args t inp (l : list IVeExecuteMessage) :
  attempts (ESpawn ssh args t inp :: map EMessage l) = [ESpawn ssh args t inp].
Proof.
  change (ESpawn ssh args t inp :: map EMessage l)
    with ([ESpawn ssh args t inp] ++ map EMessage l).
  by rewrite attempts_app, attempts_messages.
Qed.

(** The retry loop: one attempt, or two with a wait of 3000 ms between
    them, or three with a wait before the second and the third; an attempt
    is followed by another only when it exited with 255. *)
Lemma retry_loop_spec ssh args t inp input cmd (w : World) amb :
  let attempt := ESpawn ssh args t inp in
  let wait := ESleep 3000 in
  let first := fst (spawnAsync w ssh args t inp) in
  exists proc w1 amb1 added,
    retry_loop maxRetries ssh args t inp input cmd w amb = (Some proc, w1, amb1)
    /\ trace amb1 = trace amb ++ added
    /\ index amb1 = index amb
    /\ (attempts added = [attempt] /\ proc = first
        \/ attempts added = [attempt; wait; attempt] /\ p_exitCode first = 255
        \/ attempts added = [attempt; wait; attempt; wait; attempt]
           /\ p_exitCode first = 255)
    /\ (p_exitCode first <> 255 -> attempts added = [attempt] /\ proc = first)
    /\ (p_exitCode proc = 255 ->
        attempts added = [attempt; wait; attempt; wait; attempt]).
Proof.
  intros attempt wait first. unfold maxRetries. simpl.
  destruct (spawn_once_spec ssh args t inp input cmd w amb) as [m1 ->].
  fold first. set (w1 := snd (spawnAsync w ssh args t inp)).
  destruct (Z.eqb_spec (p_exitCode first) 255) as [E1|E1].
  2:{ eexists first, w1, _, _. split; [reflexivity|]. simpl.
      split; [reflexivity|]. split; [reflexivity|].
      rewrite attempts_spawn_messages.
      repeat split; auto; congruence. }
  match goal with |- context [spawn_once ssh args t inp input cmd w1 ?a] =>
    destruct (spawn_once_spec ssh args t inp input cmd w1 a) as [m2 ->] end.
  set (second := fst (spawnAsync w1 ssh args t inp)).
  set (w2 := snd (spawnAsync w1 ssh args t inp)).
  destruct (Z.eqb_spec (p_exitCode second) 255) as [E2|E2].
  2:{ eexists second, w2, _, _. split; [reflexivity|]. simpl.
      split; [by rewrite <- !app_assoc|]. split; [reflexivity|].
      rewrite !attempts_app, !attempts_spawn_messages. simpl.
      repeat split; auto; congruence. }
  match goal with |- context [spawn_once ssh args t inp input cmd w2 ?a] =>
    destruct (spawn_once_spec ssh args t inp input cmd w2 a) as [m3 ->] end.
  set (third := fst (spawnAsync w2 ssh args t inp)).
  eexists third, (snd (spawnAsync w2 ssh args t inp)), _, _.
  split; [by destruct (p_exitCode third =? 255)|]. simpl.
  split; [by rewrite <- !app_assoc|]. split; [reflexivity|].
  rewrite !attempts_app, !attempts_spawn_messages. simpl.
  repeat split; auto; congruence.
Qed.

Lemma attempts_snoc_message (l : list Effect) m :
  attempts (l ++ [EMessage m]) = attempts l.
Proof. by rewrite attempts_app, app_nil_r. Qed.

(** A call of [runOnVeHost] that gets as far as spawning: what it adds to
    the trace holds the attempts of one retry loop on the marked input,
    and nothing else that is an attempt or a wait. *)
Lemma runOnVeHost_attempts input cmd t rcmd this (w : World) amb sshArgs marker w0 :
  ssh_args this = Return sshArgs ->
  uniqueMarker w = (marker, w0) ->
  let attempt :=
    ESpawn (sshCommand this) (sshArgs ++ default [] rcmd)
      (default (scriptTimeoutMs this) t)
      ("echo " +:+ JsText.dq +:+ marker +:+ JsText.dq +:+ JsText.nl +:+ input) in
  let wait := ESleep 3000 in
  exists added,
    trace (call_amb (runOnVeHost input cmd t rcmd this w amb)) = trace amb ++ added
    /\ (attempts added = [attempt]
        \/ attempts added = [attempt; wait; attempt]
        \/ attempts added = [attempt; wait; attempt; wait; attempt]).
Proof.
  intros Hssh Hmark attempt wait. unfold runOnVeHost. rewrite Hssh, Hmark.
  match goal with |- context [retry_loop ?n ?a ?b ?c ?d ?e ?f w0 amb] =>
    destruct (retry_loop_spec a b c d e f w0 amb)
      as (proc & w1 & amb1 & added & -> & Htr & _ & Hcases & _) end.
  fold attempt wait in Hcases.
  assert (attempts added = [attempt]
          \/ attempts added = [attempt; wait; attempt]
          \/ attempts added = [attempt; wait; attempt; wait; attempt]) as Hc.
  { destruct Hcases as [[? _]|[[? _]|[? _]]]; auto. }
  clear Hcases. unfold call_amb.
  repeat case_match; simplify_eq; simpl; rewrite ?Htr;
    first [ exists added; split; [reflexivity|exact Hc]
          | eexists (added ++ [_]); split;
            [by rewrite app_assoc|by rewrite attempts_snoc_message] ].
Qed.

(** C3. The retry loop of [runOnVeHost], whatever the processes answer.
    The first attempt is always made; the second is made exactly when
    the first exited with 255, after a wait of 3000 ms; the third exactly
    when the second exited with 255 as well, after another wait of 3000
    ms; there is never a fourth, whatever the third exits with. Every
    attempt spawns the same command with the same arguments, timeout and
    input. The result of the loop is the result of the last attempt made,
    and the world is the one that attempt left: an attempt that exits
    with another code than 255, be it 0 or a failure, ends the loop. A
    call of [runOnVeHost] that has its ssh arguments runs this loop once
    on the marked input and spawns and waits no more after it; it throws
    when the last attempt exited with another code than 0, and the message
    it returns otherwise has exit code 0. *)
Theorem retry_on_255_at_most_three :
  (forall ssh args t inp input cmd (w : World) amb,
    let attempt := ESpawn ssh args t inp in
    let wait := ESleep 3000 in
    let first := spawnAsync w ssh args t inp in
    let second := spawnAsync first.2 ssh args t inp in
    let third := spawnAsync second.2 ssh args t inp in
    let r := retry_loop maxRetries ssh args t inp input cmd w amb in
    exists added,
      trace r.2 = trace amb ++ added
      /\ index r.2 = index amb
      /\ (if p_exitCode first.1 =? 255 then
            if p_exitCode second.1 =? 255 then
              r.1 = (Some third.1, third.2)
              /\ attempts added = [attempt; wait; attempt; wait; attempt]
            else
              r.1 = (Some second.1, second.2)
              /\ attempts added = [attempt; wait; attempt]
          else r.1 = (Some first.1, first.2) /\ attempts added = [attempt]))
  /\ (forall input cmd t rcmd this (w : World) amb,
      let r := runOnVeHost input cmd t rcmd this w amb in
      match ssh_args this with
      | Throw e => r = (Throw e, this, w, amb)
      | Return sshArgs =>
          let marked :=
            "echo " +:+ JsText.dq +:+ (uniqueMarker w).1 +:+ JsText.dq
              +:+ JsText.nl +:+ input in
          let looped :=
            retry_loop maxRetries (sshCommand this) (sshArgs ++ default [] rcmd)
              (default (scriptTimeoutMs this) t) marked input cmd
              (uniqueMarker w).2 amb in
          exists proc after,
            looped.1 = (Some proc, call_world r)
            /\ trace (call_amb r) = trace looped.2 ++ after
            /\ attempts after = []
            /\ (p_exitCode proc <> 0 -> exists e, call_outcome r = Throw e)
            /\ (forall msg, call_outcome r = Return msg ->
                  p_exitCode proc = 0 /\ m_exitCode msg = 0)
      end).
Proof.
  split.
  - intros ssh args t inp input cmd w amb attempt wait first second third r.
    subst r. unfold maxRetries. simpl.
    destruct (spawn_once_spec ssh args t inp input cmd w amb) as [m1 ->].
    fold first.
    destruct (p_exitCode first.1 =? 255).
    2:{ eexists. simpl. split; [reflexivity|]. split; [reflexivity|].
        split; [reflexivity|]. apply attempts_spawn_messages. }
    match goal with |- context [spawn_once ssh args t inp input cmd first.2 ?a] =>
      destruct (spawn_once_spec ssh args t inp input cmd first.2 a) as [m2 ->] end.
    fold second.
    destruct (p_exitCode second.1 =? 255).
    2:{ eexists. simpl. split; [by rewrite <- !app_assoc|]. split; [reflexivity|].
        split; [reflexivity|].
        by rewrite !attempts_app, !attempts_spawn_messages. }
    match goal with |- context [spawn_once ssh args t inp input cmd second.2 ?a] =>
      destruct (spawn_once_spec ssh args t inp input cmd second.2 a) as [m3 ->] end.
    fold third.
    eexists. split; [|split; [|split]].
    + destruct (p_exitCode third.1 =? 255); simpl; by rewrite <- !app_assoc.
    + by destruct (p_exitCode third.1 =? 255).
    + by destruct (p_exitCode third.1 =? 255).
    + by rewrite !attempts_app, !attempts_spawn_messages.
  - intros input cmd t rcmd this w amb r. subst r.
    unfold runOnVeHost. destruct (ssh_args this) as [sshArgs|e]; [|done].
    destruct (uniqueMarker w) as [marker w0]. cbn [fst snd].
    match goal with |- context [retry_loop ?n ?a ?b ?c ?d ?e ?f w0 amb] =>
      destruct (retry_loop_spec a b c d e f w0 amb)
        as (proc & w1 & amb1 & added & -> & _) end.
    exists proc. unfold call_world, call_amb, call_outcome.
    destruct (JsText.isEmpty (JsText.trim (p_stdout proc))).
    + destruct (Z.eqb_spec (p_exitCode proc) 0) as [E|E]; eexists [_]; simpl;
        (split; [reflexivity|]); (split; [reflexivity|]); (split; [reflexivity|]).
      * split; [done|]. by intros msg [= <-].
      * split; [by eexists|]. by intros msg.
    + destruct (parseAndUpdateOutputs _ _ _ this) as [[[]|e] this1].
      * destruct (Z.eqb_spec (p_exitCode proc) 0) as [E|E].
        -- eexists [_]. simpl. split; [reflexivity|]. split; [reflexivity|].
           split; [reflexivity|]. split; [done|]. by intros msg [= <-].
        -- exists []. simpl. split; [reflexivity|]. split; [by rewrite app_nil_r|].
           split; [reflexivity|]. split; [by eexists|]. by intros msg.
      * eexists [_]. simpl. split; [reflexivity|]. split; [reflexivity|].
        split; [reflexivity|]. split; [by eexists|]. by intros msg.
Qed.


(** *** What the methods leave alone *)

Lemma frame_refl a : frame a a.
Proof. by unfold frame. Qed.

Lemma frame_trans a b c : frame a b -> frame b c -> frame a c.
Proof. unfold frame. intuition congruence. Qed.

Lemma scopes_only_refl a : scopes_only a a.
Proof. by unfold scopes_only, frame. Qed.

Lemma scopes_only_trans a b c : scopes_only a b -> scopes_only b c -> scopes_only a c.
Proof. unfold scopes_only, frame. intuition congruence. Qed.

Lemma scopes_only_outputs o a : scopes_only a (with_outputs o a).
Proof. by unfold scopes_only, frame. Qed.

Lemma scopes_only_defaults d a : scopes_only a (with_defaults d a).
Proof. by unfold scopes_only, frame. Qed.

Lemma name_value_loop_scopes l : forall raw this o this1,
  name_value_loop l raw this = (o, this1) -> scopes_only this this1.
Proof.
  induction l as [|nv l IH]; intros raw this o this1 E; simpl in E.
  - simplify_eq. apply scopes_only_refl.
  - repeat case_match; simplify_eq;
      try (eapply scopes_only_trans; [|eapply IH; eassumption]);
      auto using scopes_only_refl, scopes_only_outputs.
Qed.

Lemma output_entry_scopes entry this o this1 :
  output_entry entry this = (o, this1) -> scopes_only this this1.
Proof.
  unfold output_entry. intros E.
  repeat case_match; simplify_eq;
    eauto using scopes_only_refl, scopes_only_outputs, scopes_only_defaults,
      scopes_only_trans.
Qed.

Lemma output_loop_scopes l : forall this o this1,
  output_loop l this = (o, this1) -> scopes_only this this1.
Proof.
  induction l as [|e l IH]; intros this o this1 E; simpl in E.
  - simplify_eq. apply scopes_only_refl.
  - destruct (output_entry e this) as [[u|m] this'] eqn:Ee.
    + eapply scopes_only_trans; [eapply output_entry_scopes|eapply IH]; eauto.
    + simplify_eq. eapply output_entry_scopes; eauto.
Qed.

(** [parseAndUpdateOutputs] leaves the object's raw array alone; it
    assigns the processor's own only when it returns. *)
Lemma parseAndUpdateOutputs_frame stdout cmd marker this o this1 :
  parseAndUpdateOutputs stdout cmd marker this = (o, this1) ->
  frame this this1 /\ outputsRaw this1 = outputsRaw this
  /\ (outputsRawResult this1 = outputsRawResult this
      \/ o = Return tt /\ exists raw, outputsRawResult this1 = Some raw).
Proof.
  unfold parseAndUpdateOutputs. intros E.
  repeat case_match; simplify_eq;
    try (split; [apply frame_refl|by auto]);
    try match goal with
      | Hl : name_value_loop _ _ _ = _ |- _ =>
          apply name_value_loop_scopes in Hl; destruct Hl as (?&?&?)
      | Hl : output_loop _ _ = _ |- _ =>
          apply output_loop_scopes in Hl; destruct Hl as (?&?&?)
      | Hl : output_entry _ _ = _ |- _ =>
          apply output_entry_scopes in Hl; destruct Hl as (?&?&?)
      end; simpl; eauto 6.
  all: try (split; [done|split; [done|]]).
  all: try (destruct o as [[]|]; eauto).
Qed.

Lemma runOnVeHost_frame input cmd t rcmd this (w : World) amb o this' w' amb' :
  runOnVeHost input cmd t rcmd this w amb = (o, this', w', amb') ->
  frame this this' /\ (raw_synced this -> raw_synced this').
Proof.
  unfold runOnVeHost, sync_outputsRaw, getOutputsRawResult, raw_synced. intros E.
  repeat case_match; simplify_eq; try (split; [apply frame_refl|done]);
    match goal with
    | Hp : parseAndUpdateOutputs _ _ _ _ = _ |- _ =>
        apply parseAndUpdateOutputs_frame in Hp;
        destruct Hp as (Hf & Hraw & [Hres|[? [raw Hres]]])
    end; simpl; (split; [done|]); intros Hs Hn; simplify_eq/=;
    try congruence.
  all: rewrite Hres; apply Hs; congruence.
Qed.

Lemma runOnLxc_frame vm_id command cmd t this (w : World) amb o this' w' amb' :
  runOnLxc vm_id command cmd t this w amb = (o, this', w', amb') ->
  frame this this' /\ (raw_synced this -> raw_synced this').
Proof. apply runOnVeHost_frame. Qed.

Lemma executeOnHost_frame hostname command cmd this (w : World) amb o this' w' amb' :
  executeOnHost hostname command cmd this w amb = (o, this', w', amb') ->
  frame this this' /\ (raw_synced this -> raw_synced this').
Proof.
  unfold executeOnHost. intros E.
  destruct required_modules as [[]|e0];
    [unfold discover_and_run in E|simplify_eq; split; [apply frame_refl|done]].
  destruct (runOnVeHost _ _ _ _ this w amb) as [[[o1 this1] w1] amb1] eqn:E1.
  apply runOnVeHost_frame in E1 as [F1 S1].
  destruct o1 as [probeMsg|e]; [|by simplify_eq].
  destruct (verify_host _ _); [|by simplify_eq].
  destruct (runOnLxc _ _ _ _ this1 w1 amb1) as [[[o2 this2] w2] amb2] eqn:E2.
  apply runOnLxc_frame in E2 as [F2 S2].
  destruct o2; simplify_eq; eauto using frame_trans.
Qed.

Lemma echo_fallback_frame lastMsg this :
  frame this (echo_fallback lastMsg this)
  /\ (raw_synced this -> raw_synced (echo_fallback lastMsg this)).
Proof.
  unfold echo_fallback, raw_synced, frame.
  repeat case_match; simpl; split; auto; congruence.
Qed.

Lemma apply_property_frame entry this this1 :
  apply_property entry this = Some this1 -> scopes_only this this1.
Proof.
  unfold apply_property. intros E.
  repeat case_match; simplify_eq; auto using scopes_only_refl, scopes_only_outputs.
Qed.

Lemma apply_properties_frame l : forall this, scopes_only this (apply_properties l this).
Proof.
  induction l as [|e l IH]; intros this; simpl; [apply scopes_only_refl|].
  destruct (apply_property e this) eqn:E; [|apply IH].
  eapply scopes_only_trans; [eapply apply_property_frame|apply IH]; eauto.
Qed.

Lemma scopes_only_synced a b : scopes_only a b -> raw_synced a -> raw_synced b.
Proof.
  unfold scopes_only, raw_synced. intros (_ & Hr & Hres) Hs Hb.
  rewrite Hres. apply Hs. congruence.
Qed.

Lemma after_dispatch_frame lastMsg i mi this0 this (w : World) amb :
  frame this0 this -> (raw_synced this0 -> raw_synced this) ->
  frame this0 (step_this (after_dispatch lastMsg i mi this w amb))
  /\ (raw_synced this0 -> raw_synced (step_this (after_dispatch lastMsg i mi this w amb))).
Proof.
  intros Hf Hs. unfold after_dispatch, step_this. simpl.
  destruct (echo_fallback_frame lastMsg this) as [Hf' Hs'].
  split; [eapply frame_trans; eauto|auto].
Qed.

Lemma dispatch_frame cmd rawStr i rc mi this (w : World) amb r :
  dispatch cmd rawStr i rc mi this w amb = r ->
  frame this (step_this r) /\ (raw_synced this -> raw_synced (step_this r)).
Proof.
  unfold dispatch. intros <-.
  destruct (decide (c_execute_on cmd = Some "lxc")).
  { destruct (lxc_vm_id this) as [v|]; [destruct (truthy v)|];
      try (split; [apply frame_refl|done]).
    destruct (runOnLxc _ _ _ _ this w amb) as [[[o this1] w1] amb1] eqn:E.
    apply runOnLxc_frame in E as [Hf Hs].
    destruct o; [by apply after_dispatch_frame|done]. }
  destruct (decide (c_execute_on cmd = Some "ve")).
  { destruct (runOnVeHost _ _ _ _ this w amb) as [[[o this1] w1] amb1] eqn:E.
    apply runOnVeHost_frame in E as [Hf Hs].
    destruct o; [by apply after_dispatch_frame|done]. }
  destruct (c_execute_on cmd) as [target|]; [|split; [apply frame_refl|done]].
  destruct (JsText.startsWith "host:" target); [|split; [apply frame_refl|done]].
  destruct (executeOnHost _ _ _ this w amb) as [[[o this1] w1] amb1] eqn:E.
  apply executeOnHost_frame in E as [Hf Hs].
  destruct o; [by apply after_dispatch_frame|done].
Qed.

Lemma step_frame cmd i rc mi this (w : World) amb r :
  step cmd i rc mi this w amb = r ->
  frame this (step_this r) /\ (raw_synced this -> raw_synced (step_this r)).
Proof.
  unfold step. intros <-.
  destruct (is_skipped cmd); [split; [apply frame_refl|done]|].
  destruct (c_properties cmd) as [[entry|l]|].
  - destruct (apply_property entry this) as [this1|] eqn:E;
      [|split; [apply frame_refl|done]].
    pose proof (apply_property_frame _ _ _ E) as Hs.
    split; [apply Hs|by apply scopes_only_synced].
  - pose proof (apply_properties_frame l this) as Hs.
    split; [apply Hs|by apply scopes_only_synced].
  - destruct (c_script cmd) as [path|].
    + destruct (readFileSync path); [by eapply dispatch_frame|].
      split; [apply frame_refl|done].
    + destruct (c_command cmd); [by eapply dispatch_frame|].
      split; [apply frame_refl|done].
Qed.

Lemma run_loop_frame rest : forall i rc mi this (w : World) amb r,
  run_loop rest i rc mi this w amb = r ->
  frame this (step_this r) /\ (raw_synced this -> raw_synced (step_this r)).
Proof.
  induction rest as [|cmd rest IH]; intros i rc mi this w amb r <-; simpl.
  - split; [apply frame_refl|done].
  - destruct (step cmd i rc mi this w amb) as [[[[[f rc1] mi1] this1] w1] amb1] eqn:E.
    apply step_frame in E as [F S]. unfold step_this in F, S. simpl in F, S.
    destruct f; [|done].
    destruct (IH (Datatypes.S i) rc1 mi1 this1 w1 amb1 _ eq_refl) as [F' S'].
    split; [eapply frame_trans; eauto|auto].
Qed.

(** *** What does not depend on the trace, the counters and the restart
    information held *)

Lemma retry_loop_indep n ssh args t inp input cmd : forall (w : World) amb amb',
  (retry_loop n ssh args t inp input cmd w amb).1
  = (retry_loop n ssh args t inp input cmd w amb').1.
Proof.
  induction n as [|n IH]; intros w amb amb'; simpl; [done|].
  unfold spawn_once. destruct (spawnAsync w ssh args t inp) as [proc w1]. simpl.
  destruct (p_exitCode proc =? 255); [|done].
  destruct n; [done|apply IH].
Qed.

Lemma runOnVeHost_indep input cmd t rcmd this (w : World) amb amb' :
  same_outcome (call_outcome (runOnVeHost input cmd t rcmd this w amb))
               (call_outcome (runOnVeHost input cmd t rcmd this w amb'))
  /\ call_this (runOnVeHost input cmd t rcmd this w amb)
     = call_this (runOnVeHost input cmd t rcmd this w amb')
  /\ call_world (runOnVeHost input cmd t rcmd this w amb)
     = call_world (runOnVeHost input cmd t rcmd this w amb').
Proof.
  unfold runOnVeHost. destruct (ssh_args this) as [sshArgs|e]; [|done].
  destruct (uniqueMarker w) as [marker w0].
  match goal with |- context [retry_loop ?n ?a ?b ?c ?d ?e ?f w0 amb] =>
    pose proof (retry_loop_indep n a b c d e f w0 amb amb') as Hr;
    destruct (retry_loop n a b c d e f w0 amb) as [[p w1] a1];
    destruct (retry_loop n a b c d e f w0 amb') as [[p' w1'] a1'] end.
  simpl in Hr. simplify_eq. destruct p' as [proc|]; [|done].
  repeat case_match; simplify_eq; done.
Qed.

Lemma runOnLxc_indep vm_id command cmd t this (w : World) amb amb' :
  same_outcome (call_outcome (runOnLxc vm_id command cmd t this w amb))
               (call_outcome (runOnLxc vm_id command cmd t this w amb'))
  /\ call_this (runOnLxc vm_id command cmd t this w amb)
     = call_this (runOnLxc vm_id command cmd t this w amb')
  /\ call_world (runOnLxc vm_id command cmd t this w amb)
     = call_world (runOnLxc vm_id command cmd t this w amb').
Proof. apply runOnVeHost_indep. Qed.

Lemma used_vm_ids_text_result this m m' :
  m_result m = m_result m' -> used_vm_ids_text this m = used_vm_ids_text this m'.
Proof. unfold used_vm_ids_text. by intros ->. Qed.

Lemma echo_fallback_result this m m' :
  m_result m = m_result m' -> echo_fallback (Some m) this = echo_fallback (Some m') this.
Proof. unfold echo_fallback. by intros ->. Qed.

Lemma executeOnHost_indep hostname command cmd this (w : World) amb amb' :
  call_outcome (executeOnHost hostname command cmd this w amb)
  = call_outcome (executeOnHost hostname command cmd this w amb')
  /\ call_this (executeOnHost hostname command cmd this w amb)
     = call_this (executeOnHost hostname command cmd this w amb')
  /\ call_world (executeOnHost hostname command cmd this w amb)
     = call_world (executeOnHost hostname command cmd this w amb').
Proof.
  unfold executeOnHost.
  destruct required_modules as [[]|e0]; [unfold discover_and_run|done].
  destruct (runOnVeHost_indep "" (with_name "write-vmids" cmd) (Some (JsNumber.Int 10000))
              (Some [probeScriptPath]) this w amb amb') as (Ho & Ht & Hw).
  unfold call_outcome, call_this, call_world in Ho, Ht, Hw.
  destruct (runOnVeHost _ _ _ _ this w amb) as [[[o1 this1] w1] amb1].
  destruct (runOnVeHost _ _ _ _ this w amb') as [[[o1' this1'] w1'] amb1'].
  simpl in Ho, Ht, Hw. subst.
  destruct o1 as [m|e], o1' as [m'|e']; simpl in Ho; try done; [|by subst].
  rewrite (used_vm_ids_text_result this1' m m' Ho).
  destruct (verify_host _ _) as [vmctx|e]; [|done].
  match goal with |- context [runOnLxc ?a ?b ?c ?d this1' w1' amb1] =>
    destruct (runOnLxc_indep a b c d this1' w1' amb1 amb1') as (Ho' & Ht' & Hw');
    unfold call_outcome, call_this, call_world in Ho', Ht', Hw';
    destruct (runOnLxc a b c d this1' w1' amb1) as [[[o2 this2] w2] amb2];
    destruct (runOnLxc a b c d this1' w1' amb1') as [[[o2' this2'] w2'] amb2'] end.
  simpl in Ho', Ht', Hw'. subst.
  destruct o2, o2'; simpl in Ho'; try done. by subst.
Qed.

Lemma dispatch_indep cmd rawStr i rc rc' mi mi' this (w : World) amb amb' :
  step_flow (dispatch cmd rawStr i rc mi this w amb)
  = step_flow (dispatch cmd rawStr i rc' mi' this w amb')
  /\ step_this (dispatch cmd rawStr i rc mi this w amb)
     = step_this (dispatch cmd rawStr i rc' mi' this w amb')
  /\ step_world (dispatch cmd rawStr i rc mi this w amb)
     = step_world (dispatch cmd rawStr i rc' mi' this w amb').
Proof.
  unfold dispatch.
  destruct (decide (c_execute_on cmd = Some "lxc")).
  { destruct (lxc_vm_id this) as [v|]; [destruct (truthy v)|]; try done.
    match goal with |- context [runOnLxc ?a ?b ?c ?d this w amb] =>
      destruct (runOnLxc_indep a b c d this w amb amb') as (Ho & Ht & Hw);
      unfold call_outcome, call_this, call_world in Ho, Ht, Hw;
      destruct (runOnLxc a b c d this w amb) as [[[o1 this1] w1] amb1];
      destruct (runOnLxc a b c d this w amb') as [[[o1' this1'] w1'] amb1'] end.
    simpl in Ho, Ht, Hw. subst. by destruct o1, o1'. }
  destruct (decide (c_execute_on cmd = Some "ve")).
  { match goal with |- context [runOnVeHost ?a ?b ?c ?d this w amb] =>
      destruct (runOnVeHost_indep a b c d this w amb amb') as (Ho & Ht & Hw);
      unfold call_outcome, call_this, call_world in Ho, Ht, Hw;
      destruct (runOnVeHost a b c d this w amb) as [[[o1 this1] w1] amb1];
      destruct (runOnVeHost a b c d this w amb') as [[[o1' this1'] w1'] amb1'] end.
    simpl in Ho, Ht, Hw. subst. destruct o1 as [m|], o1' as [m'|]; try done.
    unfold after_dispatch. by rewrite (echo_fallback_result this1' m m' Ho). }
  destruct (c_execute_on cmd) as [target|]; [|done].
  destruct (JsText.startsWith "host:" target); [|done].
  match goal with |- context [executeOnHost ?a ?b ?c this w amb] =>
    destruct (executeOnHost_indep a b c this w amb amb') as (Ho & Ht & Hw);
    unfold call_outcome, call_this, call_world in Ho, Ht, Hw;
    destruct (executeOnHost a b c this w amb) as [[[o1 this1] w1] amb1];
    destruct (executeOnHost a b c this w amb') as [[[o1' this1'] w1'] amb1'] end.
  simpl in Ho, Ht, Hw. subst. by destruct o1'.
Qed.

Lemma step_indep cmd i rc rc' mi mi' this (w : World) amb amb' :
  step_flow (step cmd i rc mi this w amb) = step_flow (step cmd i rc' mi' this w amb')
  /\ step_this (step cmd i rc mi this w amb) = step_this (step cmd i rc' mi' this w amb')
  /\ step_world (step cmd i rc mi this w amb) = step_world (step cmd i rc' mi' this w amb').
Proof.
  unfold step.
  destruct (is_skipped cmd); [done|].
  destruct (c_properties cmd) as [[entry|l]|]; [by destruct (apply_property entry this)|done|].
  destruct (c_script cmd) as [path|].
  - destruct (readFileSync path); [apply dispatch_indep|done].
  - destruct (c_command cmd); [apply dispatch_indep|done].
Qed.

Lemma run_loop_indep rest : forall i rc rc' mi mi' this (w : World) amb amb',
  step_flow (run_loop rest i rc mi this w amb) = step_flow (run_loop rest i rc' mi' this w amb')
  /\ step_this (run_loop rest i rc mi this w amb) = step_this (run_loop rest i rc' mi' this w amb')
  /\ step_world (run_loop rest i rc mi this w amb) = step_world (run_loop rest i rc' mi' this w amb').
Proof.
  induction rest as [|cmd rest IH]; intros i rc rc' mi mi' this w amb amb'; simpl; [done|].
  destruct (step_indep cmd i rc rc' mi mi' this w amb amb') as (Hf & Ht & Hw).
  unfold step_flow, step_this, step_world in Hf, Ht, Hw.
  destruct (step cmd i rc mi this w amb) as [[[[[f rc1] mi1] this1] w1] amb1].
  destruct (step cmd i rc' mi' this w amb') as [[[[[f' rc1'] mi1'] this1'] w1'] amb1'].
  simpl in Hf, Ht, Hw. subst. destruct f'; [apply IH|done].
Qed.

(** *** The loop, piece by piece *)






(** *** Entries of a map, and a map filled from them *)

Lemma fill_snoc l k v m : fill (l ++ [(k, v)]) m = <[k := v]> (fill l m).
Proof. unfold fill. by rewrite foldl_snoc. Qed.



(** *** Resuming *)

Lemma run_this_world restartInfo this (w : World) amb :
  let this0 :=
    match restartInfo with Some ri => load_state ri this | None => this end in
  let r := run_loop (drop (start_index restartInfo) (commands this0))
             (start_index restartInfo) None 0 this0 w amb in
  call_this (run restartInfo this w amb) = step_this r
  /\ call_world (run restartInfo this w amb) = step_world r.
Proof.
  unfold run. simpl.
  destruct (run_loop _ _ _ _ _ _ _) as [[[[[f rc] mi] this1] w1] amb1].
  repeat case_match; done.
Qed.



(** *** Empty output *)

Lemma runOnVeHost_empty_stdout input cmd t rcmd this (w : World) amb
    sshArgs marker w0 proc w1 amb1 :
  ssh_args this = Return sshArgs ->
  uniqueMarker w = (marker, w0) ->
  retry_loop maxRetries (sshCommand this) (sshArgs ++ default [] rcmd)
    (default (scriptTimeoutMs this) t)
    ("echo " +:+ JsText.dq +:+ marker +:+ JsText.dq +:+ JsText.nl +:+ input)
    input cmd w0 amb = (Some proc, w1, amb1) ->
  JsText.trim (p_stdout proc) = "" ->
  (p_exitCode proc = 0 ->
     exists msg,
       runOnVeHost input cmd t rcmd this w amb
         = (Return msg, this, w1, emit msg (next_index amb1))
       /\ m_result msg = ResText "OK" /\ m_exitCode msg = 0
       /\ m_partial msg = false /\ m_error msg = None
       /\ m_index msg = Some (index amb1))
  /\ (p_exitCode proc <> 0 ->
     exists msg,
       runOnVeHost input cmd t rcmd this w amb
         = (Throw (failed_text cmd (p_exitCode proc) (p_stderr proc)),
            this, w1, emit msg amb1)
       /\ m_stderr msg = p_stderr proc /\ m_result msg = ResText "ERROR"
       /\ m_exitCode msg = p_exitCode proc /\ m_partial msg = false
       /\ m_error msg = Some (failed_text cmd (p_exitCode proc) (p_stderr proc))).
Proof.
  intros Hssh Hmark Hretry Hempty.
  unfold runOnVeHost. rewrite Hssh, Hmark, Hretry, Hempty. simpl.
  split; intros Hcode.
  - rewrite Hcode. simpl. eexists. split; [reflexivity|]. by simpl.
  - destruct (Z.eqb_spec (p_exitCode proc) 0) as [E|_]; [done|].
    eexists. split; [reflexivity|]. by simpl.
Qed.

(** The fallback reads nothing out of the result OK, which is no JSON. *)
Lemma echo_fallback_ok msg this e :
  m_result msg = ResText "OK" -> JSON_parse "OK" = inr e ->
  echo_fallback (Some msg) this = this.
Proof.
  intros Hres Hjson. unfold echo_fallback. rewrite Hres.
  destruct (decide (size (outputs this) = 0%nat)); [|done].
  change (JsText.strip_trailing_quote
            (JsText.strip_leading_quote (JsText.strip_echo "OK"))) with "OK".
  by rewrite Hjson.
Qed.

(** C7. A remote execution whose last attempt printed nothing but white
    space. With exit code 0 [runOnVeHost] returns (it does not throw) a
    message with the result OK and exit code 0, emits that message as the
    final one of the step, and leaves the object, so all three scopes, as
    it was. With any other exit code it throws, nothing is parsed and the
    object is left as it was, and the message it emitted before throwing
    carries the captured stderr, the exit code of the process and the
    result ERROR. For a step of [run] on [ve], or on [lxc] with a vm_id:
    with exit code 0 the loop goes on, the object unchanged and the restart
    information recorded for the step's own index (on [ve] given that the
    text OK is no JSON, which the fallback tries to read); with any other
    exit code the loop is left with the restart information for the index
    before and one more message. *)
Theorem empty_stdout_is_ok_or_failure input cmd t rcmd this (w : World) amb
    sshArgs marker w0 proc w1 amb1 :
  ssh_args this = Return sshArgs ->
  uniqueMarker w = (marker, w0) ->
  retry_loop maxRetries (sshCommand this) (sshArgs ++ default [] rcmd)
    (default (scriptTimeoutMs this) t)
    ("echo " +:+ JsText.dq +:+ marker +:+ JsText.dq +:+ JsText.nl +:+ input)
    input cmd w0 amb = (Some proc, w1, amb1) ->
  JsText.trim (p_stdout proc) = "" ->
  (p_exitCode proc = 0 ->
     exists msg,
       runOnVeHost input cmd t rcmd this w amb
         = (Return msg, this, w1, emit msg (next_index amb1))
       /\ m_result msg = ResText "OK" /\ m_exitCode msg = 0
       /\ m_partial msg = false /\ m_error msg = None
       /\ m_index msg = Some (index amb1))
  /\ (p_exitCode proc <> 0 ->
     exists msg,
       runOnVeHost input cmd t rcmd this w amb
         = (Throw (failed_text cmd (p_exitCode proc) (p_stderr proc)),
            this, w1, emit msg amb1)
       /\ m_stderr msg = p_stderr proc /\ m_result msg = ResText "ERROR"
       /\ m_exitCode msg = p_exitCode proc /\ m_partial msg = false
       /\ m_error msg = Some (failed_text cmd (p_exitCode proc) (p_stderr proc)))
  /\ (forall rawStr i rc mi,
        input = replaceVars this rawStr -> t = None ->
        (c_execute_on cmd = Some "ve" /\ rcmd = None
         \/ c_execute_on cmd = Some "lxc" /\
            exists vm_id, lxc_vm_id this = Some vm_id /\ truthy vm_id = true /\
              rcmd = (if String.eqb (sshCommand this) "ssh"
                      then Some ["lxc-attach"; "-n"; toString vm_id] else None)) ->
        let r := dispatch cmd rawStr i rc mi this w amb in
        (p_exitCode proc = 0 -> (exists e, JSON_parse "OK" = inr e) ->
           step_flow r = Continue /\ step_this r = this
           /\ step_rc r = Some (restart_info (Z.of_nat i) this)
           /\ messages (trace (step_amb r)) = messages (trace amb1) ++
                [set_index (index amb1)
                   (set_result (ResText "OK")
                      {| m_command := c_name cmd; m_commandtext := Some input;
                         m_stderr := p_stderr proc; m_result := ResText (p_stdout proc);
                         m_exitCode := p_exitCode proc;
                         m_execute_on := c_execute_on cmd; m_index := None;
                         m_partial := false; m_error := None; m_finished := false;
                         m_host := None |})])
        /\ (p_exitCode proc <> 0 ->
            step_flow r = Break /\ step_this r = this
            /\ step_rc r = Some (restart_info (Z.of_nat i - 1) this))).
Proof.
  intros Hssh Hmark Hretry Hempty.
  destruct (runOnVeHost_empty_stdout input cmd t rcmd this w amb sshArgs marker w0
              proc w1 amb1 Hssh Hmark Hretry Hempty) as [Hok Hfail].
  split; [done|]. split; [done|].
  intros rawStr i rc mi -> -> Hon r. subst r. unfold dispatch.
  assert (messages_snoc : forall tr m, messages (tr ++ [EMessage m]) = messages tr ++ [m]).
  { intros tr m. unfold messages. by rewrite omap_app. }
  split.
  - intros Hcode [e Hjson]. destruct (Hok Hcode) as (msg & Hrun & Hres & _).
    assert (msg = set_index (index amb1)
                    (set_result (ResText "OK")
                       {| m_command := c_name cmd;
                          m_commandtext := Some (replaceVars this rawStr);
                          m_stderr := p_stderr proc; m_result := ResText (p_stdout proc);
                          m_exitCode := p_exitCode proc;
                          m_execute_on := c_execute_on cmd; m_index := None;
                          m_partial := false; m_error := None; m_finished := false;
                          m_host := None |})) as Hmsg.
    { revert Hrun. unfold runOnVeHost. rewrite Hssh, Hmark, Hretry, Hempty, Hcode.
      simpl. by intros [= <-]. }
    rewrite Hmsg in Hrun, Hres. clear Hmsg.
    destruct Hon as [[Hve ->]|[Hlxc (vm_id & Hid & Htr & ->)]].
    + rewrite Hve. simpl. rewrite Hrun. unfold after_dispatch.
      rewrite (echo_fallback_ok _ this e Hres Hjson).
      unfold step_flow, step_this, step_rc, step_amb, emit, log, next_index.
      cbn [fst snd trace]. by rewrite messages_snoc, Hve.
    + rewrite Hlxc. simpl. rewrite Hid, Htr. unfold runOnLxc.
      change (toString_opt (Some vm_id)) with (toString vm_id). rewrite Hrun.
      unfold after_dispatch, echo_fallback.
      unfold step_flow, step_this, step_rc, step_amb, emit, log, next_index.
      cbn [fst snd trace]. by rewrite messages_snoc, Hlxc.
  - intros Hcode. destruct (Hfail Hcode) as (msg & Hrun & _).
    destruct Hon as [[Hve ->]|[Hlxc (vm_id & Hid & Htr & ->)]].
    + rewrite Hve. simpl. by rewrite Hrun.
    + rewrite Hlxc. simpl. rewrite Hid, Htr. unfold runOnLxc.
      change (toString_opt (Some vm_id)) with (toString vm_id). by rewrite Hrun.
Qed.

(** *** A failure after output was parsed *)

Lemma runOnVeHost_failure_after_merge input cmd t rcmd this (w : World) amb
    sshArgs marker w0 proc w1 amb1 this1 :
  ssh_args this = Return sshArgs ->
  uniqueMarker w = (marker, w0) ->
  retry_loop maxRetries (sshCommand this) (sshArgs ++ default [] rcmd)
    (default (scriptTimeoutMs this) t)
    ("echo " +:+ JsText.dq +:+ marker +:+ JsText.dq +:+ JsText.nl +:+ input)
    input cmd w0 amb = (Some proc, w1, amb1) ->
  JsText.isEmpty (JsText.trim (p_stdout proc)) = false ->
  parseAndUpdateOutputs (p_stdout proc) cmd (Some marker) this = (Return tt, this1) ->
  p_exitCode proc <> 0 ->
  runOnVeHost input cmd t rcmd this w amb
  = (Throw (failed_text cmd (p_exitCode proc) (p_stderr proc)),
     sync_outputsRaw this1, w1, amb1).
Proof.
  intros Hssh Hmark Hretry Hne Hparse Hcode.
  unfold runOnVeHost. rewrite Hssh, Hmark, Hretry, Hne, Hparse.
  by destruct (Z.eqb_spec (p_exitCode proc) 0).
Qed.

Lemma parse_single_record stdout cmd marker this id v :
  JsText.isEmpty (JsText.trim stdout) = false ->
  JsText.isEmpty (cleaned_stdout stdout marker) = false ->
  JSON_parse (cleaned_stdout stdout marker)
    = inl (JObj [("id", JStr id); ("value", v)]) ->
  is_primitive v = true ->
  processLocalFileValue (sshCommand this) v = Return v ->
  parseAndUpdateOutputs stdout cmd marker this
  = (Return tt, with_outputs (<[id := v]> (outputs this)) this).
Proof.
  intros Hne Hc Hparse Hprim Hlocal. unfold parseAndUpdateOutputs.
  rewrite Hne, Hc, Hparse.
  unfold serializeJsonWithSchema, outputs_schema, is_id_record. simpl.
  rewrite Hprim. simpl. unfold output_entry. simpl. by rewrite Hlocal.
Qed.

(** The merge before the failure. A script or command step that runs on
    [ve], or on [lxc] with a vm_id, whose last attempt printed a text
    that is parsed and merged without error and exited with a code other
    than 0: the step ends the run, the object is left as the merge (and the copy of the
    processor's raw array) made it, nothing is rolled back, and the
    restart information returned is the one for [i - 1] built from that
    merged object. Its defaults are the merged defaults; its outputs are
    the merged outputs when no name/value array was ever recorded, and the
    recorded raw array otherwise. In particular a single printed record
    [{id, value}], with no raw array recorded before, is found under its
    id in the outputs of the restart information. *)
Lemma failed_step_keeps_merged_scopes cmd rawStr i rc mi this (w : World) amb
    rcmd sshArgs marker w0 proc w1 amb1 this1 :
  (c_execute_on cmd = Some "ve" /\ rcmd = None
   \/ c_execute_on cmd = Some "lxc" /\
      exists vm_id, lxc_vm_id this = Some vm_id /\ truthy vm_id = true /\
        rcmd = (if String.eqb (sshCommand this) "ssh"
                then Some ["lxc-attach"; "-n"; toString vm_id] else None)) ->
  ssh_args this = Return sshArgs ->
  uniqueMarker w = (marker, w0) ->
  retry_loop maxRetries (sshCommand this) (sshArgs ++ default [] rcmd)
    (scriptTimeoutMs this)
    ("echo " +:+ JsText.dq +:+ marker +:+ JsText.dq +:+ JsText.nl
       +:+ replaceVars this rawStr)
    (replaceVars this rawStr) cmd w0 amb = (Some proc, w1, amb1) ->
  JsText.isEmpty (JsText.trim (p_stdout proc)) = false ->
  parseAndUpdateOutputs (p_stdout proc) cmd (Some marker) this = (Return tt, this1) ->
  p_exitCode proc <> 0 ->
  let merged := sync_outputsRaw this1 in
  let ck := restart_info (Z.of_nat i - 1) merged in
  let e := failed_text cmd (p_exitCode proc) (p_stderr proc) in
  dispatch cmd rawStr i rc mi this w amb
    = (Break, Some ck, S mi, merged, w1,
       emit (run_message e ResNull (-1) (c_name cmd) cmd None mi) amb1)
  /\ r_defaults ck = map_to_list (defaults merged)
  /\ (outputsRaw merged = None -> r_outputs ck = map_to_list (outputs merged))
  /\ (forall raw, outputsRaw merged = Some raw -> r_outputs ck = raw)
  /\ (forall id v,
        outputsRaw this = None -> outputsRawResult this = None ->
        JsText.isEmpty (cleaned_stdout (p_stdout proc) (Some marker)) = false ->
        JSON_parse (cleaned_stdout (p_stdout proc) (Some marker))
          = inl (JObj [("id", JStr id); ("value", v)]) ->
        is_primitive v = true ->
        processLocalFileValue (sshCommand this) v = Return v ->
        (id, v) ∈ r_outputs ck).
Proof.
  intros Hon Hssh Hmark Hretry Hne Hparse Hcode merged ck e.
  split; [|split; [done|split; [|split]]].
  - unfold dispatch.
    destruct Hon as [[Hve ->]|[Hlxc (vm_id & Hid & Htr & ->)]].
    + rewrite Hve. simpl.
      by rewrite (runOnVeHost_failure_after_merge (replaceVars this rawStr) cmd
                    None None this w amb sshArgs marker w0 proc w1 amb1 this1
                    Hssh Hmark Hretry Hne Hparse Hcode).
    + rewrite Hlxc. simpl. rewrite Hid, Htr. unfold runOnLxc. simpl.
      by rewrite (runOnVeHost_failure_after_merge (replaceVars this rawStr) cmd
                    None _ this w amb sshArgs marker w0 proc w1 amb1 this1
                    Hssh Hmark Hretry Hne Hparse Hcode).
  - intros Hraw. unfold ck, restart_info. simpl. by rewrite Hraw.
  - intros raw Hraw. unfold ck, restart_info. simpl. by rewrite Hraw.
  - intros id v Hraw Hres Hc Hjson Hprim Hlocal.
    rewrite (parse_single_record _ _ _ _ _ _ Hne Hc Hjson Hprim Hlocal) in Hparse.
    simplify_eq.
    unfold ck, merged, sync_outputsRaw, getOutputsRawResult, restart_info. simpl.
    rewrite Hres. simpl. rewrite Hraw.
    apply elem_of_map_to_list, lookup_insert_eq.
Qed.

(** *** Host discovery *)

Lemma upto_colon_free h : JsText.free_of ":" h = true -> JsText.upto_colon h = h.
Proof.
  induction h as [|a h IH]; [done|]. simpl. intros [Ha Hh]%andb_true_iff.
  destruct (Ascii.eqb a ":"); [done|]. by rewrite IH.
Qed.

(** The hostname of a target [host:h] is [h]. *)
Lemma split_colon_1_host h :
  JsText.free_of ":" h = true -> JsText.split_colon_1 ("host:" +:+ h) = h.
Proof.
  intros Hh.
  change ("host:" +:+ h)
    with (String "h" (String "o" (String "s" (String "t" (String ":" h))))).
  unfold JsText.split_colon_1. simpl. by apply upto_colon_free.
Qed.

(** [executeOnHost] begins with its two [require] calls; where one
    throws, the method throws the same and nothing else is done. *)
Lemma executeOnHost_without_require hostname command cmd this (w : World) amb e :
  required_modules = Throw e ->
  executeOnHost hostname command cmd this w amb = (Throw e, this, w, amb).
Proof. unfold executeOnHost. by intros ->. Qed.

Lemma executeOnHost_with_require hostname command cmd this (w : World) amb :
  required_modules = Return tt ->
  executeOnHost hostname command cmd this w amb
  = discover_and_run hostname command cmd this w amb.
Proof. unfold executeOnHost. by intros ->. Qed.

(** Where [require] returns, the method goes on with the probe:
    [runOnVeHost] of the empty command with the probe script as remote
    command and a timeout of 10000 ms, whose first effect, once the ssh
    arguments are there, is to spawn exactly that. If the probe throws,
    the method throws the same and does nothing more. If the probe
    returns, the text of [used_vm_ids] is parsed; the command runs in a
    container (a call of [runOnLxc] with the vmid of the registry entry
    and the command with variables replaced) exactly when the text parses
    to an array, an element of the array has the hostname, the registry
    has an entry for the hostname, and the element and the entry agree on
    pve and on the numeric vmid. In every other case the method throws in
    the state the probe left, with no further effect. A throw of
    [executeOnHost] makes the step of [run] emit one message with exit
    code -1 and leave the loop. *)
Lemma host_discovery_verifies_then_runs hostname command cmd this (w : World) amb
    o this1 w1 amb1 :
  runOnVeHost "" (with_name "write-vmids" cmd) (Some (JsNumber.Int 10000))
    (Some [probeScriptPath]) this w amb = (o, this1, w1, amb1) ->
  (forall sshArgs marker w0,
     ssh_args this = Return sshArgs -> uniqueMarker w = (marker, w0) ->
     exists added rest,
       trace amb1 = trace amb ++ added
       /\ attempts added
          = ESpawn (sshCommand this) (sshArgs ++ [probeScriptPath]) 10000
              ("echo " +:+ JsText.dq +:+ marker +:+ JsText.dq +:+ JsText.nl +:+ "")
            :: rest)
  /\ match o with
     | Throw e => discover_and_run hostname command cmd this w amb = (Throw e, this1, w1, amb1)
     | Return probeMsg =>
         let agreed (vmctx : VMContext) : Prop :=
           exists usedStr arr found,
             used_vm_ids_text this1 probeMsg = Some usedStr
             /\ JSON_parse usedStr = inl (JArr arr)
             /\ List.find (hostname_is hostname) arr = Some found
             /\ getVMContextByHostname hostname = Some vmctx
             /\ pveOk vmctx found = true /\ vmidOk vmctx found = true in
         (forall vmctx, agreed vmctx ->
            exists o2 this2 w2 amb2,
              runOnLxc (vmid vmctx) (host_payload this1 command vmctx) cmd None
                this1 w1 amb1 = (o2, this2, w2, amb2)
              /\ discover_and_run hostname command cmd this w amb
                 = (match o2 with Return _ => Return tt | Throw e => Throw e end,
                    this2, w2, amb2))
         /\ ((forall vmctx, ~ agreed vmctx) ->
             exists e, discover_and_run hostname command cmd this w amb
                       = (Throw e, this1, w1, amb1))
     end
  /\ (forall rawStr i rc mi target e this' w' amb',
        c_execute_on cmd = Some target ->
        JsText.startsWith "host:" target = true ->
        executeOnHost (JsText.split_colon_1 target) rawStr cmd this w amb
          = (Throw e, this', w', amb') ->
        dispatch cmd rawStr i rc mi this w amb
        = (Break, rc, S mi, this', w',
           emit (run_message e ResNull (-1) (c_name cmd) cmd
                   (Some (JsText.split_colon_1 target)) mi) amb')).
Proof.
  intros Hprobe. split; [|split].
  - intros sshArgs marker w0 Hssh Hmark.
    destruct (runOnVeHost_attempts "" (with_name "write-vmids" cmd)
                (Some (JsNumber.Int 10000))
                (Some [probeScriptPath]) this w amb sshArgs marker w0 Hssh Hmark)
      as (added & Htr & Hc).
    rewrite Hprobe in Htr. unfold call_amb in Htr. simpl in Htr, Hc.
    exists added. destruct Hc as [Hc|[Hc|Hc]]; eexists; split; eauto.
  - unfold discover_and_run. rewrite Hprobe. destruct o as [probeMsg|e]; [|done].
    split.
    + intros vmctx (usedStr & arr & found & Hu & Hp & Hf & Hr & Hpve & Hvm).
      unfold verify_host. rewrite Hu, Hp, Hf, Hr, Hpve, Hvm. simpl.
      destruct (runOnLxc _ _ _ _ this1 w1 amb1) as [[[o2 this2] w2] amb2].
      exists o2, this2, w2, amb2. split; [done|]. by destruct o2.
    + intros Hno. unfold verify_host.
      destruct (used_vm_ids_text this1 probeMsg) as [usedStr|] eqn:Hu; [|by eexists].
      destruct (JSON_parse usedStr) as [[| | | |arr|]|] eqn:Hp; try by eexists.
      destruct (List.find (hostname_is hostname) arr) as [found|] eqn:Hf; [|by eexists].
      destruct (getVMContextByHostname hostname) as [vmctx|] eqn:Hr; [|by eexists].
      destruct (pveOk vmctx found) eqn:Hpve; [|by eexists].
      destruct (vmidOk vmctx found) eqn:Hvm; [|by eexists].
      exfalso. apply (Hno vmctx). by exists usedStr, arr, found.
  - intros rawStr i rc mi target e this' w' amb' Hon Hhost Hthrow.
    unfold dispatch. rewrite Hon.
    destruct (decide (Some target = Some "lxc")) as [E|_]; [by simplify_eq|].
    destruct (decide (Some target = Some "ve")) as [E|_]; [by simplify_eq|].
    by rewrite Hhost, Hthrow.
Qed.

(** *** An lxc step without a container id *)

(** X1. A script or command step on [lxc] that finds no text or number
    under vm_id among the inputs or the outputs (or finds an empty text or 0)
    emits the failure message and leaves the loop: the object, the world
    and the restart information held stay as they are, nothing is
    spawned. *)
Lemma lxc_without_vm_id_breaks cmd rawStr i rc mi this (w : World) amb :
  is_skipped cmd = false ->
  c_properties cmd = None ->
  c_execute_on cmd = Some "lxc" ->
  (exists path, c_script cmd = Some path /\ readFileSync path = inl rawStr)
  \/ (c_script cmd = None /\ c_command cmd = Some rawStr) ->
  lxc_vm_id this = None \/ (exists v, lxc_vm_id this = Some v /\ truthy v = false) ->
  step cmd i rc mi this w amb
  = (Break, rc, S mi, this, w,
     emit (run_message vm_id_missing_text ResNull (-1) (c_name cmd) cmd None mi) amb).
Proof.
  intros Hskip Hprops Hon Hraw Hid. unfold step. rewrite Hskip, Hprops.
  assert (dispatch cmd rawStr i rc mi this w amb
          = (Break, rc, S mi, this, w,
             emit (run_message vm_id_missing_text ResNull (-1) (c_name cmd) cmd None mi)
               amb)) as Hd.
  { unfold dispatch. rewrite Hon. simpl.
    destruct Hid as [-> | (v & -> & ->)]; done. }
  destruct Hraw as [(path & -> & ->)|[-> ->]]; exact Hd.
Qed.

(** *** Variable substitution *)

Lemma append_cons c (s x : string) : String c s +:+ x = String c (s +:+ x).
Proof. reflexivity. Qed.

Lemma append_nil (x : string) : "" +:+ x = x.
Proof. reflexivity. Qed.

Lemma append_nil_r (s : string) : s +:+ "" = s.
Proof. induction s as [|c s IH]; [done|]. by rewrite append_cons, IH. Qed.

Lemma rev_app_rev_app s : forall a b,
  String.rev_app (String.rev_app s a) b = String.rev_app a (s +:+ b).
Proof.
  induction s as [|c s IH]; intros a b; [done|].
  simpl. by rewrite IH.
Qed.

Lemma string_rev_rev_app s : String.rev (String.rev_app s "") = s.
Proof. unfold String.rev. rewrite rev_app_rev_app. simpl. apply append_nil_r. Qed.

Section Scan.
Variable value : string -> string.

Lemma scan_inside c b r acc :
  Ascii.eqb c "}" = false ->
  VariableResolver.scan value (Some acc) (String c (String b r))
  = VariableResolver.scan value (Some (String c acc)) (String b r).
Proof. intros Hc. simpl. unfold VariableResolver.is_close. by rewrite Hc. Qed.

Lemma scan_outside c b r :
  VariableResolver.is_open c b = false ->
  VariableResolver.scan value None (String c (String b r))
  = String c (VariableResolver.scan value None (String b r)).
Proof. intros Hc. simpl. by rewrite Hc. Qed.

Lemma scan_name name : forall acc rest,
  JsText.free_of "}" name = true ->
  VariableResolver.scan value (Some acc) (name +:+ "}}" +:+ rest)
  = value (JsText.trim (String.rev (String.rev_app name acc)))
      +:+ VariableResolver.scan value None rest.
Proof.
  induction name as [|c n IH]; intros acc rest Hfree.
  - by change ("" +:+ "}}" +:+ rest) with (String "}" (String "}" rest)).
  - simpl in Hfree. apply andb_true_iff in Hfree as [Hc Hn].
    apply negb_true_iff in Hc. rewrite append_cons.
    change (String.rev_app (String c n) acc) with (String.rev_app n (String c acc)).
    rewrite <- (IH (String c acc) rest Hn).
    destruct n as [|c' n'].
    + change ("" +:+ "}}" +:+ rest) with (String "}" (String "}" rest)).
      by apply scan_inside.
    + rewrite append_cons. by apply scan_inside.
Qed.

Lemma scan_prefix pre : forall s,
  VariableResolver.no_open pre = true ->
  VariableResolver.scan value None (pre +:+ "{{" +:+ s)
  = pre +:+ VariableResolver.scan value (Some "") s.
Proof.
  induction pre as [|c p IH]; intros s Hfree.
  - by change ("" +:+ "{{" +:+ s) with (String "{" (String "{" s)).
  - destruct p as [|c' p'].
    + simpl in Hfree. apply negb_true_iff in Hfree.
      change (String c "" +:+ "{{" +:+ s) with (String c (String "{" (String "{" s))).
      rewrite scan_outside; [done|].
      unfold VariableResolver.is_open. by rewrite Hfree.
    + change (VariableResolver.no_open (String c (String c' p')))
        with (negb (VariableResolver.is_open c c')
              && VariableResolver.no_open (String c' p')) in Hfree.
      apply andb_true_iff in Hfree as [Hc Hp]. apply negb_true_iff in Hc.
      change (String c (String c' p') +:+ "{{" +:+ s)
        with (String c (String c' (p' +:+ "{{" +:+ s))).
      rewrite scan_outside by done.
      change (String c' (p' +:+ "{{" +:+ s)) with (String c' p' +:+ "{{" +:+ s).
      by rewrite (IH s Hp).
Qed.
End Scan.

(** C9. A token [{{name}}] that follows a text with no opening pair of
    braces in it and no opening brace at its end is replaced by the string form of the first value defined for the
    trimmed name in the order override context, outputs, inputs,
    defaults, and by the text NOT_DEFINED when none of the four defines
    it; the text before the token is kept and the text after it is
    substituted in the same way. [replaceVars] is the same substitution
    with an empty override context. Substitution is a total function: it
    has a result for every text and every scopes. For host discovery the
    command is first substituted with the data of the registry entry as
    override context, and the result once more with the outputs as
    context. *)
Theorem substitution_precedence (ctx o i d : gmap string Json) (pre name post : string) :
  VariableResolver.no_open pre = true ->
  JsText.free_of "}" name = true ->
  let resolved := VariableResolver.resolve ctx o i d (JsText.trim name) in
  VariableResolver.replaceVarsWithContext o i d
    (pre +:+ "{{" +:+ name +:+ "}}" +:+ post) ctx
    = pre +:+ resolved +:+ VariableResolver.replaceVarsWithContext o i d post ctx
  /\ (forall v, ctx !! JsText.trim name = Some v -> resolved = toString v)
  /\ (forall v, ctx !! JsText.trim name = None -> o !! JsText.trim name = Some v ->
        resolved = toString v)
  /\ (forall v, ctx !! JsText.trim name = None -> o !! JsText.trim name = None ->
        i !! JsText.trim name = Some v -> resolved = toString v)
  /\ (forall v, ctx !! JsText.trim name = None -> o !! JsText.trim name = None ->
        i !! JsText.trim name = None -> d !! JsText.trim name = Some v ->
        resolved = toString v)
  /\ (ctx !! JsText.trim name = None -> o !! JsText.trim name = None ->
      i !! JsText.trim name = None -> d !! JsText.trim name = None ->
      resolved = "NOT_DEFINED")
  /\ (forall s, VariableResolver.replaceVars o i d s
                = VariableResolver.replaceVarsWithContext o i d s ∅)
  /\ (forall this command vmctx,
        host_payload this command vmctx
        = VariableResolver.replaceVarsWithContext (outputs this) (inputs this)
            (defaults this)
            (VariableResolver.replaceVarsWithContext (outputs this) (inputs this)
               (defaults this) command (default ∅ (data vmctx)))
            (outputs this)).
Proof.
  intros Hpre Hname resolved. split; [|repeat split].
  - unfold VariableResolver.replaceVarsWithContext.
    rewrite scan_prefix by done. rewrite scan_name by done.
    by rewrite string_rev_rev_app.
  - intros v E. unfold resolved, VariableResolver.resolve. by rewrite E.
  - intros v E1 E2. unfold resolved, VariableResolver.resolve. by rewrite E1, E2.
  - intros v E1 E2 E3. unfold resolved, VariableResolver.resolve.
    by rewrite E1, E2, E3.
  - intros v E1 E2 E3 E4. unfold resolved, VariableResolver.resolve.
    by rewrite E1, E2, E3, E4.
  - intros E1 E2 E3 E4. unfold resolved, VariableResolver.resolve.
    by rewrite E1, E2, E3, E4.
Qed.

End Properties.

(** ** Concrete runs *)

Section Concrete.

Import Scripted.



(** C10 (a defect of the code). In [shadow_cmds] step 0 prints a
    name/value array and step 1 prints the record [c] and exits with 1.
    The record is merged, the outputs scope holds [c] when the run ends,
    and the restart information returned for the failure (for index 0, one
    less than the failed step) has the raw array of step 0 as its outputs:
    [c] is not among them. The raw array of step 0 has outlived its step,
    where the loop has the comment Reset raw outputs for this command
    iteration and the processor hands out the raw result from the last
    parse operation. On a discovered host (the module run with a
    [require]) the command of [host_cmd] prints [c] and exits with 1: the
    record is merged and [run] returns no restart information at all. *)
Theorem failure_checkpoint_misses_merged_output :
  call_outcome (run None (fresh shadow_cmds []) shadow_world start)
    = Return (Some (checkpoint 0 [("b", JStr "2")]))
  /\ outputs (call_this (run None (fresh shadow_cmds []) shadow_world start)) !! "c"
     = Some (JStr "3")
  /\ Json.assoc "c" (r_outputs (checkpoint 0 [("b", JStr "2")])) = None
  /\ call_outcome (run None (fresh [host_cmd] []) host_failing_world start) = Return None
  /\ outputs (call_this (run None (fresh [host_cmd] []) host_failing_world start)) !! "c"
     = Some (JStr "3")
  /\ List.map (fun m => (m_command m, m_exitCode m, m_stderr m))
       (messages (trace (call_amb (run None (fresh [host_cmd] []) host_failing_world start))))
     = [ (Some "write-vmids", 0, "");
         (Some "migrate", -1, failed_text host_cmd 1 "") ].
Proof. vm_compute. repeat split; reflexivity. Qed.

(** The merge before the failure at the one command of [failing_cmd],
    which prints the record [d] and exits with 1. *)
Lemma failed_step_keeps_merged_scopes_witness :
  let this := fresh [failing_cmd] [] in
  let this1 := with_outputs {[ "d" := JStr "4" ]} this in
  let amb1 :=
    (retry_loop maxRetries "ssh"
       (match ssh_args this with Return l => l | Throw _ => [] end ++ [])
       120000 ("echo " +:+ JsText.dq +:+ marker +:+ JsText.dq +:+ JsText.nl +:+ "true")
       "true" failing_cmd failing_world start).2 in
  let merged := sync_outputsRaw this1 in
  let ck := restart_info (Z.of_nat 0 - 1) merged in
  let e := failed_text failing_cmd 1 "" in
  dispatch failing_cmd "true" 0 None 0 this failing_world start
    = (Break, Some ck, 1%nat, merged, [],
       emit (run_message e ResNull (-1) (c_name failing_cmd) failing_cmd None 0) amb1)
  /\ r_defaults ck = map_to_list (defaults merged)
  /\ (outputsRaw merged = None -> r_outputs ck = map_to_list (outputs merged))
  /\ (forall raw, outputsRaw merged = Some raw -> r_outputs ck = raw)
  /\ (forall id v,
        outputsRaw this = None -> outputsRawResult this = None ->
        JsText.isEmpty (cleaned_stdout (p_stdout (out d_text 1)) (Some marker)) = false ->
        JSON_parse (cleaned_stdout (p_stdout (out d_text 1)) (Some marker))
          = inl (JObj [("id", JStr id); ("value", v)]) ->
        is_primitive v = true ->
        processLocalFileValue (sshCommand this) v = Return v ->
        (id, v) ∈ r_outputs ck).
Proof.
  intros this this1 amb1 merged ck e.
  apply (@failed_step_keeps_merged_scopes scripted failing_cmd "true" 0 None 0 this
           failing_world start None
           (match ssh_args this with Return l => l | Throw _ => [] end)
           marker failing_world (out d_text 1) [] amb1 this1).
  - left. split; reflexivity.
  - vm_compute. reflexivity.
  - reflexivity.
  - vm_compute. reflexivity.
  - vm_compute. reflexivity.
  - vm_compute. reflexivity.
  - discriminate.
Defined.

(** The record [d] is in the outputs of that restart information. *)
Example failed_step_record_in_checkpoint :
  ("d", JStr "4")
    ∈ r_outputs (restart_info (-1)
                   (sync_outputsRaw (with_outputs {[ "d" := JStr "4" ]}
                                       (fresh [failing_cmd] [])))).
Proof. vm_compute. apply list_elem_of_here. Qed.

(** C7 at a process that prints nothing and exits with 0, and at one that
    prints a blank line, writes to stderr and exits with 2. *)
Lemma empty_stdout_is_ok_or_failure_witness :
  let this := fresh [failing_cmd] [] in
  let sshArgs := match ssh_args this with Return l => l | Throw _ => [] end in
  let failed :=
    {| p_stdout := " " +:+ JsText.nl; p_stderr := "no such container";
       p_exitCode := 2; p_chunks := [] |} in
  let after (w : list ProcResult) :=
    (retry_loop maxRetries "ssh" (sshArgs ++ []) 120000
       ("echo " +:+ JsText.dq +:+ marker +:+ JsText.dq +:+ JsText.nl +:+ "true")
       "true" failing_cmd w start).2 in
  (exists msg,
     runOnVeHost "true" failing_cmd None None this [silent] start
       = (Return msg, this, [], emit msg (next_index (after [silent])))
     /\ m_result msg = ResText "OK" /\ m_exitCode msg = 0
     /\ m_partial msg = false /\ m_error msg = None
     /\ m_index msg = Some (index (after [silent])))
  /\ (exists msg,
       runOnVeHost "true" failing_cmd None None this [failed] start
         = (Throw (failed_text failing_cmd 2 "no such container"),
            this, [], emit msg (after [failed]))
       /\ m_stderr msg = "no such container" /\ m_result msg = ResText "ERROR"
       /\ m_exitCode msg = 2 /\ m_partial msg = false
       /\ m_error msg = Some (failed_text failing_cmd 2 "no such container")).
Proof.
  intros this sshArgs failed after. split.
  - apply (proj1 (@empty_stdout_is_ok_or_failure scripted "true" failing_cmd None None
                    this [silent] start sshArgs marker [silent] silent []
                    (after [silent]) eq_refl eq_refl eq_refl eq_refl)).
    reflexivity.
  - apply (proj1 (proj2 (@empty_stdout_is_ok_or_failure scripted "true" failing_cmd None None
                    this [failed] start sshArgs marker [failed] failed []
                    (after [failed]) eq_refl eq_refl eq_refl eq_refl))).
    discriminate.
Defined.

(** The run of [host_cmd]: the probe, then the command in container 105
    with the pve of the registry entry substituted. *)
Example host_step_runs_in_the_matched_container :
  List.map (fun e => match e with
                     | ESpawn _ args t input => (drop 19 args, t, input)
                     | _ => ([], JsNumber.Int 0, "")
                     end)
    (attempts (trace (call_amb (run None (fresh [host_cmd] []) host_world start))))
  = [ (["/app/json/shared/scripts/write-vmids-json.sh"], JsNumber.Int 10000,
       "echo " +:+ JsText.dq +:+ marker +:+ JsText.dq +:+ JsText.nl);
      (["lxc-attach"; "-n"; "105"], JsNumber.Int 120000,
       "echo " +:+ JsText.dq +:+ marker +:+ JsText.dq +:+ JsText.nl +:+ "echo pve1") ].
Proof. vm_compute. reflexivity. Qed.

(** C6 (a defect of the code). [executeOnHost] begins with two calls of
    [require], and the module is an ES module: run as Node runs one, the
    step of [host_cmd] throws before anything else is done. Nothing is
    spawned, the probe is never run, the answers of the world are all
    still to come, the one message has exit code -1 and says require is
    not defined, and [run] returns no restart information. With a
    [require] the probe is run, but its answer is not always what is
    verified: a probe that prints nothing ends the step with Invalid
    used_vm_ids JSON when no output used_vm_ids is there, and after a
    step that left that output the same silent probe is followed by the
    command in container 105, verified against the array of the earlier
    probe. *)
Theorem host_step_never_reaches_the_probe :
  let observed (r : Outcome (option IRestartInfo) * VeExecution * list ProcResult * Ambient) :=
    (match call_outcome r with
     | Return (Some ck) => Some (lastSuccessfull ck)
     | _ => None
     end,
     List.map (fun e => match e with ESpawn _ args _ _ => drop 19 args | _ => [] end)
       (List.filter is_spawn (trace (call_amb r))),
     List.map (fun m => (m_command m, m_exitCode m, m_stderr m, m_host m))
       (messages (trace (call_amb r))),
     call_world r) in
  let again := remote "again" "host:db" "echo again" in
  let probe := ["/app/json/shared/scripts/write-vmids-json.sh"] in
  observed (@run es_module None (fresh [host_cmd] []) host_world start)
    = (None, [], [(Some "migrate", -1, "require is not defined", Some "db")], host_world)
  /\ observed (run None (fresh [again] []) [silent; silent] start)
     = (None, [probe],
        [ (Some "write-vmids", 0, "", None);
          (Some "again", -1, "Invalid used_vm_ids JSON", Some "db") ],
        [silent])
  /\ observed (run None (fresh [host_cmd; again] [])
                 [out probe_text 0; silent; silent; silent] start)
     = (Some 1,
        [probe; ["lxc-attach"; "-n"; "105"]; probe; ["lxc-attach"; "-n"; "105"]],
        [ (Some "write-vmids", 0, "", None); (Some "migrate", 0, "", None);
          (Some "write-vmids", 0, "", None); (Some "again", 0, "", None);
          (Some "Completed", 0, "", None) ],
        []).
Proof. vm_compute. repeat split; reflexivity. Qed.

(** C9 at a command that names the container id, which the inputs define
    and the defaults define otherwise, and a mode that no scope defines. *)
Lemma substitution_precedence_witness :
  let o : gmap string Json := {[ "status" := JStr "installed" ]} in
  let i : gmap string Json := {[ "vm_id" := JNum 101 ]} in
  let d : gmap string Json := {[ "vm_id" := JNum 999 ]} in
  VariableResolver.replaceVarsWithContext o i d
    ("pct set ${mp} " +:+ "{{" +:+ " vm_id " +:+ "}}" +:+ " {{mode}}") ∅
  = "pct set ${mp} " +:+ "101" +:+ " NOT_DEFINED".
Proof.
  intros o i d.
  etrans;
    [apply (proj1 (substitution_precedence ∅ o i d "pct set ${mp} " " vm_id " " {{mode}}"
                     eq_refl eq_refl))|].
  vm_compute. reflexivity.
Defined.

(** C2 (a defect of the code). A single [lxc] step without a vm_id, a
    step with an unknown target, and a [host:] step whose discovery
    fails: each time the failure message with exit code -1 is emitted and
    [run] returns no restart information at all, where the claim has one
    with [lastSuccessfull] equal to -1. *)
Theorem configuration_failure_returns_no_checkpoint :
  let failure (r : Outcome (option IRestartInfo) * VeExecution * list ProcResult * Ambient) :=
    (call_outcome r,
     List.map (fun m => (m_exitCode m, m_stderr m)) (messages (trace (call_amb r)))) in
  failure (run None (fresh [remote "s0" "lxc" "true"] []) [] start)
    = (Return None, [(-1, vm_id_missing_text)])
  /\ failure (run None (fresh [remote "s0" "docker" "true"] []) [] start)
     = (Return None, [(-1, "s0 is missing the execute_on property")])
  /\ failure (run None (fresh [remote "s0" "host:nowhere" "true"] []) [silent] start)
     = (Return None, [(0, ""); (-1, "Invalid used_vm_ids JSON")]).
Proof. vm_compute. repeat split; reflexivity. Qed.

(** C4 (a defect of the code). Step 0 is a properties step and succeeds,
    step 1 is an [lxc] step without a vm_id. Nothing is spawned and the
    failure message is emitted, and [run] returns no restart information,
    where the claim has one with [lastSuccessfull] equal to 0. *)
Theorem lxc_without_vm_id_after_properties_step :
  let cmds := [props "p0" (PropObject (entry "x" "1")); remote "s1" "lxc" "true"] in
  let r := run None (fresh cmds []) [] start in
  call_outcome r = Return None
  /\ attempts (trace (call_amb r)) = []
  /\ List.map (fun m => (m_command m, m_exitCode m, m_stderr m))
       (messages (trace (call_amb r)))
     = [(Some "p0", 0, ""); (Some "s1", -1, vm_id_missing_text)]
  /\ outputs (call_this r) !! "x" = Some (JStr "1").
Proof. vm_compute. repeat split; reflexivity. Qed.

(** C5 (a defect of the code). A properties step with the single entry
    [{id: mode, value: {{selected_mode}}}], the variable defined nowhere:
    the property is not written, and no message at all is emitted, where
    the claim has one success message. The same entry inside an array does
    emit the success message. *)
Theorem single_not_defined_property_emits_nothing :
  let single := [props "p0" (PropObject (entry "mode" "{{selected_mode}}"))] in
  let array := [props "p0" (PropArray [entry "mode" "{{selected_mode}}"])] in
  trace (call_amb (run None (fresh single []) [] start)) = []
  /\ outputs (call_this (run None (fresh single []) [] start)) !! "mode" = None
  /\ List.map (fun m => (m_command m, m_exitCode m))
       (messages (trace (call_amb (run None (fresh array []) [] start))))
     = [(Some "p0", 0)]
  /\ outputs (call_this (run None (fresh array []) [] start)) !! "mode" = None.
Proof. vm_compute. repeat split; reflexivity. Qed.

(** C8 (a defect of the code). A command on the host that succeeds, then
    a properties step that succeeds (and the same with a skipped step in
    its place): both steps emit their success message, the whole list has
    completed, and neither the Completed message nor the finished signal is
    emitted, where the claim has both. Without the last step both are
    emitted. *)
Theorem no_completed_event_after_final_properties_step :
  let events (r : Outcome (option IRestartInfo) * VeExecution * list ProcResult * Ambient) :=
    omap (fun e => match e with
                   | EMessage m => Some (m_command m, m_exitCode m)
                   | EFinished _ => Some (Some "finished", 0)
                   | _ => None
                   end) (trace (call_amb r)) in
  let with_properties :=
    run None (fresh [remote "s0" "ve" "true"; props "p1" (PropObject (entry "x" "1"))] [])
      [out a_text 0] start in
  let with_skipped :=
    run None (fresh [remote "s0" "ve" "true"; remote "s1 (skipped)" "ve" "true"] [])
      [out a_text 0] start in
  let alone := run None (fresh [remote "s0" "ve" "true"] []) [out a_text 0] start in
  events with_properties = [(Some "s0", 0); (Some "p1", 0)]
  /\ call_outcome with_properties = Return (Some (checkpoint 0 [("a", JStr "1")]))
  /\ events with_skipped = [(Some "s0", 0); (Some "s1 (skipped)", 0)]
  /\ call_outcome with_skipped = Return (Some (checkpoint 0 [("a", JStr "1")]))
  /\ events alone = [(Some "s0", 0); (Some "Completed", 0); (Some "finished", 0)].
Proof. vm_compute. repeat split; reflexivity. Qed.

(** The second scenario of the specification: the install step exits with
    255 three times. Three attempts with two waits, the fourth answer is
    never asked for, and the restart information is the one for -1. *)
Example three_connection_failures :
  let r := run None (fresh [remote "install" "lxc" "true"] [("vm_id", JNum 101)])
             [out "" 255; out "" 255; out "" 255; out status_text 0] start in
  List.map (fun e => match e with ESleep ms => ms | _ => 0 end) (attempts (trace (call_amb r)))
    = [0; 3000; 0; 3000; 0]
  /\ call_world r = [out status_text 0]
  /\ call_outcome r
     = Return (Some {| r_vm_id := None; lastSuccessfull := -1;
                       r_inputs := [("vm_id", JNum 101)]; r_outputs := [];
                       r_defaults := [] |}).
Proof. vm_compute. repeat split; reflexivity. Qed.

(** A first attempt that exits with 255 and a second that exits with 0:
    two attempts with one wait, the result of the second is the result of
    the step, and the third answer is never asked for. *)
Example second_attempt_ends_the_loop :
  let r := run None (fresh [remote "install" "ve" "true"] [])
             [out "" 255; out status_text 0; out "" 7] start in
  List.map (fun e => match e with ESleep ms => ms | _ => 0 end) (attempts (trace (call_amb r)))
    = [0; 3000; 0]
  /\ call_world r = [out "" 7]
  /\ call_outcome r = Return (Some (checkpoint 0 [("status", JStr "installed")])).
Proof. vm_compute. repeat split; reflexivity. Qed.

(** The third scenario of the specification with a command on the host as
    step 0: the [lxc] step without a vm_id spawns nothing, and the restart
    information returned is the one step 0 recorded. *)
Example lxc_without_vm_id_after_command_step :
  let r := run None (fresh [remote "s0" "ve" "true"; remote "s1" "lxc" "true"] [])
             [out a_text 0] start in
  length (attempts (trace (call_amb r))) = 1%nat
  /\ call_outcome r = Return (Some (checkpoint 0 [("a", JStr "1")])).
Proof. vm_compute. repeat split; reflexivity. Qed.
End Concrete.

(** ** Further properties of the engine *)

Section MoreProperties.

Context `{Collaborators}.

(** *** Filling a map from pairs *)

Lemma fill_app l1 l2 (m : gmap string Json) : fill (l1 ++ l2) m = fill l2 (fill l1 m).
Proof. unfold fill. by rewrite foldl_app. Qed.

Lemma fill_cons k v l (m : gmap string Json) : fill ((k, v) :: l) m = fill l (<[k := v]> m).
Proof. done. Qed.

Lemma lookup_fill_notin l : forall (m : gmap string Json) k,
  k ∉ l.*1 -> fill l m !! k = m !! k.
Proof.
  induction l as [|[k' v] l IH]; intros m k Hk; [done|].
  rewrite fill_cons. rewrite fmap_cons in Hk. apply not_elem_of_cons in Hk as [Hne Hk].
  rewrite IH by done. by apply lookup_insert_ne.
Qed.

Lemma lookup_fill_last l1 k v l2 (m : gmap string Json) :
  k ∉ l2.*1 -> fill (l1 ++ (k, v) :: l2) m !! k = Some v.
Proof.
  intros Hk. rewrite fill_app, fill_cons, lookup_fill_notin by done.
  apply lookup_insert_eq.
Qed.

Lemma lookup_fill_in l : forall (m m' : gmap string Json) k,
  k ∈ l.*1 -> fill l m !! k = fill l m' !! k.
Proof.
  induction l as [|[k' v] l IH] using rev_ind; intros m m' k Hk.
  - by apply elem_of_nil in Hk.
  - rewrite !fill_snoc. rewrite fmap_app in Hk. simpl in Hk.
    destruct (decide (k = k')) as [->|Hne].
    + by rewrite !lookup_insert_eq.
    + rewrite !lookup_insert_ne by done. apply IH.
      apply elem_of_app in Hk as [Hk|Hk]; [done|].
      apply list_elem_of_singleton in Hk. congruence.
Qed.

Lemma fill_idem l (m : gmap string Json) : fill l (fill l m) = fill l m.
Proof.
  apply map_eq. intros k. destruct (decide (k ∈ l.*1)) as [Hin|Hout].
  - by apply lookup_fill_in.
  - by apply lookup_fill_notin.
Qed.

(** *** The output processor *)

Lemma processLocalFileValue_ssh v : processLocalFileValue "ssh" v = Return v.
Proof. unfold processLocalFileValue. destruct v; try done. by case_match. Qed.

Lemma apply_updates_nil this : apply_updates [] [] this = this.
Proof. by destruct this. Qed.

Lemma apply_updates_app vs1 ds1 vs2 ds2 this :
  apply_updates vs2 ds2 (apply_updates vs1 ds1 this)
  = apply_updates (vs1 ++ vs2) (ds1 ++ ds2) this.
Proof. unfold apply_updates, with_defaults, with_outputs. simpl. by rewrite !fill_app. Qed.

(** What an entry writes is the same whatever the scopes hold. *)
Lemma output_entry_uniform entry this o this1 :
  output_entry entry this = (o, this1) ->
  exists vs ds, forall that,
    sshCommand that = sshCommand this ->
    output_entry entry that = (o, apply_updates vs ds that).
Proof.
  unfold output_entry. intros E.
  destruct (prop "id" entry) as [[| | |id| |]|];
    try (exists [], []; intros that _; rewrite apply_updates_nil; congruence).
  destruct (prop "value" entry) as [v|].
  - destruct (processLocalFileValue (sshCommand this) v) as [pv|e] eqn:Ev.
    + destruct (prop "default" entry) as [d|]; simplify_eq.
      * exists [(id, pv)], [(id, d)]. intros that ->. by rewrite Ev.
      * exists [(id, pv)], []. intros that ->. rewrite Ev. by destruct that.
    + simplify_eq. exists [], []. intros that ->. rewrite Ev. by rewrite apply_updates_nil.
  - destruct (prop "default" entry) as [d|]; simplify_eq.
    + exists [], [(id, d)]. intros that _. by destruct that.
    + exists [], []. intros that _. by rewrite apply_updates_nil.
Qed.

Lemma apply_updates_ssh vs ds this : sshCommand (apply_updates vs ds this) = sshCommand this.
Proof. done. Qed.

Lemma output_loop_uniform l : forall this o this1,
  output_loop l this = (o, this1) ->
  exists vs ds, forall that,
    sshCommand that = sshCommand this ->
    output_loop l that = (o, apply_updates vs ds that).
Proof.
  induction l as [|entry l IH]; intros this o this1 E; simpl in E.
  - simplify_eq. exists [], []. intros that _. simpl. by rewrite apply_updates_nil.
  - destruct (output_entry entry this) as [[u|e] this'] eqn:Ee.
    + destruct (output_entry_uniform _ _ _ _ Ee) as (vs1 & ds1 & H1).
      destruct (IH _ _ _ E) as (vs2 & ds2 & H2).
      exists (vs1 ++ vs2), (ds1 ++ ds2). intros that Hs. simpl.
      rewrite (H1 that Hs).
      pose proof (H1 this eq_refl) as Hthis. rewrite Ee in Hthis.
      destruct u. rewrite H2, apply_updates_app; [done|].
      rewrite apply_updates_ssh, Hs. by simplify_eq.
    + simplify_eq. destruct (output_entry_uniform _ _ _ _ Ee) as (vs1 & ds1 & H1).
      exists vs1, ds1. intros that Hs. simpl. by rewrite (H1 that Hs).
Qed.

Lemma name_value_loop_uniform l : forall raw this o this1,
  name_value_loop l raw this = (o, this1) ->
  exists vs, forall that raw0,
    sshCommand that = sshCommand this ->
    name_value_loop l raw0 that
    = (match o with Return _ => Return (raw0 ++ vs) | Throw e => Throw e end,
       with_outputs (fill vs (outputs that)) that).
Proof.
  induction l as [|nv l IH]; intros raw this o this1 E; simpl in E.
  - simplify_eq. exists []. intros that raw0 _. simpl. rewrite app_nil_r. by destruct that.
  - destruct (prop "name" nv) as [[| | |n| |]|] eqn:En;
      try (destruct (IH _ _ _ _ E) as (vs & Hvs); exists vs; intros that raw0 Hs;
           simpl; rewrite En; by apply Hvs).
    destruct (prop "value" nv) as [v|] eqn:Ev.
    2:{ destruct (IH _ _ _ _ E) as (vs & Hvs). exists vs. intros that raw0 Hs.
        simpl. rewrite En, Ev. by apply Hvs. }
    destruct (processLocalFileValue (sshCommand this) v) as [pv|e] eqn:Ep.
    + destruct (IH _ _ _ _ E) as (vs & Hvs). exists ((n, pv) :: vs).
      intros that raw0 Hs. simpl. rewrite En, Ev, Hs, Ep.
      rewrite Hvs by done. destruct o; by rewrite <- ?app_assoc.
    + simplify_eq. exists []. intros that raw0 Hs. simpl. rewrite En, Ev, Hs, Ep.
      by destruct that.
Qed.

(** The text left of a non-empty cleaned text is not blank. *)
Lemma cleaned_stdout_nonempty stdout marker :
  JsText.isEmpty (cleaned_stdout stdout marker) = false ->
  JsText.isEmpty (JsText.trim stdout) = false.
Proof.
  unfold cleaned_stdout. destruct marker as [m|]; [|done].
  destruct (JsText.isEmpty m) eqn:Em; [done|].
  destruct (JsText.trim stdout) as [|a r] eqn:Et; [|done].
  destruct m; [done|]. by simpl.
Qed.

Lemma parseAndUpdateOutputs_uniform stdout cmd marker this o this1 :
  parseAndUpdateOutputs stdout cmd marker this = (o, this1) ->
  exists vs ds rr, forall that,
    sshCommand that = sshCommand this ->
    parseAndUpdateOutputs stdout cmd marker that
    = (o, match rr with
          | Some raw => with_outputsRawResult (Some raw) (apply_updates vs ds that)
          | None => apply_updates vs ds that
          end)
    /\ (rr = None \/ rr = Some vs /\ ds = []).
Proof.
  unfold parseAndUpdateOutputs. intros E.
  assert (Hnone : exists vs ds rr, forall that : VeExecution,
            sshCommand that = sshCommand this ->
            (o, that)
            = (o, match rr with
                  | Some raw => with_outputsRawResult (Some raw) (apply_updates vs ds that)
                  | None => apply_updates vs ds that
                  end)
            /\ (rr = None \/ rr = Some vs /\ ds = [])).
  { exists [], [], None. intros that _. rewrite apply_updates_nil. auto. }
  destruct (JsText.isEmpty (JsText.trim stdout)); [by simplify_eq|].
  destruct (JsText.isEmpty (cleaned_stdout stdout marker)); [by simplify_eq|].
  destruct (JSON_parse (cleaned_stdout stdout marker)) as [parsed|e]; [|by simplify_eq].
  destruct (serializeJsonWithSchema parsed) as [outputsJson|e]; [|by simplify_eq].
  destruct outputsJson as [| | | |l|fields]; try by simplify_eq.
  - match type of E with (if ?c then _ else _) = _ => destruct c end.
    + destruct (name_value_loop l [] this) as [[raw|e] this'] eqn:El.
      * simplify_eq. destruct (name_value_loop_uniform _ _ _ _ _ El) as (vs & Hvs).
        exists vs, [], (Some vs). intros that Hs. rewrite (Hvs that [] Hs). simpl.
        split; [reflexivity|by right].
      * simplify_eq. destruct (name_value_loop_uniform _ _ _ _ _ El) as (vs & Hvs).
        exists vs, [], None. intros that Hs. rewrite (Hvs that [] Hs).
        split; [reflexivity|by left].
    + destruct (output_loop_uniform _ _ _ _ E) as (vs & ds & Hl).
      exists vs, ds, None. intros that Hs. split; [by apply Hl|by left].
  - destruct (output_entry_uniform _ _ _ _ E) as (vs & ds & Hl).
    exists vs, ds, None. intros that Hs. split; [by apply Hl|by left].
Qed.

(** X2. Parsing an output is idempotent: when [parseAndUpdateOutputs] has
    ended on a text, with a return or with a throw, a second call on the
    same text in the state the first one left ends the same way and
    leaves that state as it is. *)
Theorem parse_twice_is_parse_once stdout cmd marker this :
  parseAndUpdateOutputs stdout cmd marker
    (parseAndUpdateOutputs stdout cmd marker this).2
  = parseAndUpdateOutputs stdout cmd marker this.
Proof.
  destruct (parseAndUpdateOutputs stdout cmd marker this) as [o this1] eqn:E. simpl.
  destruct (parseAndUpdateOutputs_uniform _ _ _ _ _ _ E) as (vs & ds & rr & Hu).
  destruct (Hu this eq_refl) as [E1 Hrr]. rewrite E in E1.
  assert (sshCommand this1 = sshCommand this) as Hs.
  { simplify_eq. by destruct rr. }
  destruct (Hu this1 Hs) as [E2 _]. rewrite E2. f_equal.
  injection E1 as E1. clear E2 Hs Hu E. subst this1.
  destruct rr as [raw|]; unfold apply_updates, with_defaults, with_outputs,
    with_outputsRawResult; simpl; by rewrite !fill_idem.
Qed.

Lemma output_entry_ssh entry this :
  sshCommand this = "ssh" ->
  output_entry entry this
  = (Return tt, apply_updates (id_values [entry]) (id_defaults [entry]) this).
Proof.
  intros Hs. unfold output_entry, id_values, id_defaults. simpl.
  destruct (prop "id" entry) as [[| | |id| |]|]; try by rewrite apply_updates_nil.
  rewrite Hs.
  destruct (prop "value" entry) as [v|]; [rewrite processLocalFileValue_ssh|];
    destruct (prop "default" entry) as [d|]; by destruct this.
Qed.

Lemma output_loop_ssh l : forall this,
  sshCommand this = "ssh" ->
  output_loop l this = (Return tt, apply_updates (id_values l) (id_defaults l) this).
Proof.
  induction l as [|entry l IH]; intros this Hs; simpl.
  - by rewrite apply_updates_nil.
  - rewrite output_entry_ssh by done. rewrite IH by done.
    rewrite apply_updates_app.
    unfold id_values, id_defaults. by rewrite <- !omap_app.
Qed.

Lemma name_value_loop_ssh l : forall raw this,
  sshCommand this = "ssh" ->
  name_value_loop l raw this
  = (Return (raw ++ name_values l),
     with_outputs (fill (name_values l) (outputs this)) this).
Proof.
  induction l as [|nv l IH]; intros raw this Hs; simpl.
  - rewrite app_nil_r. by destruct this.
  - unfold name_values. simpl. fold (name_values l).
    destruct (prop "name" nv) as [[| | |n| |]|]; try by apply IH.
    destruct (prop "value" nv) as [v|]; [|by apply IH].
    rewrite Hs, processLocalFileValue_ssh, IH by done.
    by rewrite <- app_assoc.
Qed.

Lemma id_record_is_no_name_record first rest :
  is_id_record first = true ->
  match first :: rest with
  | first :: _ =>
      match first with
      | JObj _ => has "name" first && negb (has "id" first)
      | _ => false
      end
  | [] => false
  end = false.
Proof.
  unfold is_id_record, has. destruct first; try done.
  destruct (prop "id" (JObj l)); [|done]. intros _. apply andb_false_r.
Qed.

(** X3. With the remote shell ([sshCommand] is ssh), a text whose cleaned
    part parses to an array of [{id, value, default}] records is merged
    without a throw: every value is set under its id in the outputs and
    every default under its id in the defaults, in the order of the
    array, and nothing else of the object changes. So an id that no
    record names keeps what it held, and for an id named more than once
    the last record wins. *)
Theorem id_records_update_scopes stdout cmd marker this l :
  sshCommand this = "ssh" ->
  JsText.isEmpty (cleaned_stdout stdout marker) = false ->
  JSON_parse (cleaned_stdout stdout marker) = inl (JArr l) ->
  forallb is_id_record l = true ->
  let this1 := apply_updates (id_values l) (id_defaults l) this in
  parseAndUpdateOutputs stdout cmd marker this = (Return tt, this1)
  /\ scopes_only this this1
  /\ (forall k, k ∉ (id_values l).*1 -> outputs this1 !! k = outputs this !! k)
  /\ (forall l1 k v l2, id_values l = l1 ++ (k, v) :: l2 -> k ∉ l2.*1 ->
        outputs this1 !! k = Some v)
  /\ (forall k, k ∉ (id_defaults l).*1 -> defaults this1 !! k = defaults this !! k)
  /\ (forall l1 k d l2, id_defaults l = l1 ++ (k, d) :: l2 -> k ∉ l2.*1 ->
        defaults this1 !! k = Some d).
Proof.
  intros Hs Hc Hparse Hrec this1. split; [|split; [done|repeat split]].
  - unfold parseAndUpdateOutputs.
    rewrite (cleaned_stdout_nonempty _ _ Hc), Hc, Hparse.
    unfold serializeJsonWithSchema, outputs_schema. rewrite Hrec, orb_true_r. simpl.
    destruct l as [|first rest]; [by destruct this|].
    simpl in Hrec. apply andb_true_iff in Hrec as [Hfirst _].
    rewrite (id_record_is_no_name_record first rest Hfirst).
    by apply output_loop_ssh.
  - intros k Hk. by apply lookup_fill_notin.
  - intros l1 k v l2 E Hk. unfold this1, apply_updates. simpl. rewrite E.
    by apply lookup_fill_last.
  - intros k Hk. by apply lookup_fill_notin.
  - intros l1 k d l2 E Hk. unfold this1, apply_updates. simpl. rewrite E.
    by apply lookup_fill_last.
Qed.

Lemma fill_non_empty vs (m : gmap string Json) : vs <> [] -> size (fill vs m) <> 0%nat.
Proof.
  destruct vs as [|[k v] vs _] using rev_ind; [done|]. intros _.
  rewrite fill_snoc. intros E. apply map_size_empty_iff in E.
  by apply insert_non_empty in E.
Qed.

Lemma name_record_pair first rest :
  is_name_record first = true -> name_values (first :: rest) <> [].
Proof.
  unfold is_name_record, name_values. simpl.
  destruct (prop "name" first) as [[| | |n| |]|]; try done.
  by destruct (prop "value" first).
Qed.

Lemma name_record_is_name_record first rest :
  is_name_record first = true ->
  match first :: rest with
  | first :: _ =>
      match first with
      | JObj _ => has "name" first && negb (has "id" first)
      | _ => false
      end
  | [] => false
  end = true.
Proof.
  unfold is_name_record, has. destruct first; try done.
  destruct (prop "name" (JObj l)) as [[| | |n| |]|]; try done.
  destruct (prop "value" (JObj l)); [|done].
  by intros [_ ?]%andb_true_iff.
Qed.

Lemma name_records_parse stdout cmd marker this first rest :
  sshCommand this = "ssh" ->
  JsText.isEmpty (cleaned_stdout stdout marker) = false ->
  JSON_parse (cleaned_stdout stdout marker) = inl (JArr (first :: rest)) ->
  forallb is_name_record (first :: rest) = true ->
  parseAndUpdateOutputs stdout cmd marker this
  = (Return tt,
     with_outputsRawResult (Some (name_values (first :: rest)))
       (with_outputs (fill (name_values (first :: rest)) (outputs this)) this)).
Proof.
  intros Hs Hc Hparse Hrec. unfold parseAndUpdateOutputs.
  rewrite (cleaned_stdout_nonempty _ _ Hc), Hc, Hparse.
  unfold serializeJsonWithSchema, outputs_schema. rewrite Hrec, !orb_true_r.
  cbv beta iota zeta.
  pose proof Hrec as Hfirst. simpl in Hfirst. apply andb_true_iff in Hfirst as [Hfirst _].
  rewrite (name_record_is_name_record first rest Hfirst).
  by rewrite name_value_loop_ssh.
Qed.

Lemma runOnVeHost_success_after_merge input cmd t rcmd this (w : World) amb
    sshArgs marker w0 proc w1 amb1 this1 :
  ssh_args this = Return sshArgs ->
  uniqueMarker w = (marker, w0) ->
  retry_loop maxRetries (sshCommand this) (sshArgs ++ default [] rcmd)
    (default (scriptTimeoutMs this) t)
    ("echo " +:+ JsText.dq +:+ marker +:+ JsText.dq +:+ JsText.nl +:+ input)
    input cmd w0 amb = (Some proc, w1, amb1) ->
  JsText.isEmpty (JsText.trim (p_stdout proc)) = false ->
  parseAndUpdateOutputs (p_stdout proc) cmd (Some marker) this = (Return tt, this1) ->
  p_exitCode proc = 0 ->
  exists msg,
    runOnVeHost input cmd t rcmd this w amb
    = (Return msg, sync_outputsRaw this1, w1, emit msg (next_index amb1))
    /\ m_result msg = ResText (p_stdout proc).
Proof.
  intros Hssh Hmark Hretry Hne Hparse Hcode.
  unfold runOnVeHost. rewrite Hssh, Hmark, Hretry, Hne, Hparse, Hcode. simpl.
  eexists. split; [reflexivity|done].
Qed.

(** X4. A script or command step on [ve], or on [lxc] with a vm_id, run
    through the remote shell, whose process exits with 0 after printing a
    non-empty array of [{name, value}] records: the loop goes on, every
    pair is set in the outputs, the raw array of the object becomes the
    list of the printed pairs, and the restart information recorded for
    the step has exactly these pairs as its outputs, in the order printed
    and with repeated names kept, whatever else the outputs hold. *)
Theorem name_value_output_is_the_checkpoint cmd rawStr i rc mi this (w : World) amb
    rcmd sshArgs marker w0 proc w1 amb1 first rest :
  (c_execute_on cmd = Some "ve" /\ rcmd = None
   \/ c_execute_on cmd = Some "lxc" /\
      exists vm_id, lxc_vm_id this = Some vm_id /\ truthy vm_id = true /\
        rcmd = Some ["lxc-attach"; "-n"; toString vm_id]) ->
  sshCommand this = "ssh" ->
  ssh_args this = Return sshArgs ->
  uniqueMarker w = (marker, w0) ->
  retry_loop maxRetries (sshCommand this) (sshArgs ++ default [] rcmd)
    (scriptTimeoutMs this)
    ("echo " +:+ JsText.dq +:+ marker +:+ JsText.dq +:+ JsText.nl
       +:+ replaceVars this rawStr)
    (replaceVars this rawStr) cmd w0 amb = (Some proc, w1, amb1) ->
  p_exitCode proc = 0 ->
  JsText.isEmpty (cleaned_stdout (p_stdout proc) (Some marker)) = false ->
  JSON_parse (cleaned_stdout (p_stdout proc) (Some marker)) = inl (JArr (first :: rest)) ->
  forallb is_name_record (first :: rest) = true ->
  let pairs := name_values (first :: rest) in
  let r := dispatch cmd rawStr i rc mi this w amb in
  step_flow r = Continue
  /\ step_world r = w1
  /\ outputs (step_this r) = fill pairs (outputs this)
  /\ outputsRaw (step_this r) = Some pairs
  /\ exists ck, step_rc r = Some ck /\ lastSuccessfull ck = Z.of_nat i
                /\ r_outputs ck = pairs.
Proof.
  intros Hon Hs Hssh Hmark Hretry Hcode Hc Hjson Hrec pairs r.
  pose proof (name_records_parse (p_stdout proc) cmd (Some marker) this first rest
                Hs Hc Hjson Hrec) as Hparse.
  pose proof (cleaned_stdout_nonempty _ _ Hc) as Hne.
  assert (forall lastMsg this2,
            outputs this2 = fill pairs (outputs this) ->
            echo_fallback lastMsg this2 = this2) as Hecho.
  { intros lastMsg this2 Ho. unfold echo_fallback.
    destruct lastMsg as [msg|]; [|done]. destruct (m_result msg); try done.
    destruct (decide (size (outputs this2) = 0%nat)) as [E|_]; [|done].
    rewrite Ho in E. apply fill_non_empty in E; [done|].
    apply name_record_pair. simpl in Hrec. by apply andb_true_iff in Hrec as [? _]. }
  assert (exists msg, runOnVeHost (replaceVars this rawStr) cmd None rcmd this w amb
            = (Return msg,
               with_outputsRaw (Some pairs)
                 (with_outputsRawResult (Some pairs)
                    (with_outputs (fill pairs (outputs this)) this)),
               w1, emit msg (next_index amb1))) as [msg Hrun].
  { destruct (runOnVeHost_success_after_merge (replaceVars this rawStr) cmd None rcmd
                this w amb sshArgs marker w0 proc w1 amb1 _ Hssh Hmark Hretry Hne
                Hparse Hcode) as (msg & Hrun & _).
    by exists msg. }
  subst r. unfold dispatch.
  destruct Hon as [[Hve ->]|[Hlxc (vm_id & Hid & Htr & ->)]].
  - rewrite Hve. simpl. rewrite Hrun. unfold after_dispatch.
    rewrite Hecho by done.
    unfold step_flow, step_world, step_this, step_rc. simpl.
    repeat split; try done. by eexists.
  - rewrite Hlxc. simpl. rewrite Hid, Htr. unfold runOnLxc. rewrite Hs. simpl.
    rewrite Hrun. unfold after_dispatch. rewrite Hecho by done.
    unfold step_flow, step_world, step_this, step_rc. simpl.
    repeat split; try done. by eexists.
Qed.

Lemma runOnVeHost_unparsable input cmd t rcmd this (w : World) amb
    sshArgs marker w0 proc w1 amb1 e :
  ssh_args this = Return sshArgs ->
  uniqueMarker w = (marker, w0) ->
  retry_loop maxRetries (sshCommand this) (sshArgs ++ default [] rcmd)
    (default (scriptTimeoutMs this) t)
    ("echo " +:+ JsText.dq +:+ marker +:+ JsText.dq +:+ JsText.nl +:+ input)
    input cmd w0 amb = (Some proc, w1, amb1) ->
  JsText.isEmpty (cleaned_stdout (p_stdout proc) (Some marker)) = false ->
  JSON_parse (cleaned_stdout (p_stdout proc) (Some marker)) = inr e ->
  runOnVeHost input cmd t rcmd this w amb
  = (Throw "An error occurred during command execution.", this, w1,
     emit {| m_command := c_name cmd; m_commandtext := Some input;
             m_stderr := p_stderr proc; m_result := ResText (p_stdout proc);
             m_exitCode := -1; m_execute_on := c_execute_on cmd;
             m_index := Some (index amb1); m_partial := false; m_error := Some e;
             m_finished := false; m_host := None |} amb1).
Proof.
  intros Hssh Hmark Hretry Hc Hjson.
  pose proof (cleaned_stdout_nonempty _ _ Hc) as Hne.
  unfold runOnVeHost. rewrite Hssh, Hmark, Hretry, Hne.
  unfold parseAndUpdateOutputs. by rewrite Hne, Hc, Hjson.
Qed.

(** X5. A script or command step on [ve], or on [lxc] with a vm_id, whose
    process printed a text that is no JSON: whatever the exit code of the
    process, 0 included, [runOnVeHost] emits the message of the process
    with exit code -1 and the parser's error text, without advancing the
    message counter, and throws; the object is left as it was. The step
    of [run] then emits its own message with exit code -1, records the
    restart information for the index before from the unchanged object,
    and leaves the loop. *)
Theorem unparsable_output_fails_the_step cmd rawStr i rc mi this (w : World) amb
    rcmd sshArgs marker w0 proc w1 amb1 e :
  (c_execute_on cmd = Some "ve" /\ rcmd = None
   \/ c_execute_on cmd = Some "lxc" /\
      exists vm_id, lxc_vm_id this = Some vm_id /\ truthy vm_id = true /\
        rcmd = (if String.eqb (sshCommand this) "ssh"
                then Some ["lxc-attach"; "-n"; toString vm_id] else None)) ->
  ssh_args this = Return sshArgs ->
  uniqueMarker w = (marker, w0) ->
  retry_loop maxRetries (sshCommand this) (sshArgs ++ default [] rcmd)
    (scriptTimeoutMs this)
    ("echo " +:+ JsText.dq +:+ marker +:+ JsText.dq +:+ JsText.nl
       +:+ replaceVars this rawStr)
    (replaceVars this rawStr) cmd w0 amb = (Some proc, w1, amb1) ->
  JsText.isEmpty (cleaned_stdout (p_stdout proc) (Some marker)) = false ->
  JSON_parse (cleaned_stdout (p_stdout proc) (Some marker)) = inr e ->
  let thrown := "An error occurred during command execution." in
  let msg :=
    {| m_command := c_name cmd; m_commandtext := Some (replaceVars this rawStr);
       m_stderr := p_stderr proc; m_result := ResText (p_stdout proc);
       m_exitCode := -1; m_execute_on := c_execute_on cmd;
       m_index := Some (index amb1); m_partial := false; m_error := Some e;
       m_finished := false; m_host := None |} in
  runOnVeHost (replaceVars this rawStr) cmd None rcmd this w amb
    = (Throw thrown, this, w1, emit msg amb1)
  /\ index (emit msg amb1) = index amb1
  /\ dispatch cmd rawStr i rc mi this w amb
     = (Break, Some (restart_info (Z.of_nat i - 1) this), S mi, this, w1,
        emit (run_message thrown ResNull (-1) (c_name cmd) cmd None mi)
          (emit msg amb1)).
Proof.
  intros Hon Hssh Hmark Hretry Hc Hjson thrown msg.
  pose proof (runOnVeHost_unparsable (replaceVars this rawStr) cmd None rcmd this w amb
                sshArgs marker w0 proc w1 amb1 e Hssh Hmark Hretry Hc Hjson) as Hrun.
  fold msg thrown in Hrun.
  split; [done|]. split; [done|]. unfold dispatch.
  destruct Hon as [[Hve ->]|[Hlxc (vm_id & Hid & Htr & ->)]].
  - rewrite Hve. simpl. by rewrite Hrun.
  - rewrite Hlxc. simpl. rewrite Hid, Htr. unfold runOnLxc.
    change (toString_opt (Some vm_id)) with (toString vm_id). by rewrite Hrun.
Qed.

(** *** The restart information a run returns *)

Lemma dispatch_rc_all cmd rawStr i rc mi this (w : World) amb :
  let r := dispatch cmd rawStr i rc mi this w amb in
  step_rc r = rc
  \/ exists ls, (ls = Z.of_nat i \/ ls = Z.of_nat i - 1)
       /\ step_rc r = Some (restart_info ls (step_this r)).
Proof.
  unfold dispatch. simpl.
  destruct (decide (c_execute_on cmd = Some "lxc")).
  { destruct (lxc_vm_id this) as [v|]; [destruct (truthy v)|]; try by left.
    destruct (runOnLxc _ _ _ _ this w amb) as [[[[m|err] this1] w1] amb1];
      right; eexists; split; [by left|done|by right|done]. }
  destruct (decide (c_execute_on cmd = Some "ve")).
  { destruct (runOnVeHost _ _ _ _ this w amb) as [[[[m|err] this1] w1] amb1];
      right; eexists; split; [by left|done|by right|done]. }
  destruct (c_execute_on cmd) as [target|]; [|by left].
  destruct (JsText.startsWith "host:" target); [|by left].
  destruct (executeOnHost _ _ _ this w amb) as [[[[m|err] this1] w1] amb1];
    [right; eexists; split; [by left|done]|by left].
Qed.

Lemma step_rc_all cmd i rc mi this (w : World) amb :
  let r := step cmd i rc mi this w amb in
  step_rc r = rc
  \/ exists ls, (ls = Z.of_nat i \/ ls = Z.of_nat i - 1)
       /\ step_rc r = Some (restart_info ls (step_this r)).
Proof.
  unfold step. simpl.
  destruct (is_skipped cmd); [by left|].
  destruct (c_properties cmd) as [[entry|l]|];
    [destruct (apply_property entry this); by left|by left|].
  destruct (c_script cmd) as [path|].
  - destruct (readFileSync path); [apply dispatch_rc_all|].
    right. eexists. split; [by right|done].
  - destruct (c_command cmd); [apply dispatch_rc_all|by left].
Qed.

Lemma run_loop_rc rest : forall i rc mi this (w : World) amb ck,
  step_rc (run_loop rest i rc mi this w amb) = Some ck ->
  rc = Some ck
  \/ (Z.of_nat i - 1 <= lastSuccessfull ck < Z.of_nat (i + length rest)
      /\ exists that, frame this that /\ ck = restart_info (lastSuccessfull ck) that).
Proof.
  induction rest as [|cmd rest IH]; intros i rc mi this w amb ck E; simpl in E.
  - by left.
  - pose proof (step_rc_all cmd i rc mi this w amb) as Hrc.
    pose proof (step_frame cmd i rc mi this w amb _ eq_refl) as [Hf _].
    destruct (step cmd i rc mi this w amb) as [[[[[f rc1] mi1] this1] w1] amb1].
    unfold step_rc, step_this in Hrc, Hf. simpl in Hrc, Hf.
    assert (rc1 = Some ck ->
            rc = Some ck
            \/ (Z.of_nat i - 1 <= lastSuccessfull ck < Z.of_nat (i + length (cmd :: rest))
                /\ exists that, frame this that
                     /\ ck = restart_info (lastSuccessfull ck) that)) as Hhere.
    { intros ->. destruct Hrc as [<-|(ls & Hls & Hck)]; [by left|right].
      simplify_eq. simpl. split; [destruct Hls; lia|]. by exists this1. }
    destruct f; [|by apply Hhere].
    destruct (IH _ _ _ _ _ _ _ E) as [E1|(Hr & that & Hf' & Hck)]; [by apply Hhere|].
    right. split; [simpl; lia|]. exists that. split; [|done].
    by eapply frame_trans.
Qed.

(** X6. Every restart information [run] returns names a position of the
    command list: its [lastSuccessfull] is at least one less than the
    index the run started at (so at least -1 on a run from the
    beginning) and less than the number of commands; and its inputs are
    the entries of the inputs of the object, which no step changes. *)
Theorem returned_checkpoint_in_range restartInfo this (w : World) amb ck :
  call_outcome (run restartInfo this w amb) = Return (Some ck) ->
  Z.of_nat (start_index restartInfo) - 1 <= lastSuccessfull ck
    < Z.of_nat (length (commands this))
  /\ r_inputs ck = map_to_list (inputs (call_this (run restartInfo this w amb)))
  /\ (restartInfo = None -> r_inputs ck = map_to_list (inputs this)).
Proof.
  intros E.
  pose proof (run_this_world restartInfo this w amb) as [Hthis _].
  cbv zeta in Hthis. rewrite Hthis. clear Hthis.
  unfold run, call_outcome in E.
  set (this0 := match restartInfo with Some ri => load_state ri this | None => this end) in *.
  assert (commands this0 = commands this) as Hcmds by (by destruct restartInfo).
  destruct (decide (start_index restartInfo <= length (commands this0))%nat) as [Hle|Hgt].
  2:{ rewrite drop_ge in E by lia. by simpl in E. }
  pose proof (run_loop_rc (drop (start_index restartInfo) (commands this0))
                (start_index restartInfo) None 0 this0 w amb ck) as Hrc.
  pose proof (run_loop_frame (drop (start_index restartInfo) (commands this0))
                (start_index restartInfo) None 0 this0 w amb _ eq_refl) as [Hf _].
  destruct (run_loop _ _ _ _ _ _ _) as [[[[[f rc] mi] this1] w1] amb1].
  unfold step_rc, step_this in Hrc, Hf. simpl in Hrc, Hf.
  assert (rc = Some ck) as ->.
  { destruct (allSuccessful rc this1); [|by simplify_eq/=].
    destruct restartInfo; [by simplify_eq/=|].
    destruct (buildVmContext this1); by simplify_eq/=. }
  destruct (Hrc eq_refl) as [?|(Hr & that & Hf' & Hck)]; [done|].
  assert (r_inputs ck = map_to_list (inputs this1)) as Hin.
  { rewrite Hck. simpl. destruct Hf as (_&_&_&_&->). by destruct Hf' as (_&_&_&_&->). }
  split; [|split; [done|]].
  - rewrite length_drop in Hr. rewrite Hcmds in Hr, Hle. lia.
  - intros ->. rewrite Hin. by destruct Hf as (_&_&_&_&->).
Qed.


(** X8. [run] catches what its steps throw. The one throw that leaves it
    is the one of [buildVmContext]: a run from the beginning throws
    exactly when every command was recorded as successful and the object
    has no VE context, the error is VE context not set, and it is thrown
    after the Completed message was emitted. A resumed run never
    throws. *)
Theorem run_throws_only_without_ve_context restartInfo this (w : World) amb e :
  call_outcome (run restartInfo this w amb) = Throw e ->
  restartInfo = None /\ veContext this = None /\ e = "VE context not set"
  /\ exists tr,
       trace (call_amb (run restartInfo this w amb)) = tr ++ [EMessage completed_message].
Proof.
  unfold run, call_outcome, call_amb.
  set (this0 := match restartInfo with Some ri => load_state ri this | None => this end).
  pose proof (run_loop_frame (drop (start_index restartInfo) (commands this0))
                (start_index restartInfo) None 0 this0 w amb _ eq_refl) as [Hf _].
  destruct (run_loop _ _ _ _ _ _ _) as [[[[[f rc] mi] this1] w1] amb1].
  unfold step_this in Hf. simpl in Hf.
  destruct (allSuccessful rc this1); [|done].
  destruct restartInfo as [ri|]; [done|].
  unfold buildVmContext. destruct (veContext this1) as [ve|] eqn:Hve; [done|].
  simpl. intros [= <-]. destruct Hf as (_ & Hv & _). subst this0.
  split; [done|]. split; [congruence|]. split; [done|]. by eexists.
Qed.

(** X9. Resuming from a restart information whose [lastSuccessfull] is
    the last index of the command list, or beyond: the state is loaded
    and nothing else happens, no step runs, no message is emitted, not
    the Completed one either, and the result is undefined. *)
Theorem resume_past_the_end_does_nothing ri this (w : World) amb :
  Z.of_nat (length (commands this)) <= lastSuccessfull ri + 1 ->
  run (Some ri) this w amb = (Return None, load_state ri this, w, amb).
Proof.
  intros Hls. unfold run, start_index.
  rewrite drop_ge; [done|]. simpl. lia.
Qed.

(** *** What a run adds to the trace *)

Lemma adds_refl n amb : adds n amb amb.
Proof. exists []. rewrite app_nil_r. repeat split; [done|simpl; lia]. Qed.

Lemma adds_trans n1 n2 a b c : adds n1 a b -> adds n2 b c -> adds (n1 + n2) a c.
Proof.
  intros (l1 & E1 & F1 & L1) (l2 & E2 & F2 & L2). exists (l1 ++ l2).
  rewrite E2, E1, app_assoc. split; [done|]. split; [by apply Forall_app|].
  rewrite List.filter_app, length_app. lia.
Qed.

Lemma adds_le n m a b : (n <= m)%nat -> adds n a b -> adds m a b.
Proof. intros Hle (l & E & F & L). exists l. repeat split; [done..|lia]. Qed.

Lemma adds_emit m amb : m_finished m = false -> adds 0 amb (emit m amb).
Proof. intros Hm. exists [EMessage m]. repeat split; [|simpl; lia]. by repeat constructor. Qed.

Lemma adds_next_index n a b : adds n a b -> adds n a (next_index b).
Proof. done. Qed.

Lemma adds_emit_next m amb : m_finished m = false -> adds 0 amb (emit m (next_index amb)).
Proof. intros Hm. exists [EMessage m]. repeat split; [|simpl; lia]. by repeat constructor. Qed.

Lemma no_spawn_among_messages (f : Chunk -> IVeExecuteMessage) (l : list Chunk) :
  List.filter is_spawn (map (fun ch => EMessage (f ch)) l) = [].
Proof. by induction l. Qed.

Lemma adds_then_emit n a b m :
  adds n a b -> m_finished m = false -> adds n a (emit m b).
Proof.
  intros Hab Hm. replace n with (n + 0)%nat by lia.
  eapply adds_trans; [exact Hab|by apply adds_emit].
Qed.

Lemma adds_then_emit_next n a b m :
  adds n a b -> m_finished m = false -> adds n a (emit m (next_index b)).
Proof.
  intros Hab Hm. replace n with (n + 0)%nat by lia.
  eapply adds_trans; [exact Hab|by apply adds_emit_next].
Qed.

Lemma spawn_once_adds ssh args t inp input cmd (w : World) amb :
  adds 1 amb (spawn_once ssh args t inp input cmd w amb).2.
Proof.
  unfold spawn_once. destruct (spawnAsync w ssh args t inp) as [proc w1]. simpl.
  destruct (trace_chunks (partial_message input cmd) (p_chunks proc)
              (log (ESpawn ssh args t inp) amb)) as [Ht _].
  exists (ESpawn ssh args t inp :: map (fun ch => EMessage (partial_message input cmd ch))
                                      (p_chunks proc)).
  rewrite Ht. simpl. rewrite <- app_assoc. split; [done|]. split.
  - constructor; [done|]. apply Forall_fmap. by apply Forall_true.
  - simpl. by rewrite no_spawn_among_messages.
Qed.

Lemma retry_loop_adds n ssh args t inp input cmd : forall (w : World) amb,
  adds n amb (retry_loop n ssh args t inp input cmd w amb).2.
Proof.
  induction n as [|n IH]; intros w amb; simpl; [apply adds_refl|].
  pose proof (spawn_once_adds ssh args t inp input cmd w amb) as H1.
  destruct (spawn_once ssh args t inp input cmd w amb) as [[proc w1] amb1].
  simpl in H1.
  destruct (p_exitCode proc =? 255); [|by eapply adds_le; [|exact H1]; lia].
  destruct n as [|n']; [by eapply adds_le; [|exact H1]; lia|].
  change (S (S n')) with (1 + S n')%nat. eapply adds_trans; [exact H1|].
  change (S n') with (0 + S n')%nat at 1. eapply adds_trans; [|apply IH].
  exists [ESleep 3000]. repeat split; [|simpl; lia]. by repeat constructor.
Qed.

Lemma runOnVeHost_adds input cmd t rcmd this (w : World) amb :
  adds 3 amb (call_amb (runOnVeHost input cmd t rcmd this w amb)).
Proof.
  unfold runOnVeHost, call_amb.
  destruct (ssh_args this) as [sshArgs|e]; [|apply adds_refl].
  destruct (uniqueMarker w) as [marker w0].
  match goal with |- context [retry_loop ?n ?a ?b ?c ?d ?e ?f w0 amb] =>
    pose proof (retry_loop_adds n a b c d e f w0 amb) as Hr;
    destruct (retry_loop n a b c d e f w0 amb) as [[p w1] amb1] end.
  simpl in Hr. change maxRetries with 3%nat in Hr.
  destruct p as [proc|]; [|done].
  repeat case_match; simpl; try done;
    by first [apply adds_then_emit|apply adds_then_emit_next].
Qed.

Lemma executeOnHost_adds hostname command cmd this (w : World) amb :
  adds 6 amb (call_amb (executeOnHost hostname command cmd this w amb)).
Proof.
  unfold executeOnHost.
  destruct required_modules as [[]|e0]; [unfold discover_and_run|apply adds_refl].
  pose proof (runOnVeHost_adds "" (with_name "write-vmids" cmd) (Some (JsNumber.Int 10000))
                (Some [probeScriptPath]) this w amb) as H1.
  destruct (runOnVeHost _ _ _ _ this w amb) as [[[[probeMsg|e] this1] w1] amb1];
    unfold call_amb in *; simpl in H1; [|by eapply adds_le; [|exact H1]; lia].
  destruct (verify_host _ _) as [vmctx|e]; [|by eapply adds_le; [|exact H1]; lia].
  match goal with |- context [runOnLxc ?a ?b ?c ?d this1 w1 amb1] =>
    pose proof (runOnVeHost_adds b c d
                  (if String.eqb (sshCommand this1) "ssh"
                   then Some ["lxc-attach"; "-n"; toString_opt a] else None)
                  this1 w1 amb1) as H2;
    fold (runOnLxc a b c d this1 w1 amb1) in H2;
    destruct (runOnLxc a b c d this1 w1 amb1) as [[[[m|err] this2] w2] amb2] end;
    unfold call_amb in H2; simpl in H2;
    change 6%nat with (3 + 3)%nat; by eapply adds_trans.
Qed.

Lemma dispatch_adds cmd rawStr i rc mi this (w : World) amb :
  adds 6 amb (step_amb (dispatch cmd rawStr i rc mi this w amb)).
Proof.
  assert (forall text h, adds 6 amb
            (emit (run_message text ResNull (-1) (c_name cmd) cmd h mi) amb)) as Hmsg.
  { intros text h. eapply adds_le; [|by apply adds_emit]. lia. }
  unfold dispatch, step_amb.
  destruct (decide (c_execute_on cmd = Some "lxc")).
  { destruct (lxc_vm_id this) as [v|]; [destruct (truthy v)|]; try apply Hmsg.
    match goal with |- context [runOnLxc ?a ?b ?c ?d this w amb] =>
      pose proof (runOnVeHost_adds b c d
                    (if String.eqb (sshCommand this) "ssh"
                     then Some ["lxc-attach"; "-n"; toString_opt a] else None)
                    this w amb) as H1;
      fold (runOnLxc a b c d this w amb) in H1;
      destruct (runOnLxc a b c d this w amb) as [[[[m|err] this1] w1] amb1] end;
      unfold call_amb in H1; simpl in *.
    - eapply adds_le; [|exact H1]. lia.
    - apply adds_then_emit; [|done]. eapply adds_le; [|exact H1]. lia. }
  destruct (decide (c_execute_on cmd = Some "ve")).
  { match goal with |- context [runOnVeHost ?a ?b ?c ?d this w amb] =>
      pose proof (runOnVeHost_adds a b c d this w amb) as H1;
      destruct (runOnVeHost a b c d this w amb) as [[[[m|err] this1] w1] amb1] end;
      unfold call_amb in H1; simpl in *.
    - eapply adds_le; [|exact H1]. lia.
    - apply adds_then_emit; [|done]. eapply adds_le; [|exact H1]. lia. }
  destruct (c_execute_on cmd) as [target|]; [|apply Hmsg].
  destruct (JsText.startsWith "host:" target); [|apply Hmsg].
  match goal with |- context [executeOnHost ?a ?b ?c this w amb] =>
    pose proof (executeOnHost_adds a b c this w amb) as H1;
    destruct (executeOnHost a b c this w amb) as [[[[m|err] this1] w1] amb1] end;
    unfold call_amb in H1; simpl in *; [done|].
  by apply adds_then_emit.
Qed.

Lemma step_adds cmd i rc mi this (w : World) amb :
  adds 6 amb (step_amb (step cmd i rc mi this w amb)).
Proof.
  assert (forall m, m_finished m = false -> adds 6 amb (emit m amb)) as Hmsg.
  { intros m Hm. eapply adds_le; [|by apply adds_emit]. lia. }
  assert (adds 6 amb amb) as Hrefl by apply adds_refl.
  unfold step.
  destruct (is_skipped cmd); [by apply Hmsg|].
  destruct (c_properties cmd) as [[entry|l]|].
  - destruct (apply_property entry this); [by apply Hmsg|done].
  - by apply Hmsg.
  - destruct (c_script cmd) as [path|].
    + destruct (readFileSync path); [apply dispatch_adds|by apply Hmsg].
    + destruct (c_command cmd); [apply dispatch_adds|done].
Qed.

Lemma run_loop_adds rest : forall i rc mi this (w : World) amb,
  adds (6 * length rest) amb (step_amb (run_loop rest i rc mi this w amb)).
Proof.
  induction rest as [|cmd rest IH]; intros i rc mi this w amb; simpl run_loop.
  - apply adds_refl.
  - pose proof (step_adds cmd i rc mi this w amb) as H1.
    destruct (step cmd i rc mi this w amb) as [[[[[f rc1] mi1] this1] w1] amb1].
    unfold step_amb in H1. simpl in H1.
    destruct f.
    + replace (6 * length (cmd :: rest))%nat with (6 + 6 * length rest)%nat
        by (simpl; lia).
      eapply adds_trans; [exact H1|apply IH].
    + eapply adds_le; [|exact H1]. simpl. lia.
Qed.

(** X10. The trace of a run: whatever the processes answer, [run] spawns
    at most six processes for each command from its start index on (a
    step on a discovered host probes and then executes, each with up to
    three attempts); the events it emits are messages with [finished]
    unset, followed, exactly when the restart information it holds at the
    end is the one for the last command, by the one Completed message
    with [finished] set and, on a run from the beginning with a VE
    context, by the finished signal carrying the context built from the
    final outputs. *)
Theorem run_trace_shape restartInfo this (w : World) amb :
  let r := run restartInfo this w amb in
  exists before final,
    trace (call_amb r) = trace amb ++ before ++ final
    /\ Forall unfinished before
    /\ (length (List.filter is_spawn before)
        <= 6 * (length (commands this) - start_index restartInfo))%nat
    /\ (final = []
        \/ (final = [EMessage completed_message]
            /\ (restartInfo = None -> veContext this = None))
        \/ (restartInfo = None
            /\ exists ctx, buildVmContext (call_this r) = Return ctx
                 /\ final = [EMessage completed_message; EFinished ctx]))
    /\ (final <> [] <->
        (exists ck, call_outcome r = Return (Some ck)
                    /\ lastSuccessfull ck = Z.of_nat (length (commands this)) - 1)
        \/ exists e, call_outcome r = Throw e).
Proof.
  intros r. subst r. unfold run, call_amb, call_this, call_outcome.
  set (this0 := match restartInfo with Some ri => load_state ri this | None => this end).
  assert (commands this0 = commands this) as Hcmds by (by destruct restartInfo).
  rewrite Hcmds.
  pose proof (run_loop_adds (drop (start_index restartInfo) (commands this))
                (start_index restartInfo) None 0 this0 w amb) as (before & Htr & Hun & Hsp).
  pose proof (run_loop_frame (drop (start_index restartInfo) (commands this))
                (start_index restartInfo) None 0 this0 w amb _ eq_refl) as [Hf _].
  destruct (run_loop _ _ _ _ _ _ _) as [[[[[f rc] mi] this1] w1] amb1].
  unfold step_amb, step_rc, step_this in *. simpl in Htr, Hf |- *.
  rewrite length_drop in Hsp.
  assert (commands this1 = commands this) as Hcmds1.
  { destruct Hf as (-> & _). done. }
  assert (allSuccessful rc this1 = true <->
          exists ck, rc = Some ck
                     /\ lastSuccessfull ck = Z.of_nat (length (commands this)) - 1) as Hall.
  { unfold allSuccessful. rewrite Hcmds1. destruct rc as [ck|].
    - rewrite Z.eqb_eq. split; [by exists ck|]. by intros (? & [= <-] & ?).
    - split; [done|]. by intros (? & ? & ?). }
  exists before.
  destruct (allSuccessful rc this1) eqn:Ha.
  - destruct (proj1 Hall eq_refl) as (ck & -> & Hls).
    destruct restartInfo as [ri|].
    + exists [EMessage completed_message]. simpl. rewrite Htr, <- app_assoc.
      repeat split; try done; [by right; left|].
      intros _. left. by exists ck.
    + destruct (buildVmContext this1) as [ctx|e] eqn:Hctx.
      * exists [EMessage completed_message; EFinished ctx]. simpl.
        rewrite Htr, <- !app_assoc. simpl.
        repeat split; try done; [|intros _; left; by exists ck].
        right; right. split; [done|]. by exists ctx.
      * exists [EMessage completed_message]. simpl. rewrite Htr, <- app_assoc.
        repeat split; try done; [|intros _; right; by exists e].
        right; left. split; [done|]. intros _.
        unfold buildVmContext in Hctx. destruct Hf as (_ & Hv & _). subst this0.
        destruct (veContext this1); [done|congruence].
  - exists []. simpl. rewrite app_nil_r.
    repeat split; try done; [by left|].
    intros [(ck & [= ->] & Hls)|[e ?]]; [|done].
    assert (exists ck', Some ck = Some ck'
              /\ lastSuccessfull ck' = Z.of_nat (length (commands this)) - 1) as Hex
      by (by exists ck).
    apply Hall in Hex. done.
Qed.

(** *** Steps that need no process *)

Lemma step_local cmd i rc mi this (w : World) amb :
  is_local cmd = true ->
  exists msgs,
    step cmd i rc mi this w amb
    = (Continue, rc, (mi + length msgs)%nat, step_this (step cmd i rc mi this w amb), w,
       {| index := index amb; trace := trace amb ++ map EMessage msgs |})
    /\ map m_index msgs = map Some (seq mi (length msgs))
    /\ Forall (fun m => m_exitCode m = 0 /\ m_partial m = false /\ m_finished m = false)
         msgs.
Proof.
  unfold is_local, step, step_this. intros Hl.
  destruct (is_skipped cmd).
  { exists [skipped_message cmd mi]. simpl. rewrite Nat.add_1_r.
    split; [done|]. split; [done|]. by repeat constructor. }
  destruct (c_properties cmd) as [[entry|l]|].
  - destruct (apply_property entry this) as [this1|].
    + exists [properties_message cmd (PropObject entry) mi]. simpl. rewrite Nat.add_1_r.
      split; [done|]. split; [done|]. by repeat constructor.
    + exists []. simpl. rewrite Nat.add_0_r, app_nil_r. by destruct amb.
  - exists [properties_message cmd (PropArray l) mi]. simpl. rewrite Nat.add_1_r.
    split; [done|]. split; [done|]. by repeat constructor.
  - destruct (c_script cmd); [done|]. destruct (c_command cmd); [done|].
    exists []. simpl. rewrite Nat.add_0_r, app_nil_r. by destruct amb.
Qed.

(** X11. A list of commands that are skipped, carry properties, or have
    neither a script nor a command text runs without any process: the
    loop runs to its end, the world is as it was, the restart
    information held is left as it was, and what is added to the trace
    are messages only, with exit code 0, numbered one after the other
    from the message counter on. Run from the beginning such a list
    returns no restart information, and neither the Completed message
    nor the finished signal is emitted. *)
Theorem local_steps_spawn_nothing cmds : forall i rc mi this (w : World) amb,
  forallb is_local cmds = true ->
  let r := run_loop cmds i rc mi this w amb in
  (step_flow r = Continue /\ step_rc r = rc /\ step_world r = w
   /\ index (step_amb r) = index amb
   /\ exists msgs,
        trace (step_amb r) = trace amb ++ map EMessage msgs
        /\ map m_index msgs = map Some (seq mi (length msgs))
        /\ Forall (fun m => m_exitCode m = 0 /\ m_partial m = false
                            /\ m_finished m = false) msgs)
  /\ (commands this = cmds ->
      run None this w amb
      = (Return None, step_this (run_loop cmds 0 None 0 this w amb), w,
         step_amb (run_loop cmds 0 None 0 this w amb))).
Proof.
  assert (forall cmds i rc mi this (w : World) amb,
    forallb is_local cmds = true ->
    let r := run_loop cmds i rc mi this w amb in
    step_flow r = Continue /\ step_rc r = rc /\ step_world r = w
    /\ index (step_amb r) = index amb
    /\ exists msgs,
         trace (step_amb r) = trace amb ++ map EMessage msgs
         /\ map m_index msgs = map Some (seq mi (length msgs))
         /\ Forall (fun m => m_exitCode m = 0 /\ m_partial m = false
                             /\ m_finished m = false) msgs) as Hloop.
  { clear cmds. induction cmds as [|cmd cmds IH]; intros i rc mi this w amb Hl; simpl.
    - unfold step_flow, step_rc, step_world, step_amb. simpl.
      repeat split; try done. exists []. by rewrite app_nil_r.
    - simpl in Hl. apply andb_true_iff in Hl as [Hc Hl].
      destruct (step_local cmd i rc mi this w amb Hc) as (m1 & -> & Hi1 & Hf1).
      destruct (IH (S i) rc (mi + length m1)%nat (step_this (step cmd i rc mi this w amb)) w
                   {| index := index amb; trace := trace amb ++ map EMessage m1 |} Hl)
        as (E1 & E2 & E3 & E4 & m2 & Ht & Hi2 & Hf2).
      repeat split; try done.
      exists (m1 ++ m2). rewrite Ht. simpl. rewrite map_app, <- app_assoc.
      split; [done|]. split; [|by apply Forall_app].
      rewrite map_app, Hi1, Hi2, length_app, seq_app. by rewrite map_app. }
  intros i rc mi this w amb Hl r. split; [by apply Hloop|].
  intros Hcmds. unfold run, start_index. rewrite drop_0, Hcmds.
  destruct (Hloop cmds 0%nat None 0%nat this w amb Hl) as (_ & Hrc & Hw & _).
  destruct (run_loop cmds 0 None 0 this w amb) as [[[[[f rc'] mi'] this1] w1] amb1].
  unfold step_rc, step_world, step_this, step_amb in *. simpl in *. by subst.
Qed.

(** *** A step without connection parameters *)

Lemma runOnVeHost_without_context input cmd t rcmd this (w : World) amb :
  sshCommand this = "ssh" -> veContext this = None ->
  runOnVeHost input cmd t rcmd this w amb = (Throw "SSH parameters not set", this, w, amb).
Proof. intros Hs Hv. unfold runOnVeHost, ssh_args. by rewrite Hs, Hv. Qed.

(** X12. With the remote shell and no VE context, no script or command
    step spawns a process: whatever its target, the step emits exactly
    one message, with exit code -1, leaves the loop, and leaves the
    object and the world as they were. On [ve], and on [lxc] with a
    vm_id, the message says SSH parameters not set and the restart
    information is the one for the index before; on a discovered host
    the message is reported with the host name and the restart
    information held is left as it was, and the text is the message of
    the [require] call that throws, where one does (in an ES module under
    Node: require is not defined), and SSH parameters not set where both
    return. *)
Theorem no_connection_no_spawn cmd rawStr i rc mi this (w : World) amb :
  sshCommand this = "ssh" -> veContext this = None ->
  let r := dispatch cmd rawStr i rc mi this w amb in
  (step_flow r = Break /\ step_this r = this /\ step_world r = w
   /\ exists m, step_amb r = emit m amb /\ m_exitCode m = -1 /\ m_index m = Some mi)
  /\ (c_execute_on cmd = Some "ve"
      \/ c_execute_on cmd = Some "lxc"
         /\ (exists v, lxc_vm_id this = Some v /\ truthy v = true) ->
      r = on_catch "SSH parameters not set" cmd i mi this w amb)
  /\ (forall target,
        c_execute_on cmd = Some target -> JsText.startsWith "host:" target = true ->
        r = config_break
              (match required_modules with
               | Throw e => e
               | Return _ => "SSH parameters not set"
               end)
              (Some (JsText.split_colon_1 target)) cmd rc mi this w amb).
Proof.
  intros Hs Hv r. subst r. unfold dispatch.
  assert (forall input t rcmd,
            runOnVeHost input cmd t rcmd this w amb
            = (Throw "SSH parameters not set", this, w, amb)) as Hrun.
  { intros. by apply runOnVeHost_without_context. }
  assert (forall hostname command,
            executeOnHost hostname command cmd this w amb
            = (Throw (match required_modules with
                      | Throw e => e
                      | Return _ => "SSH parameters not set"
                      end), this, w, amb)) as Hhost.
  { intros. unfold executeOnHost. destruct required_modules as [[]|e0]; [|done].
    unfold discover_and_run. by rewrite runOnVeHost_without_context. }
  assert (forall r : Flow * option IRestartInfo * nat * VeExecution * World * Ambient,
            (exists text h rc',
               r = (Break, rc', S mi, this, w,
                    emit (run_message text ResNull (-1) (c_name cmd) cmd h mi) amb)) ->
            step_flow r = Break /\ step_this r = this /\ step_world r = w
            /\ (exists m, step_amb r = emit m amb /\ m_exitCode m = -1
                          /\ m_index m = Some mi)) as Hshape.
  { intros r (text & h & rc' & ->). repeat split. by eexists. }
  destruct (decide (c_execute_on cmd = Some "lxc")) as [Hlxc|Hnl].
  { unfold runOnLxc.
    assert (forall target, c_execute_on cmd = Some target ->
              JsText.startsWith "host:" target = true -> False) as Hno.
    { intros target Ht Hh. rewrite Hlxc in Ht. by simplify_eq. }
    destruct (lxc_vm_id this) as [v|] eqn:Hid; [destruct (truthy v) eqn:Htr|].
    - rewrite Hrun. split; [apply Hshape; unfold on_catch, config_break; do 3 eexists; reflexivity|]. split; [done|].
      intros target Ht Hh. by destruct (Hno target).
    - split; [apply Hshape; unfold on_catch, config_break; do 3 eexists; reflexivity|]. split.
      + intros [Hve|(_ & v' & ? & ?)]; [congruence|simplify_eq; congruence].
      + intros target Ht Hh. by destruct (Hno target).
    - split; [apply Hshape; unfold on_catch, config_break; do 3 eexists; reflexivity|]. split.
      + intros [Hve|(_ & v' & ? & ?)]; [congruence|simplify_eq; congruence].
      + intros target Ht Hh. by destruct (Hno target). }
  destruct (decide (c_execute_on cmd = Some "ve")) as [Hve|Hnv].
  { rewrite Hrun. split; [apply Hshape; unfold on_catch, config_break; do 3 eexists; reflexivity|split]; [done|].
    intros target Ht Hh. rewrite Hve in Ht. by simplify_eq. }
  destruct (c_execute_on cmd) as [target|] eqn:Hon.
  2:{ split; [apply Hshape; unfold on_catch, config_break; do 3 eexists; reflexivity|split]; [|done].
      by intros [?|[? _]]. }
  destruct (JsText.startsWith "host:" target) eqn:Hh.
  - rewrite Hhost. split; [apply Hshape; unfold on_catch, config_break; do 3 eexists; reflexivity|split].
    + intros [?|[? _]]; congruence.
    + by intros target' [= <-] _.
  - split; [apply Hshape; unfold on_catch, config_break; do 3 eexists; reflexivity|split].
    + intros [?|[? _]]; congruence.
    + intros target' [= <-] ?. congruence.
Qed.

(** *** The trace and the counters influence nothing *)

Lemma dispatch_rc_indep cmd rawStr i rc mi mi' this (w : World) amb amb' :
  step_rc (dispatch cmd rawStr i rc mi this w amb)
  = step_rc (dispatch cmd rawStr i rc mi' this w amb').
Proof.
  unfold dispatch.
  destruct (decide (c_execute_on cmd = Some "lxc")).
  { destruct (lxc_vm_id this) as [v|]; [destruct (truthy v)|]; try done.
    match goal with |- context [runOnLxc ?a ?b ?c ?d this w amb] =>
      destruct (runOnLxc_indep a b c d this w amb amb') as (Ho & Ht & Hw);
      unfold call_outcome, call_this, call_world in Ho, Ht, Hw;
      destruct (runOnLxc a b c d this w amb) as [[[o1 this1] w1] amb1];
      destruct (runOnLxc a b c d this w amb') as [[[o1' this1'] w1'] amb1'] end.
    simpl in Ho, Ht, Hw. subst. by destruct o1, o1'. }
  destruct (decide (c_execute_on cmd = Some "ve")).
  { match goal with |- context [runOnVeHost ?a ?b ?c ?d this w amb] =>
      destruct (runOnVeHost_indep a b c d this w amb amb') as (Ho & Ht & Hw);
      unfold call_outcome, call_this, call_world in Ho, Ht, Hw;
      destruct (runOnVeHost a b c d this w amb) as [[[o1 this1] w1] amb1];
      destruct (runOnVeHost a b c d this w amb') as [[[o1' this1'] w1'] amb1'] end.
    simpl in Ho, Ht, Hw. subst. destruct o1 as [m|], o1' as [m'|]; try done.
    unfold after_dispatch. by rewrite (echo_fallback_result this1' m m' Ho). }
  destruct (c_execute_on cmd) as [target|]; [|done].
  destruct (JsText.startsWith "host:" target); [|done].
  match goal with |- context [executeOnHost ?a ?b ?c this w amb] =>
    destruct (executeOnHost_indep a b c this w amb amb') as (Ho & Ht & Hw);
    unfold call_outcome, call_this, call_world in Ho, Ht, Hw;
    destruct (executeOnHost a b c this w amb) as [[[o1 this1] w1] amb1];
    destruct (executeOnHost a b c this w amb') as [[[o1' this1'] w1'] amb1'] end.
  simpl in Ho, Ht, Hw. subst. by destruct o1'.
Qed.

Lemma step_rc_indep cmd i rc mi mi' this (w : World) amb amb' :
  step_rc (step cmd i rc mi this w amb) = step_rc (step cmd i rc mi' this w amb').
Proof.
  unfold step.
  destruct (is_skipped cmd); [done|].
  destruct (c_properties cmd) as [[entry|l]|]; [by destruct (apply_property entry this)|done|].
  destruct (c_script cmd) as [path|].
  - destruct (readFileSync path); [apply dispatch_rc_indep|done].
  - destruct (c_command cmd); [apply dispatch_rc_indep|done].
Qed.

Lemma run_loop_rc_indep rest : forall i rc mi mi' this (w : World) amb amb',
  step_rc (run_loop rest i rc mi this w amb) = step_rc (run_loop rest i rc mi' this w amb').
Proof.
  induction rest as [|cmd rest IH]; intros i rc mi mi' this w amb amb'; simpl; [done|].
  destruct (step_indep cmd i rc rc mi mi' this w amb amb') as (Hf & Ht & Hw).
  pose proof (step_rc_indep cmd i rc mi mi' this w amb amb') as Hrc.
  unfold step_flow, step_this, step_world, step_rc in Hf, Ht, Hw, Hrc.
  destruct (step cmd i rc mi this w amb) as [[[[[f rc1] mi1] this1] w1] amb1].
  destruct (step cmd i rc mi' this w amb') as [[[[[f' rc1'] mi1'] this1'] w1'] amb1'].
  simpl in Hf, Ht, Hw, Hrc. subst. destruct f'; [apply IH|done].
Qed.

(** X13. The message counter of the module and the events emitted so far
    influence nothing but the numbering of the messages: started with any
    two counters and traces, a run returns the same restart information
    or throws the same error, and leaves the same object and the same
    world. *)
Theorem run_ignores_counters_and_trace restartInfo this (w : World) amb amb' :
  call_outcome (run restartInfo this w amb) = call_outcome (run restartInfo this w amb')
  /\ call_this (run restartInfo this w amb) = call_this (run restartInfo this w amb')
  /\ call_world (run restartInfo this w amb) = call_world (run restartInfo this w amb').
Proof.
  unfold run, call_outcome, call_this, call_world.
  set (this0 := match restartInfo with Some ri => load_state ri this | None => this end).
  destruct (run_loop_indep (drop (start_index restartInfo) (commands this0))
              (start_index restartInfo) None None 0 0 this0 w amb amb') as (_ & Ht & Hw).
  pose proof (run_loop_rc_indep (drop (start_index restartInfo) (commands this0))
                (start_index restartInfo) None 0 0 this0 w amb amb') as Hrc.
  unfold step_this, step_world, step_rc in Ht, Hw, Hrc.
  destruct (run_loop _ _ _ _ _ _ amb) as [[[[[f rc] mi] this1] w1] amb1].
  destruct (run_loop _ _ _ _ _ _ amb') as [[[[[f' rc'] mi'] this1'] w1'] amb1'].
  simpl in Ht, Hw, Hrc. subst.
  destruct (allSuccessful rc' this1'); [|done].
  destruct restartInfo; [done|]. by destruct (buildVmContext this1').
Qed.

(** *** A local file that cannot be read *)

Lemma output_loop_plain l : forall this,
  Forall (fun entry => forall v, prop "value" entry = Some v ->
            processLocalFileValue (sshCommand this) v = Return v) l ->
  output_loop l this = (Return tt, apply_updates (id_values l) (id_defaults l) this).
Proof.
  induction l as [|entry l IH]; intros this Hl; simpl.
  - by rewrite apply_updates_nil.
  - apply Forall_cons in Hl as [He Hl].
    assert (output_entry entry this
            = (Return tt, apply_updates (id_values [entry]) (id_defaults [entry]) this))
      as ->.
    { unfold output_entry, id_values, id_defaults. simpl.
      destruct (prop "id" entry) as [[| | |id| |]|]; try by rewrite apply_updates_nil.
      destruct (prop "value" entry) as [v|]; [rewrite (He v eq_refl)|];
        destruct (prop "default" entry) as [d|]; by destruct this. }
    rewrite IH by done. rewrite apply_updates_app.
    unfold id_values, id_defaults. by rewrite <- !omap_app.
Qed.

Lemma processLocalFileValue_unreadable ssh path err :
  String.eqb ssh "ssh" = false ->
  readLocalBase64 path = inr err ->
  processLocalFileValue ssh (JStr ("local:" +:+ path))
  = Throw ("Failed to read file " +:+ localFullPath path +:+ ": " +:+ err).
Proof.
  intros Hs Hr. unfold processLocalFileValue.
  assert (JsText.startsWith "local:" ("local:" +:+ path) = true) as ->.
  { change ("local:" +:+ path)
      with (String "l" (String "o" (String "c" (String "a" (String "l"
             (String ":" path)))))).
    unfold JsText.startsWith. simpl. by destruct path. }
  change (JsText.drop 6 ("local:" +:+ path)) with path.
  by rewrite Hs, Hr.
Qed.

(** X14. The merge of an array of records is not undone by a failure:
    with local execution ([sshCommand] is not ssh), when the value of a
    record is a text local:path whose file cannot be read, the loop throws
    an error that names the full path and the reason, the values and
    defaults of the records before it stay merged, and the failing record
    and those after it change nothing. *)
Theorem unreadable_local_file_keeps_earlier_records l1 id path bad l2 this err :
  String.eqb (sshCommand this) "ssh" = false ->
  Forall (fun entry => forall v, prop "value" entry = Some v ->
            processLocalFileValue (sshCommand this) v = Return v) l1 ->
  prop "id" bad = Some (JStr id) ->
  prop "value" bad = Some (JStr ("local:" +:+ path)) ->
  readLocalBase64 path = inr err ->
  output_loop (l1 ++ bad :: l2) this
  = (Throw ("Failed to read file " +:+ localFullPath path +:+ ": " +:+ err),
     apply_updates (id_values l1) (id_defaults l1) this).
Proof.
  intros Hs Hl1 Hid Hv Hread.
  assert (forall l this0 o this1,
            output_loop l1 this0 = (Return tt, this1) ->
            output_loop l this1 = o ->
            output_loop (l1 ++ l) this0 = o) as Happ.
  { clear. induction l1 as [|e l1 IH]; intros l this0 o this1 E1 E2; simpl in *.
    - by simplify_eq.
    - destruct (output_entry e this0) as [[[]|msg] this'] eqn:Ee; [|done].
      by eapply IH. }
  eapply Happ; [by apply output_loop_plain|].
  cbn [output_loop]. unfold output_entry. rewrite Hid, Hv.
  erewrite processLocalFileValue_unreadable; [done|exact Hs|exact Hread].
Qed.

(** *** The messages of a remote execution *)






End MoreProperties.

(** ** Decimal texts *)

Lemma digits_of_uint_acc d : forall acc : positive,
  JsText.digits (Some (Z.pos acc)) (NilEmpty.string_of_uint d)
  = (Some (Z.pos (Pos.of_uint_acc d acc)), "").
Proof.
  induction d as [|d IH|d IH|d IH|d IH|d IH|d IH|d IH|d IH|d IH|d IH]; intros acc;
    [done|..]; cbn [NilEmpty.string_of_uint JsText.digits Pos.of_uint_acc];
    (etrans; [|apply IH]); f_equal; f_equal; simpl; lia.
Qed.

Lemma digits_of_uint_zero d :
  JsText.digits (Some 0) (NilEmpty.string_of_uint d)
  = (Some (Z.of_N (Pos.of_uint d)), "").
Proof.
  induction d as [|d IH|d IH|d IH|d IH|d IH|d IH|d IH|d IH|d IH|d IH];
    [done|exact IH|..]; apply (digits_of_uint_acc d).
Qed.

Lemma digits_of_uint d :
  d <> Decimal.Nil ->
  JsText.digits None (NilEmpty.string_of_uint d)
  = (Some (Z.of_N (Pos.of_uint d)), "").
Proof.
  destruct d; [done|..]; intros _;
    first [apply (digits_of_uint_zero d)|apply (digits_of_uint_acc d)].
Qed.

Lemma string_of_uint_head d :
  d <> Decimal.Nil ->
  JsText.signed (JsText.trimStart (NilEmpty.string_of_uint d))
  = (1, NilEmpty.string_of_uint d).
Proof. by destruct d. Qed.

(** The decimal digits of a whole number read back as that number,
    rounded to a double: [Number.parseInt] of them, for negative numbers
    too. *)
Lemma parseInt10_decimal (n : Z) :
  JsText.parseInt10 (JsText.decimal n) = JsNumber.of_Z n.
Proof.
  unfold JsText.decimal.
  assert (forall p, Pos.to_uint p <> Decimal.Nil) as Hnil.
  { intros p E. pose proof (DecimalPos.Unsigned.of_to p) as Hp. by rewrite E in Hp. }
  assert (forall p, NilZero.string_of_uint (Pos.to_uint p)
                    = NilEmpty.string_of_uint (Pos.to_uint p)) as Hstr.
  { intros p. specialize (Hnil p). by destruct (Pos.to_uint p). }
  destruct n as [|p|p]; [done|..]; simpl; rewrite Hstr.
  - unfold JsText.parseInt10. rewrite string_of_uint_head, digits_of_uint by done.
    rewrite DecimalPos.Unsigned.of_to. f_equal.
  - unfold JsText.parseInt10. simpl. rewrite digits_of_uint by done.
    by rewrite DecimalPos.Unsigned.of_to.
Qed.

Lemma decimal_non_empty n : JsText.isEmpty (JsText.decimal n) = false.
Proof.
  unfold JsText.decimal. destruct n as [|p|p]; [done|..]; simpl.
  - unfold NilZero.string_of_uint. by destruct (Pos.to_uint p).
  - done.
Qed.

(** Up to 2^53 a whole number is a double, and its text is its decimal
    digits. *)
Lemma number_of_safe n : Z.abs n <= 2 ^ 53 -> JsNumber.of_Z n = JsNumber.Int n.
Proof. intros Hn. unfold JsNumber.of_Z. by destruct (Z.leb_spec (Z.abs n) (2 ^ 53)); [|lia]. Qed.

Lemma of_Z_safe n : Z.abs n <= 2 ^ 53 -> JsText.of_Z n = JsText.decimal n.
Proof.
  intros Hn. unfold JsText.of_Z. rewrite number_of_safe by done.
  by destruct (Z.leb_spec (Z.abs n) (2 ^ 53)); [|lia].
Qed.

Lemma parseInt10_of_Z n :
  Z.abs n <= 2 ^ 53 -> JsText.parseInt10 (JsText.of_Z n) = JsNumber.Int n.
Proof. intros Hn. by rewrite of_Z_safe, parseInt10_decimal, number_of_safe. Qed.

(** X16. The script timeout a new object gets from the environment
    variable LXC_MANAGER_SCRIPT_TIMEOUT: 120000 ms when the variable is
    unset or empty, or when the number it begins with is missing or not
    above zero, and otherwise the product of that number and 1000 as
    doubles multiply. The product is exactly a thousand times [n] when the
    variable is the text of a whole number [n] above zero with 1000 n up
    to 2^53; beyond, it is the double nearest to the product of the
    double read (the text 9007199254740993 is read as 9007199254740992 and
    gives 9007199254740992000), and Infinity when the number read is
    Infinity. *)
Theorem script_timeout_from_environment cmds inps ve defs ssh env :
  let t := scriptTimeoutMs (new_VeExecution cmds inps ve defs ssh env) in
  (env = None \/ env = Some "" -> t = 120000)
  /\ (forall s, env = Some s ->
        JsText.parseInt10 s = JsNumber.NaN
        \/ JsNumber.above_zero (JsText.parseInt10 s) = false ->
        t = 120000)
  /\ (forall s, env = Some s -> JsText.isEmpty s = false ->
        JsNumber.above_zero (JsText.parseInt10 s) = true ->
        t = JsNumber.mul (JsText.parseInt10 s) 1000)
  /\ (forall n, 0 < n -> 1000 * n <= 2 ^ 53 -> env = Some (JsText.of_Z n) ->
        t = JsNumber.Int (1000 * n))
  /\ (env = Some "9007199254740993" -> t = 9007199254740992000)
  /\ (forall s, env = Some s -> JsText.parseInt10 s = JsNumber.Infinity false ->
        t = JsNumber.Infinity false).
Proof.
  simpl. unfold timeout_from_env. split; [|split; [|split; [|split; [|split]]]].
  - by intros [-> | ->].
  - intros s -> Hs. destruct (JsText.isEmpty s); [done|].
    destruct Hs as [-> | ->]; [done|]. by rewrite andb_false_r.
  - intros s -> -> Hs. rewrite Hs.
    by destruct (JsText.parseInt10 s).
  - intros n Hn Hle ->.
    rewrite of_Z_safe, decimal_non_empty, parseInt10_decimal, number_of_safe by lia.
    simpl. destruct (Z.ltb_spec 0 n); [|lia]. simpl.
    rewrite number_of_safe by lia. f_equal. lia.
  - intros ->. vm_compute. reflexivity.
  - intros s -> Hs. rewrite Hs. destruct (JsText.isEmpty s) eqn:E; [|done].
    destruct s; [|done]. by vm_compute in Hs.
Qed.

(** X17. The vm_id of a restart information is read from the output
    vm_id, as [Number.parseInt] reads its text: it is undefined without
    such an output; a whole number of magnitude up to 2^53, or the text of
    its decimal digits, comes back as that number; the number 10^21, which
    is printed in exponent form, comes back as 1; a boolean gives NaN. *)
Theorem checkpoint_vm_id ls this :
  (outputs this !! "vm_id" = None -> r_vm_id (restart_info ls this) = None)
  /\ (forall n, Z.abs n <= 2 ^ 53 -> outputs this !! "vm_id" = Some (JNum n) ->
        r_vm_id (restart_info ls this) = Some (JsNumber.Int n))
  /\ (forall n, Z.abs n <= 2 ^ 53 ->
        outputs this !! "vm_id" = Some (JStr (JsText.decimal n)) ->
        r_vm_id (restart_info ls this) = Some (JsNumber.Int n))
  /\ (outputs this !! "vm_id" = Some (JNum (10 ^ 21)) ->
        r_vm_id (restart_info ls this) = Some (JsNumber.Int 1))
  /\ (forall b, outputs this !! "vm_id" = Some (JBool b) ->
        r_vm_id (restart_info ls this) = Some JsNumber.NaN).
Proof.
  unfold restart_info. simpl. split; [|split; [|split; [|split]]].
  - by intros ->.
  - intros n Hn ->. simpl. by rewrite parseInt10_of_Z.
  - intros n Hn ->. simpl. by rewrite parseInt10_decimal, number_of_safe.
  - intros ->. vm_compute. reflexivity.
  - intros b ->. by destruct b.
Qed.

(** ** The marker in the output *)

Lemma string_app_cons c (s x : string) : String c s +:+ x = String c (s +:+ x).
Proof. reflexivity. Qed.

Lemma string_app_assoc (a b c : string) : (a +:+ b) +:+ c = a +:+ b +:+ c.
Proof. induction a as [|x a IH]; [done|]. by rewrite !string_app_cons, IH. Qed.

Lemma string_app_length (a b : string) :
  String.length (a +:+ b) = (String.length a + String.length b)%nat.
Proof. induction a as [|x a IH]; [done|]. rewrite string_app_cons. simpl. by rewrite IH. Qed.

Lemma substring_prefix (m r : string) : String.substring 0 (String.length m) (m +:+ r) = m.
Proof.
  induction m as [|x m IH]; [by destruct r|].
  rewrite string_app_cons. simpl. by rewrite IH.
Qed.

Lemma substring_after (b m r : string) :
  String.substring (String.length b) (String.length m) (b +:+ m +:+ r) = m.
Proof.
  induction b as [|x b IH]; [apply (substring_prefix m r)|].
  rewrite string_app_cons. simpl. apply IH.
Qed.

Lemma substring_within (a r : string) : forall k n,
  (k + n <= String.length a)%nat -> String.substring k n (a +:+ r) = String.substring k n a.
Proof.
  induction a as [|x a IH]; intros k n Hle.
  - simpl in Hle. assert (k = 0%nat) as -> by lia. assert (n = 0%nat) as -> by lia.
    by destruct r.
  - rewrite string_app_cons. simpl in Hle. destruct k as [|k]; simpl.
    + destruct n as [|n]; [done|]. f_equal. apply (IH 0%nat). lia.
    + apply IH. lia.
Qed.

Lemma drop_after (b m r : string) :
  JsText.drop (String.length b + String.length m) (b +:+ m +:+ r) = r.
Proof.
  induction b as [|x b IH]; [|rewrite string_app_cons; apply IH].
  change ("" +:+ m +:+ r) with (m +:+ r). simpl.
  induction m as [|y m IH]; [done|]. rewrite string_app_cons. apply IH.
Qed.

(** The first occurrence of the marker in a text that holds it after a
    banner, when the banner and the marker hold no earlier one. *)
Lemma indexOf_after_banner (banner marker rest : string) :
  JsText.isEmpty marker = false ->
  JsText.indexOf marker (banner +:+ marker) = Some (String.length banner) ->
  JsText.indexOf marker (banner +:+ marker +:+ rest) = Some (String.length banner).
Proof.
  unfold JsText.indexOf. intros Hne Hfirst.
  assert (marker <> "") as Hm by (by destruct marker).
  pose proof (substring_after banner marker rest) as Hat.
  destruct (String.index 0 marker (banner +:+ marker +:+ rest)) as [k|] eqn:E.
  - f_equal. destruct (Nat.lt_trichotomy k (String.length banner)) as [Hlt|[->|Hgt]].
    + exfalso. apply String.index_correct1 in E.
      rewrite <- string_app_assoc, substring_within in E
        by (rewrite string_app_length; lia).
      apply (String.index_correct2 _ _ _ _ Hfirst k); [lia|lia|done].
    + done.
    + exfalso.
      apply (String.index_correct2 _ _ _ _ E (String.length banner)); [lia|lia|done].
  - exfalso.
    apply (String.index_correct3 _ (String.length banner) _ _ E); [done|lia|done].
Qed.

(** X18. The banner before the marker is not parsed. When the trimmed
    output of a process is a banner, then the marker, then a rest, and
    the marker occurs no earlier in it, the text handed to the JSON
    parser is the trimmed rest, whatever the banner is; an output
    without the marker is parsed as a whole. *)
Theorem banner_before_marker_is_ignored (stdout banner marker rest : string) :
  JsText.isEmpty marker = false ->
  JsText.trim stdout = banner +:+ marker +:+ rest ->
  JsText.indexOf marker (banner +:+ marker) = Some (String.length banner) ->
  cleaned_stdout stdout (Some marker) = JsText.trim rest
  /\ (forall other,
        JsText.isEmpty other = false ->
        JsText.indexOf other (JsText.trim stdout) = None ->
        cleaned_stdout stdout (Some other) = JsText.trim stdout).
Proof.
  intros Hne Htrim Hfirst. split.
  - unfold cleaned_stdout. rewrite Hne, Htrim.
    rewrite (indexOf_after_banner banner marker rest Hne Hfirst).
    unfold JsText.slice. by rewrite drop_after.
  - intros other Ho Hnone. unfold cleaned_stdout. by rewrite Ho, Hnone.
Qed.

(** ** Properties of the process monitor *)

Section MonitorProperties.

Import ProcessMonitor.

Lemma with_messages_same g : with_messages (g_messages g) g = g.
Proof. by destruct g. Qed.

Lemma same_key_with_messages l g h : same_key (with_messages l g) h = same_key g h.
Proof. done. Qed.

Lemma same_key_refl g : same_key g g = true.
Proof. unfold same_key. by rewrite !String.eqb_refl. Qed.

(** Nothing of [incoming] is new when each of its indices is there. *)
Lemma append_new_nothing existing incoming :
  (forall m, m ∈ incoming -> m_index m ∈ map m_index existing) ->
  append_new existing incoming = existing.
Proof.
  intros Hin. unfold append_new.
  assert (List.filter (fun msg => negb (has_index existing msg)) incoming = []) as ->.
  { induction incoming as [|m l IH]; [done|]. simpl.
    unfold has_index at 1. rewrite bool_decide_true by (apply Hin; left). simpl.
    apply IH. intros m' Hm'. apply Hin. by right. }
  apply app_nil_r.
Qed.

Lemma append_new_nothing_inv existing incoming :
  append_new existing incoming = existing ->
  forall m, m ∈ incoming -> m_index m ∈ map m_index existing.
Proof.
  unfold append_new. intros E m Hm.
  assert (List.filter (fun msg => negb (has_index existing msg)) incoming = []) as Hf.
  { apply (app_inv_head existing). by rewrite app_nil_r. }
  destruct (decide (m_index m ∈ map m_index existing)) as [|Hn]; [done|].
  assert (m ∈ List.filter (fun msg => negb (has_index existing msg)) incoming) as Hin.
  { apply list_elem_of_In, List.filter_In. split; [by apply list_elem_of_In|].
    unfold has_index. by rewrite bool_decide_false. }
  rewrite Hf in Hin. by apply elem_of_nil in Hin.
Qed.

Lemma append_new_covers existing incoming m :
  m ∈ incoming -> m_index m ∈ map m_index (append_new existing incoming).
Proof.
  intros Hm. unfold append_new. rewrite map_app. apply elem_of_app.
  destruct (decide (m_index m ∈ map m_index existing)) as [|Hn]; [by left|right].
  apply list_elem_of_fmap. exists m. split; [done|].
  apply list_elem_of_In, List.filter_In. split; [by apply list_elem_of_In|].
  unfold has_index. by rewrite bool_decide_false.
Qed.

(** A group absorbed by the groups held: merging it changes nothing. *)
Lemma merge_group_self ms : forall g, merge_group (merge_group ms g) g = merge_group ms g.
Proof.
  induction ms as [|e ms IH]; intros g; simpl.
  - rewrite same_key_refl. rewrite append_new_nothing; [by rewrite with_messages_same|].
    intros m Hm. by apply list_elem_of_fmap_2.
  - destruct (same_key e g) eqn:Ek; simpl.
    + rewrite same_key_with_messages, Ek. f_equal.
      unfold with_messages. simpl. f_equal.
      apply append_new_nothing. intros m Hm. by apply append_new_covers.
    + by rewrite Ek, IH.
Qed.

Lemma merge_group_absorbed ms : forall g h,
  merge_group ms g = ms -> merge_group (merge_group ms h) g = merge_group ms h.
Proof.
  induction ms as [|e ms IH]; intros g h Hg; [done|]. simpl in Hg |- *.
  destruct (same_key e g) eqn:Eg.
  - injection Hg as Hg. 
    assert (append_new (g_messages e) (g_messages g) = g_messages e) as Hnew.
    { by rewrite <- Hg at 2. }
    destruct (same_key e h) eqn:Eh; simpl.
    + rewrite same_key_with_messages, Eg. f_equal.
      unfold with_messages. simpl. f_equal.
      apply append_new_nothing. intros m Hm.
      unfold append_new. rewrite map_app. apply elem_of_app. left.
      by apply (append_new_nothing_inv _ _ Hnew).
    + rewrite Eg. f_equal. rewrite Hnew. apply with_messages_same.
  - injection Hg as Hg.
    destruct (same_key e h) eqn:Eh; simpl.
    + by rewrite same_key_with_messages, Eg, Hg.
    + rewrite Eg. f_equal. by apply IH.
Qed.

Lemma foldl_merge_absorbed batch : forall ms g,
  merge_group ms g = ms ->
  merge_group (foldl merge_group ms batch) g = foldl merge_group ms batch.
Proof.
  induction batch as [|h batch IH]; intros ms g Hg; [done|]. simpl.
  apply IH. by apply merge_group_absorbed.
Qed.

Lemma foldl_merge_absorbs batch : forall ms g,
  g ∈ batch ->
  merge_group (foldl merge_group ms batch) g = foldl merge_group ms batch.
Proof.
  induction batch as [|h batch IH]; intros ms g Hg; [by apply elem_of_nil in Hg|].
  simpl. apply elem_of_cons in Hg as [->|Hg]; [|by apply IH].
  apply foldl_merge_absorbed, merge_group_self.
Qed.

(** X19. Merging the same answer a second time changes nothing: once
    [mergeMessages] has merged an answer into the groups held, merging
    that answer again leaves every group and every message as it is. So a
    poll that returns the messages already shown adds no duplicate,
    and an answer that is missing or empty changes nothing either. The
    very first answer, received while no groups are held, is taken as it
    is; from the second merge of it on nothing changes any more. *)
Theorem merge_same_answer_twice (messages : option (list MessageGroup))
    (ms newMsgs : list MessageGroup) :
  mergeMessages (mergeMessages (Some ms) newMsgs) newMsgs
  = mergeMessages (Some ms) newMsgs
  /\ (let once := mergeMessages messages newMsgs in
      mergeMessages (mergeMessages once newMsgs) newMsgs = mergeMessages once newMsgs)
  /\ (forall answer,
        on_next (on_next (Some ms) answer) answer = on_next (Some ms) answer).
Proof.
  assert (forall ms0 batch, mergeMessages (mergeMessages (Some ms0) batch) batch
                            = mergeMessages (Some ms0) batch) as Hsome.
  { intros ms0 batch. simpl. f_equal.
    assert (forall done_ ms',
              (forall g, g ∈ done_ -> merge_group ms' g = ms') ->
              foldl merge_group ms' done_ = ms') as Hfix.
    { induction done_ as [|g l IH]; intros ms' Hall; [done|]. simpl.
      rewrite Hall by left. apply IH. intros g' Hg'. apply Hall. by right. }
    apply Hfix. intros g Hg. by apply foldl_merge_absorbs. }
  split; [apply Hsome|]. split.
  - destruct messages as [ms0|]; simpl; apply Hsome.
  - intros [[|g l]|]; try done. unfold on_next. apply Hsome.
Qed.

Lemma append_new_distinct existing incoming :
  NoDup (map m_index existing) -> NoDup (map m_index incoming) ->
  NoDup (map m_index (append_new existing incoming)).
Proof.
  intros He Hi. unfold append_new. rewrite map_app. apply NoDup_app.
  split; [done|]. split.
  - intros i Hex Hnew. apply list_elem_of_fmap in Hnew as (m & -> & Hm).
    apply list_elem_of_In, List.filter_In in Hm as [_ Hm].
    unfold has_index in Hm. by rewrite bool_decide_true in Hm.
  - clear He. induction incoming as [|m l IH]; [constructor|]. simpl in Hi |- *.
    apply NoDup_cons in Hi as [Hm Hl].
    destruct (negb (has_index existing m)); [|by apply IH].
    simpl. apply NoDup_cons. split; [|by apply IH].
    intros Hin. apply Hm. apply list_elem_of_fmap in Hin as (m' & E & Hm').
    apply list_elem_of_fmap. exists m'. split; [done|].
    apply list_elem_of_In, List.filter_In in Hm' as [Hm' _]. by apply list_elem_of_In.
Qed.

Lemma merge_group_distinct ms : forall g,
  Forall distinct_indices ms -> distinct_indices g ->
  Forall distinct_indices (merge_group ms g).
Proof.
  induction ms as [|e ms IH]; intros g Hms Hg; simpl.
  - by repeat constructor.
  - apply Forall_cons in Hms as [He Hms]. destruct (same_key e g).
    + constructor; [|done]. by apply append_new_distinct.
    + constructor; [done|]. by apply IH.
Qed.

Lemma merge_group_keeps ms : forall g i e,
  ms !! i = Some e ->
  exists e', merge_group ms g !! i = Some e'
    /\ g_application e' = g_application e /\ g_task e' = g_task e
    /\ g_other e' = g_other e
    /\ g_messages e `prefix_of` g_messages e'.
Proof.
  induction ms as [|x ms IH]; intros g i e Hi; [done|]. simpl.
  destruct (same_key x g).
  - destruct i as [|i]; simpl in *.
    + simplify_eq. eexists. split; [done|]. repeat split. by eexists.
    + exists e. by repeat split.
  - destruct i as [|i]; simpl in *.
    + simplify_eq. exists e. by repeat split.
    + by apply IH.
Qed.

(** X20. [mergeMessages] only ever appends: every group held before stays
    at its position with its application, its task and its other fields,
    and with the messages it had, in order, as the first of its messages;
    new groups come after the groups held. And when no group held and no
    group of the answer has two messages of the same index, no group has
    afterwards. *)
Theorem merge_only_appends (ms newMsgs : list MessageGroup) :
  (forall i e,
     ms !! i = Some e ->
     exists e', foldl merge_group ms newMsgs !! i = Some e'
       /\ g_application e' = g_application e /\ g_task e' = g_task e
       /\ g_other e' = g_other e
       /\ g_messages e `prefix_of` g_messages e')
  /\ (Forall distinct_indices ms -> Forall distinct_indices newMsgs ->
      Forall distinct_indices (foldl merge_group ms newMsgs))
  /\ mergeMessages (Some ms) newMsgs = Some (foldl merge_group ms newMsgs).
Proof.
  split; [|split; [|done]].
  - revert ms. induction newMsgs as [|g l IH]; intros ms i e Hi; simpl.
    + exists e. by repeat split.
    + destruct (merge_group_keeps ms g i e Hi) as (e1 & H1 & Ha & Ht & Ho & Hp).
      destruct (IH _ _ _ H1) as (e2 & H2 & Ha2 & Ht2 & Ho2 & Hp2).
      exists e2. rewrite Ha2, Ht2, Ho2. repeat split; try done.
      by etrans.
  - revert ms. induction newMsgs as [|g l IH]; intros ms Hms Hl; [done|]. simpl.
    apply Forall_cons in Hl as [Hg Hl]. apply IH; [|done].
    by apply merge_group_distinct.
Qed.

End MonitorProperties.

(** ** Properties of the command line *)

Section CliProperties.

Import Cli.

Variable p : Paths.






(** X23. [main] runs the exec command only on complete and valid
    arguments: the application, the task and the parameters file are
    non-empty texts the arguments gave, and the task is one of the seven
    task types; and it starts the web application exactly when the
    arguments name no command. *)
Theorem main_runs_exec_only_when_valid (argv : list string) :
  (forall a t f l s r,
     main p argv = RunExec a t f l s r ->
     exists args,
       parseArgs p argv = Args args
       /\ command args = Some "exec" /\ application args = Some a
       /\ task args = Some t /\ parametersFile args = Some f
       /\ localPath args = l /\ secretsFilePath args = s /\ restartInfoFile args = r
       /\ t ∈ VALID_TASK_TYPES
       /\ JsText.isEmpty a = false /\ JsText.isEmpty t = false
       /\ JsText.isEmpty f = false)
  /\ (forall l s,
        main p argv = StartWebApp l s <->
        exists args, parseArgs p argv = Args args /\ falsy (command args) = true
          /\ l = (if falsy (localPath args) then join p (cwd p) "examples"
                  else default "" (localPath args))
          /\ s = secretsFilePath args).
Proof.
  unfold main. split.
  - intros a t f l s r E. destruct (parseArgs p argv) as [args|]; [|done].
    exists args. split; [done|].
    destruct (falsy (command args)); [done|].
    destruct (bool_decide (command args = Some "exec")) eqn:Hc; [|done].
    apply bool_decide_eq_true in Hc.
    destruct (falsy (application args)) eqn:Ha; [done|].
    destruct (falsy (task args)) eqn:Ht; [done|].
    destruct (falsy (parametersFile args)) eqn:Hf; [done|].
    simpl in E. destruct (isValidTaskType (default "" (task args))) eqn:Hv; [|done].
    simpl in E. injection E as <- <- <- <- <- <-.
    apply bool_decide_eq_true in Hv.
    destruct (application args), (task args), (parametersFile args); try done.
  - intros l s. destruct (parseArgs p argv) as [args|].
    + split.
      * intros E. exists args. split; [done|].
        destruct (falsy (command args)); [by simplify_eq|].
        repeat case_match; done.
      * intros (args' & [= <-] & Hc & -> & ->). by rewrite Hc.
    + split; [done|]. by intros (? & ? & _).
Qed.

End CliProperties.

(** ** The further properties at concrete inputs *)

Section MoreConcrete.

Import Scripted Samples.

(** X3 at the record [a] printed after the marker. *)
Lemma id_records_update_scopes_witness :
  parseAndUpdateOutputs (printed a_text) failing_cmd (Some marker) (fresh [] [])
  = (Return tt, apply_updates [("a", JStr "1")] [] (fresh [] [])).
Proof.
  apply (proj1 (@id_records_update_scopes scripted (printed a_text) failing_cmd
                  (Some marker) (fresh [] []) [object_json "id" "a" "value" "1"]
                  eq_refl eq_refl eq_refl eq_refl)).
Defined.

(** X4 at one step on the host whose process prints the name/value
    record [b] and exits with 0. *)
Lemma name_value_output_is_the_checkpoint_witness :
  let this := fresh [failing_cmd] [] in
  let r := dispatch failing_cmd "true" 0 None 0 this b_world start in
  step_flow r = Continue
  /\ step_world r = no_world
  /\ outputs (step_this r) = fill [("b", JStr "2")] (outputs this)
  /\ outputsRaw (step_this r) = Some [("b", JStr "2")]
  /\ exists ck, step_rc r = Some ck /\ lastSuccessfull ck = Z.of_nat 0
                /\ r_outputs ck = [("b", JStr "2")].
Proof.
  intros this.
  apply (@name_value_output_is_the_checkpoint scripted failing_cmd "true" 0%nat None
           0%nat this b_world start None
           (match ssh_args this with Return l => l | Throw _ => [] end)
           marker b_world (out b_text 0) no_world
           (@retry_loop scripted maxRetries "ssh"
              (match ssh_args this with Return l => l | Throw _ => [] end ++ [])
              120000
              ("echo " +:+ JsText.dq +:+ marker +:+ JsText.dq +:+ JsText.nl +:+ "true")
              "true" failing_cmd b_world start).2
           (object_json "name" "b" "value" "2") []).
  - left. by split.
  - reflexivity.
  - reflexivity.
  - reflexivity.
  - vm_compute. reflexivity.
  - reflexivity.
  - vm_compute. reflexivity.
  - vm_compute. reflexivity.
  - reflexivity.
Defined.

(** X5 at one step on the host whose process prints a text that is no
    JSON and exits with 0. *)
Lemma unparsable_output_fails_the_step_witness :
  let this := fresh [failing_cmd] [] in
  let r := dispatch failing_cmd "true" 0 None 0 this garbled_world start in
  step_flow r = Break /\ step_this r = this /\ step_world r = no_world
  /\ step_rc r = Some (restart_info (Z.of_nat 0 - 1) this).
Proof.
  intros this r.
  destruct (@unparsable_output_fails_the_step scripted failing_cmd "true" 0%nat None
              0%nat this garbled_world start None
              (match ssh_args this with Return l => l | Throw _ => [] end)
              marker garbled_world garbled no_world
              (@retry_loop scripted maxRetries "ssh"
                 (match ssh_args this with Return l => l | Throw _ => [] end ++ [])
                 120000
                 ("echo " +:+ JsText.dq +:+ marker +:+ JsText.dq +:+ JsText.nl +:+ "true")
                 "true" failing_cmd garbled_world start).2
              "Unexpected token") as (_ & _ & Hd).
  - left. by split.
  - reflexivity.
  - reflexivity.
  - vm_compute. reflexivity.
  - vm_compute. reflexivity.
  - vm_compute. reflexivity.
  - subst r. rewrite Hd. by repeat split.
Defined.

(** X6 at the run of [copy_cmds], which returns the restart information
    of its first step. *)
Lemma returned_checkpoint_in_range_witness :
  let this := fresh copy_cmds [] in
  let ck := checkpoint 0 [("a", JStr "1")] in
  Z.of_nat (start_index None) - 1 <= lastSuccessfull ck
    < Z.of_nat (length (commands this))
  /\ r_inputs ck = map_to_list (inputs (call_this (run None this copy_world start)))
  /\ (@None IRestartInfo = None -> r_inputs ck = map_to_list (inputs this)).
Proof.
  intros this ck.
  apply (@returned_checkpoint_in_range scripted None this copy_world start ck).
  vm_compute. reflexivity.
Defined.

(** X8 at a local run of one step that succeeds, in an object without a
    VE context. *)
Lemma run_throws_only_without_ve_context_witness :
  let this := local_object [failing_cmd] in
  @None IRestartInfo = None /\ veContext this = None
  /\ "VE context not set" = "VE context not set"
  /\ exists tr,
       trace (call_amb (run None this copy_world start))
       = tr ++ [EMessage completed_message].
Proof.
  intros this.
  apply (@run_throws_only_without_ve_context scripted None this copy_world start).
  vm_compute. reflexivity.
Defined.

(** X9 at the two commands of [copy_cmds], resumed after the last. *)
Lemma resume_past_the_end_does_nothing_witness :
  let ri := checkpoint 1 [("a", JStr "1")] in
  run (Some ri) (fresh copy_cmds []) copy_world start
  = (Return None, load_state ri (fresh copy_cmds []), copy_world, start).
Proof.
  intros ri.
  apply (@resume_past_the_end_does_nothing scripted ri (fresh copy_cmds []) copy_world start).
  vm_compute. discriminate.
Defined.

(** X11 at the three commands of [local_cmds]. *)
Lemma local_steps_spawn_nothing_witness :
  let this := fresh local_cmds [] in
  run None this idle_world start
  = (Return None, step_this (run_loop local_cmds 0 None 0 this idle_world start), idle_world,
     step_amb (run_loop local_cmds 0 None 0 this idle_world start)).
Proof.
  intros this.
  apply (proj2 (@local_steps_spawn_nothing scripted local_cmds 0%nat None 0%nat this
                  idle_world start eq_refl) eq_refl).
Defined.

(** X12 at one step on the host in an object that was given no VE
    context. *)
Lemma no_connection_no_spawn_witness :
  let this := unconnected [failing_cmd] in
  let r := dispatch failing_cmd "true" 0 None 0 this idle_world start in
  step_flow r = Break /\ step_this r = this /\ step_world r = idle_world
  /\ exists m, step_amb r = emit m start /\ m_exitCode m = -1 /\ m_index m = Some 0%nat.
Proof.
  intros this.
  apply (proj1 (@no_connection_no_spawn scripted failing_cmd "true" 0%nat None 0%nat this
                  idle_world start eq_refl eq_refl)).
Defined.


(** X1 at one step on [lxc] in an object without inputs. *)
Lemma lxc_without_vm_id_breaks_witness :
  let cmd := remote "s1" "lxc" "true" in
  let this := fresh [cmd] [] in
  step cmd 0 None 0 this idle_world start
  = (Break, None, 1%nat, this, idle_world,
     emit (run_message vm_id_missing_text ResNull (-1) (c_name cmd) cmd None 0) start).
Proof.
  intros cmd this.
  apply (@lxc_without_vm_id_breaks scripted cmd "true" 0%nat None 0%nat this idle_world start).
  - reflexivity.
  - reflexivity.
  - reflexivity.
  - right. by split.
  - left. reflexivity.
Defined.

(** X14 at three records the second of which names a file that is not
    there. *)
Lemma unreadable_local_file_keeps_earlier_records_witness :
  output_loop records_with_key (local_object [])
  = (Throw ("Failed to read file " +:+ "/local/id_rsa" +:+ ": "
              +:+ "ENOENT: no such file or directory"),
     apply_updates [("a", JStr "1")] [] (local_object [])).
Proof.
  apply (@unreadable_local_file_keeps_earlier_records scripted
           [object_json "id" "a" "value" "1"] "key" "id_rsa" key_record
           [object_json "id" "c" "value" "3"] (local_object [])
           "ENOENT: no such file or directory").
  - reflexivity.
  - repeat constructor. intros v [= <-]. reflexivity.
  - reflexivity.
  - reflexivity.
  - reflexivity.
Defined.

(** X18 at an output that begins with a line of the login banner. *)
Lemma banner_before_marker_is_ignored_witness :
  cleaned_stdout banner_stdout (Some marker) = JsText.trim after_marker.
Proof.
  apply (proj1 (banner_before_marker_is_ignored banner_stdout motd marker after_marker
                  eq_refl eq_refl eq_refl)).
Defined.

(** The first answer is taken as it is: two groups of one application
    and task in it stay apart, and the same answer merged once more moves
    the messages of the second into the first. *)
Example first_answer_is_not_merged :
  let answer := [group "modbus2mqtt" "installation" [0%nat];
                 group "modbus2mqtt" "installation" [1%nat]] in
  ProcessMonitor.mergeMessages None answer = Some answer
  /\ ProcessMonitor.mergeMessages (Some answer) answer
     = Some [group "modbus2mqtt" "installation" [0%nat; 1%nat];
             group "modbus2mqtt" "installation" [1%nat]].
Proof. split; reflexivity. Qed.

End MoreConcrete.
